(** * bitstore.js: a shallow embedding of the bitmap index engine

    The development follows the 2015-10-31 revision of [bitstore.js]
    (classes [BITS] and [LBITS]).  JavaScript numbers are modelled as
    mathematical integers ([Z]); every place where the language converts
    to 32 bits (the shift and bitwise operators, typed-array stores) has
    its wrap-around written out.  A value that may be [undefined] or
    [NaN] is an [option Z] with [None] for both.  A typed array is a
    [list Z]; a read out of range gives [undefined], a store out of range
    is dropped. *)

From Stdlib Require Import ZArith Lia Bool List.
From stdpp Require Import base tactics option list numbers gmap.

Local Open Scope Z_scope.

(** ** JavaScript primitives *)

Module JS.

Definition ToUint32 (n : Z) : Z := n mod 2 ^ 32.
Definition ToInt32 (n : Z) : Z := (n + 2 ^ 31) mod 2 ^ 32 - 2 ^ 31.
Definition ToUint16 (n : Z) : Z := n mod 2 ^ 16.
Definition ToUint8 (n : Z) : Z := n mod 2 ^ 8.

(** [a << n], [a >>> n], [a & b], [a | b] *)
Definition shl (a n : Z) : Z :=
    ToInt32 (Z.shiftl (ToInt32 a) (ToUint32 n mod 32)).
Definition shru (a n : Z) : Z :=
    Z.shiftr (ToUint32 a) (ToUint32 n mod 32).
Definition band (a b : Z) : Z := ToInt32 (Z.land (ToInt32 a) (ToInt32 b)).
Definition bor (a b : Z) : Z := ToInt32 (Z.lor (ToInt32 a) (ToInt32 b)).

(** Numbers that may be [undefined]/[NaN]. *)
Definition num := option Z.

Definition add (a b : num) : num :=
    match a, b with Some p, Some q => Some (p + q) | _, _ => None end.
Definition sub (a b : num) : num :=
    match a, b with Some p, Some q => Some (p - q) | _, _ => None end.
Definition mul (a b : num) : num :=
    match a, b with Some p, Some q => Some (p * q) | _, _ => None end.

(** Relational operators: any comparison with [NaN] is false. *)
Definition lt (a b : num) : bool :=
    match a, b with Some p, Some q => p <? q | _, _ => false end.
Definition gt (a b : num) : bool := lt b a.
Definition le (a b : num) : bool :=
    match a, b with Some p, Some q => p <=? q | _, _ => false end.
Definition ge (a b : num) : bool := le b a.

(** [a == b] on numbers: false when either side is [NaN]. *)
Definition eq_num (a b : num) : bool :=
    match a, b with Some p, Some q => p =? q | _, _ => false end.

(** The integer conversions send [NaN] to 0. *)
Definition int (a : num) : Z := default 0 a.

(** Typed arrays. *)
Definition get (l : list Z) (i : Z) : num :=
    if i <? 0 then None else l !! Z.to_nat i.
Definition get_num (l : list Z) (i : num) : num :=
    match i with Some k => get l k | None => None end.
Definition put (wrap : Z → Z) (l : list Z) (i : Z) (v : num) : list Z :=
    if i <? 0 then l else <[Z.to_nat i := wrap (int v)]> l.
Definition put_num (wrap : Z → Z) (l : list Z) (i : num) (v : num) : list Z :=
    match i with Some k => put wrap l k v | None => l end.
Definition set_u8 := put ToUint8.
Definition set_u16 := put ToUint16.
Definition set_u32 := put ToUint32.
Definition zeros (n : Z) : list Z := replicate (Z.to_nat n) 0.
Definition len {A : Type} (l : list A) : Z := Z.of_nat (length l).

(** The elements of a [Uint32Array] are in range; the same for a
    [Uint16Array] and for the code units of a string. *)
Definition is_u32_array (l : list Z) : bool :=
  forallb (fun v => (0 <=? v) && (v <? 2 ^ 32)) l.
Definition is_u16_array (l : list Z) : bool :=
  forallb (fun v => (0 <=? v) && (v <? 2 ^ 16)) l.

(** [for (i = start; i < stop; i += step) s = body i s], for a positive
      [step] and a body that assigns neither [i] nor [stop]. *)
Fixpoint iterate {St : Type} (n : nat) (i step : Z) (body : Z → St → St) (s : St) : St :=
  match n with
  | O => s
  | S n' => iterate n' (i + step) step body (body i s)
  end.
Definition trips (start stop step : Z) : nat :=
    Z.to_nat ((stop - start + step - 1) `div` step).
Definition for_lt {St : Type} (start stop step : Z) (body : Z → St → St) (s : St) : St :=
    iterate (trips start stop step) start step body s.

(** A loop left by [break]: the state carries the flag, and the
      remaining iterations do nothing. *)
Definition breakable {St : Type} (body : Z → St → St * bool) (i : Z) (st : St * bool) : St * bool :=
    if st.2 then st else body i st.1.

(** [v != null] *)
Definition notnull {A : Type} (v : option A) : bool :=
  match v with Some _ => true | None => false end.

(** Completions: a call returns normally or throws. *)
Inductive error := TypeError.
Inductive result (A : Type) := Normal (a : A) | Throw (e : error).
Arguments Normal {A} a.
Arguments Throw {A} e.

Definition bind {A B : Type} (m : result A) (k : A → result B) : result B :=
    match m with Normal a => k a | Throw e => Throw e end.

(** Whether a call returned normally. *)
Definition returns {A : Type} (m : result A) : bool :=
  match m with Normal _ => true | Throw _ => false end.

End JS.

Notation "'do' x <- m ; k" := (JS.bind m (fun x => k))
  (at level 10, x pattern, m at level 100, k at level 200).

(** ** BITS: one bitstore *)

Module BITS.

(** The instance fields set by the constructor.  [data] is the
    [Uint16Array] bitmap index or [null]; [tempData] the raw raster kept
    by a lazy load; [extent] a [Uint32Array] of six elements. *)
Module obj.
Record t := mk {
  layerId : Z;
  x : Z;
  y : Z;
  z : Z;
  data : option (list Z);
  isReady : bool;
  tempData : option (list Z);
  needProc : bool;
  needGet : bool;
  getting : bool;
  _defExZ : Z;
  extent : list Z;
  img_fx_unshadow : bool;
  img_fx_unstroke : bool;
  img_ch_offset : Z;
  img_alpha_threshold : Z;
  img_unshd_threshold : Z;
  img_width : Z;
  img_height : Z }.

Definition with_data (d : option (list Z)) (b : t) : t :=
  mk (layerId b) (x b) (y b) (z b) d (isReady b) (tempData b) (needProc b)
     (needGet b) (getting b) (_defExZ b) (extent b) (img_fx_unshadow b)
     (img_fx_unstroke b) (img_ch_offset b) (img_alpha_threshold b)
     (img_unshd_threshold b) (img_width b) (img_height b).
Definition with_isReady (r : bool) (b : t) : t :=
  mk (layerId b) (x b) (y b) (z b) (data b) r (tempData b) (needProc b)
     (needGet b) (getting b) (_defExZ b) (extent b) (img_fx_unshadow b)
     (img_fx_unstroke b) (img_ch_offset b) (img_alpha_threshold b)
     (img_unshd_threshold b) (img_width b) (img_height b).
Definition with_tempData (d : option (list Z)) (b : t) : t :=
  mk (layerId b) (x b) (y b) (z b) (data b) (isReady b) d (needProc b)
     (needGet b) (getting b) (_defExZ b) (extent b) (img_fx_unshadow b)
     (img_fx_unstroke b) (img_ch_offset b) (img_alpha_threshold b)
     (img_unshd_threshold b) (img_width b) (img_height b).
Definition with_needProc (p : bool) (b : t) : t :=
  mk (layerId b) (x b) (y b) (z b) (data b) (isReady b) (tempData b) p
     (needGet b) (getting b) (_defExZ b) (extent b) (img_fx_unshadow b)
     (img_fx_unstroke b) (img_ch_offset b) (img_alpha_threshold b)
     (img_unshd_threshold b) (img_width b) (img_height b).
Definition with_needGet (g : bool) (b : t) : t :=
  mk (layerId b) (x b) (y b) (z b) (data b) (isReady b) (tempData b)
     (needProc b) g (getting b) (_defExZ b) (extent b) (img_fx_unshadow b)
     (img_fx_unstroke b) (img_ch_offset b) (img_alpha_threshold b)
     (img_unshd_threshold b) (img_width b) (img_height b).
Definition with_getting (g : bool) (b : t) : t :=
  mk (layerId b) (x b) (y b) (z b) (data b) (isReady b) (tempData b)
     (needProc b) (needGet b) g (_defExZ b) (extent b) (img_fx_unshadow b)
     (img_fx_unstroke b) (img_ch_offset b) (img_alpha_threshold b)
     (img_unshd_threshold b) (img_width b) (img_height b).
Definition with_img_fx (unshadow unstroke : bool) (ch_offset alpha unshd : Z) (b : t) : t :=
  mk (layerId b) (x b) (y b) (z b) (data b) (isReady b) (tempData b)
     (needProc b) (needGet b) (getting b) (_defExZ b) (extent b) unshadow
     unstroke ch_offset alpha unshd (img_width b) (img_height b).
End obj.

(** *** Class (static) functions *)

(** Primary coordinate system reprojection function. *)
Definition c_MercXZtoMercXZ (x z dest_z : Z) : Z :=
  if z <? dest_z then JS.shl x (dest_z - z) else JS.shru x (z - dest_z).

Definition c_GetDefaultExtentZoomLevel : Z := 21.

(** Reprojects the four vertices of an extent vector from z=v[5] to
    z=v[4].  The callers pass vectors of at least seven elements, so the
    reads below are defined. *)
Definition c_vMercXYZtoMercXYZ_u32 (v : list Z) : list Z :=
  let rd k := JS.int (JS.get v k) in
  if rd 5 <? rd 4 then
    let d := rd 4 - rd 5 in
    let v := JS.set_u32 v 0 (Some (JS.shl (JS.int (JS.get v 0)) d)) in
    let v := JS.set_u32 v 1 (Some (JS.shl (JS.int (JS.get v 1)) d)) in
    let v := JS.set_u32 v 2 (Some (JS.shl (JS.int (JS.get v 2)) d)) in
    JS.set_u32 v 3 (Some (JS.shl (JS.int (JS.get v 3)) d))
  else
    let d := rd 5 - rd 4 in
    let v := JS.set_u32 v 0 (Some (JS.shru (JS.int (JS.get v 0)) d)) in
    let v := JS.set_u32 v 1 (Some (JS.shru (JS.int (JS.get v 1)) d)) in
    let v := JS.set_u32 v 2 (Some (JS.shru (JS.int (JS.get v 2)) d)) in
    JS.set_u32 v 3 (Some (JS.shru (JS.int (JS.get v 3)) d)).

(** Fills rectangular coordinates @ dest_z represented by input tile x,y
    @ z.  [v] is the fresh [Uint32Array(6)] of the wrapper below; [w] and
    [h] are [undefined] when a caller leaves them out. *)
Definition c_SetPxExtentVector_u32 (v : list Z) (x y z dest_z : Z) (w h : JS.num) : list Z :=
  let rd (v : list Z) k := JS.int (JS.get v k) in
  let v := JS.set_u32 v 0 (JS.mul (Some x) w) in
  let v := JS.set_u32 v 1 (JS.mul (Some y) h) in
  let v := JS.set_u32 v 4 (Some dest_z) in
  let v := JS.set_u32 v 5 (Some z) in
  let v := JS.set_u32 v 2 w in
  let v := JS.set_u32 v 2 (Some (c_MercXZtoMercXZ (rd v 2) (rd v 5) (rd v 4) - 1)) in
  let v := JS.set_u32 v 3 (JS.get v 2) in
  let v := JS.set_u32 v 0 (Some (c_MercXZtoMercXZ (rd v 0) (rd v 5) (rd v 4))) in
  let v := JS.set_u32 v 1 (Some (c_MercXZtoMercXZ (rd v 1) (rd v 5) (rd v 4))) in
  let v := JS.set_u32 v 2 (JS.add (JS.get v 2) (JS.get v 0)) in
  JS.set_u32 v 3 (JS.add (JS.get v 3) (JS.get v 1)).

Definition c_GetNewPxExtentVector_u32 (x y z dest_z : Z) (w h : JS.num) : list Z :=
  c_SetPxExtentVector_u32 (JS.zeros 6) x y z dest_z w h.

(** Converts the output of [c_GetPixelExtentFromBitstore] to a map extent
    vector, in place. *)
Definition c_vPixelExtentToMercExtent_u32 (v : list Z) (w h : Z) : list Z :=
  if JS.len v <? 7 then v
  else
    let dest_z := c_GetDefaultExtentZoomLevel in
    let v := JS.set_u32 v 0 (JS.add (JS.get v 0) (JS.mul (JS.get v 6) (Some w))) in
    let v := JS.set_u32 v 1 (JS.add (JS.get v 1) (JS.mul (JS.get v 7) (Some h))) in
    let v := JS.set_u32 v 2 (JS.add (JS.get v 2) (JS.mul (JS.get v 6) (Some w))) in
    let v := JS.set_u32 v 3 (JS.add (JS.get v 3) (JS.mul (JS.get v 7) (Some h))) in
    let v := JS.set_u32 v 4 (Some dest_z) in
    c_vMercXYZtoMercXYZ_u32 v.

(** Same as [c_GetBit], but reuses a precalculated index. *)
Definition c_GetBitReusingIdx (src_u16 : list Z) (idx x y : Z) : bool :=
  let xc := x - JS.shl (JS.shru x 2) 2 in
  let yc := JS.shl (y - JS.shl (JS.shru y 2) 2) 2 in
  let bit := JS.shl 1 (yc + xc) in
  negb (JS.band (JS.int (JS.get src_u16 idx)) bit =? 0).

(** Whether the pixel is on or off, for pixel x,y coordinates in a tile. *)
Definition c_GetBit (src_u16 : list Z) (x y w h : Z) : bool :=
  let bit_w := JS.shru w 2 in
  let idx := JS.shru y 2 * bit_w + JS.shru x 2 in
  c_GetBitReusingIdx src_u16 idx x y.

(** The bit test inlined in the scans below:
    [(src_u16[bitIdx] & (1 << (yrem + x - ((x >>> 2) << 2)))) != 0]. *)
Definition bit_test (src_u16 : list Z) (bitIdx yrem x : Z) : bool :=
  negb (JS.band (JS.int (JS.get src_u16 bitIdx))
                (JS.shl 1 (yrem + x - JS.shl (JS.shru x 2) 2)) =? 0).

(** Extent of the set pixels, as [minX, minY, maxX, maxY, z, z, tx, ty]
    in a [Uint32Array(8)]; the whole tile when no bit is set. *)
Definition c_GetPixelExtentFromBitstore (src_u16 : option (list Z)) (tx ty z w h : Z) : list Z :=
  let bit_w := JS.shru w 2 in
  let init := (32767, 32767, -32768, -32768) in
  let scanned :=
    match src_u16 with
    | Some src_u16 =>
        if JS.len src_u16 =? JS.shru w 2 * JS.shru h 2 then
          JS.for_lt 0 h 1 (fun y acc =>
            let yrsw := JS.shru y 2 * bit_w in
            let yrem := JS.shl (y - JS.shl (JS.shru y 2) 2) 2 in
            JS.for_lt 0 w 1 (fun x '(minX, minY, maxX, maxY) =>
              let bitIdx := yrsw + JS.shru x 2 in
              if bit_test src_u16 bitIdx yrem x then
                let maxY := if maxY <? y then y else maxY in
                let minY := if y <? minY then y else minY in
                let maxX := if maxX <? x then x else maxX in
                let minX := if x <? minX then x else minX in
                (minX, minY, maxX, maxY)
              else (minX, minY, maxX, maxY)) acc) init
        else init
    | None => init
    end in
  let '(minX, minY, maxX, maxY) := scanned in
  let '(minX, minY, maxX, maxY) :=
    if (minX =? 32767) && (minY =? 32767) && (maxX =? -32768) && (maxY =? -32768)
    then (0, 0, w, h) else (minX, minY, maxX, maxY) in
  let results := JS.zeros 8 in
  let results := JS.set_u32 results 0 (Some minX) in
  let results := JS.set_u32 results 1 (Some minY) in
  let results := JS.set_u32 results 2 (Some maxX) in
  let results := JS.set_u32 results 3 (Some maxY) in
  let results := JS.set_u32 results 4 (Some z) in
  let results := JS.set_u32 results 5 (Some z) in
  let results := JS.set_u32 results 6 (Some tx) in
  JS.set_u32 results 7 (Some ty).

(** Two strings of corresponding index/value pairs of the nonzero words;
    a string is the list of its UTF-16 code units, and
    [String.fromCharCode] keeps the low 16 bits of its argument. *)
Definition c_DecomposeIndexIntoIV (src_u16 : option (list Z)) : option (list Z * list Z) :=
  match src_u16 with
  | None => None
  | Some src_u16 =>
      Some (JS.for_lt 0 (JS.len src_u16) 1 (fun i '(dest_i_str, dest_v_str) =>
              if negb (JS.int (JS.get src_u16 i) =? 0) then
                (dest_i_str ++ [JS.ToUint16 i],
                 dest_v_str ++ [JS.ToUint16 (JS.int (JS.get src_u16 i))])
              else (dest_i_str, dest_v_str)) ([], []))
  end.

(** [for (i = v; i > 0; i >>>= 1) { if (i & 1) dc++; }] with [n] the
    number of iterations left.  After the first [>>>] the value is below
    [2^31], so 33 iterations end the loop for every number. *)
Fixpoint c_GetDataCount_bits (n : nat) (i : JS.num) (dc : Z) : Z :=
  match n with
  | O => dc
  | S n' =>
      if JS.gt i (Some 0) then
        c_GetDataCount_bits n' (Some (JS.shru (JS.int i) 1))
          (if negb (JS.band (JS.int i) 1 =? 0) then dc + 1 else dc)
      else dc
  end.

(** Hamming weight of the index. *)
Definition c_GetDataCount (src_u16 : option (list Z)) (w h : Z) : Z :=
  match src_u16 with
  | Some src_u16 =>
      if JS.len src_u16 =? JS.shru w 2 * JS.shru h 2 then
        let bit_w := JS.shru w 2 in
        let bit_h := JS.shru h 2 in
        JS.for_lt 0 bit_h 1 (fun y dc =>
          let y_width := y * bit_w in
          JS.for_lt 0 bit_w 1 (fun x dc =>
            c_GetDataCount_bits 33 (JS.get src_u16 (y_width + x)) dc) dc) 0
      else 0
  | None => 0
  end.

(** Two vectors of corresponding x and y pixel locations for the bits
    set to on, or two nulls when the length check fails.  With a null
    [src_u16] the error branch reads [src_u16.length] and throws. *)
Definition c_DecomposeIndexIntoXY (src_u16 : option (list Z)) (w h : Z) : JS.result (option (list Z) * option (list Z)) :=
  match src_u16 with
  | None => JS.Throw JS.TypeError
  | Some src_u16 =>
      if JS.len src_u16 =? JS.shru w 2 * JS.shru h 2 then
        let dc := c_GetDataCount (Some src_u16) w h in
        let dest_x_u32 := JS.zeros dc in
        let dest_y_u32 := JS.zeros dc in
        let bit_w := JS.shru w 2 in
        let '(dest_x_u32, dest_y_u32, _) :=
          JS.for_lt 0 h 1 (fun y st =>
            let yrsw := JS.shru y 2 * bit_w in
            let yrem := JS.shl (y - JS.shl (JS.shru y 2) 2) 2 in
            JS.for_lt 0 w 1 (fun x '(dest_x_u32, dest_y_u32, dest_i) =>
              let bitIdx := yrsw + JS.shru x 2 in
              if bit_test src_u16 bitIdx yrem x then
                (JS.set_u32 dest_x_u32 dest_i (Some x),
                 JS.set_u32 dest_y_u32 dest_i (Some y),
                 dest_i + 1)
              else (dest_x_u32, dest_y_u32, dest_i)) st)
            (dest_x_u32, dest_y_u32, 0) in
        JS.Normal (Some dest_x_u32, Some dest_y_u32)
      else JS.Normal (None, None)
  end.

(** A planar 8-bit raster of [w * h] bytes: [data_u08] where the bit is
    set, [NODATA_u08] elsewhere; [null] for a null index. *)
Definition c_GetNewPlanar8FromBitmap (src_u16 : option (list Z)) (data_u08 NODATA_u08 w h : Z) : option (list Z) :=
  match src_u16 with
  | None => None
  | Some src_u16 =>
      let dest_u08 := JS.zeros (w * h) in
      let dest_u08 :=
        if negb (NODATA_u08 =? 0) then
          JS.for_lt 0 (JS.len dest_u08) 1 (fun i dest_u08 =>
            JS.set_u8 dest_u08 i (Some NODATA_u08)) dest_u08
        else dest_u08 in
      let bit_w := JS.shru w 2 in
      Some (JS.for_lt 0 h 1 (fun y dest_u08 =>
              let yrsw := JS.shru y 2 * bit_w in
              let yrem := JS.shl (y - JS.shl (JS.shru y 2) 2) 2 in
              JS.for_lt 0 w 1 (fun x dest_u08 =>
                let bitIdx := yrsw + JS.shru x 2 in
                if bit_test src_u16 bitIdx yrem x
                then JS.set_u8 dest_u08 (y * w + x) (Some data_u08)
                else dest_u08) dest_u08) dest_u08)
  end.

(** Most likely RGB indices for alpha index ch_offset. *)
Definition GetRGBAOffsetsForAlphaOffset (ch_offset : Z) : list Z :=
  if ch_offset =? 0 then [1; 2; 3; 0]
  else if ch_offset =? 1 then [2; 3; 0; 1]
  else if ch_offset =? 2 then [3; 0; 1; 2]
  else [0; 1; 2; 3].

(** Sets the ch_offset (alpha) value to 0 when R, G and B are all at most
    unshd_threshold; works in place on [src]. *)
Definition RecoverShadowAlphaInRGBA8888Tile (src : list Z) (ch_offset alpha_threshold unshd_threshold w h : Z) : list Z :=
  let rgbac := GetRGBAOffsetsForAlphaOffset ch_offset in
  let ac := ch_offset in
  let rc := JS.get rgbac 0 in
  let gc := JS.get rgbac 1 in
  let bc := JS.get rgbac 2 in
  let alpha_threshold := alpha_threshold - 1 in
  let bpr := w * 4 in
  JS.for_lt 0 h 1 (fun y src =>
    let y_width := y * bpr in
    JS.for_lt 0 bpr 4 (fun x src =>
      let y_width_x := y_width + x in
      if JS.gt (JS.get src (y_width_x + ac)) (Some alpha_threshold)
         && JS.le (JS.get_num src (JS.add (Some y_width_x) rc)) (Some unshd_threshold)
         && JS.le (JS.get_num src (JS.add (Some y_width_x) gc)) (Some unshd_threshold)
         && JS.le (JS.get_num src (JS.add (Some y_width_x) bc)) (Some unshd_threshold)
      then JS.set_u8 src (y_width_x + ac) (Some 0)
      else src) src) src.

(** Partially recovers the alpha channel from a 2x2 NODATA fill, in the x
    direction.  The source declares [y_width_x] and never assigns it, so
    every index computed from it is [NaN]. *)
Definition RecoverXStrokeInRGBA8888Tile (dest src : list Z) (ch_offset alpha_threshold w h : Z) : list Z :=
  let ac := ch_offset in
  let alpha_threshold := alpha_threshold - 1 in
  let y_width_x : JS.num := None in
  let bpr := w * 4 in
  JS.for_lt 0 h 1 (fun y dest =>
    let y_width := y * bpr in
    JS.for_lt 4 (bpr - 4) 4 (fun x dest =>
      if JS.gt (JS.get_num src (JS.add y_width_x (Some ac))) (Some alpha_threshold)
         && JS.gt (JS.get_num src (JS.add (JS.sub y_width_x (Some 4)) (Some ac))) (Some alpha_threshold)
         && JS.le (JS.get_num src (JS.add (JS.add y_width_x (Some 4)) (Some ac))) (Some alpha_threshold)
      then JS.put_num JS.ToUint8 dest (JS.add y_width_x (Some ac)) (Some 0)
      else dest) dest) dest.

(** The same in the y direction. *)
Definition RecoverYStrokeInRGBA8888Tile (dest src : list Z) (ch_offset alpha_threshold w h : Z) : list Z :=
  let ac := ch_offset in
  let alpha_threshold := alpha_threshold - 1 in
  let bpr := w * 4 in
  JS.for_lt 1 (h - 1) 1 (fun y dest =>
    JS.for_lt 0 bpr 4 (fun x dest =>
      if JS.gt (JS.get src (y * bpr + x + ac)) (Some alpha_threshold)
         && JS.gt (JS.get src ((y - 1) * bpr + x + ac)) (Some alpha_threshold)
         && JS.le (JS.get src ((y + 1) * bpr + x + ac)) (Some alpha_threshold)
      then JS.set_u8 dest (y * bpr + x + ac) (Some 0)
      else dest) dest) dest.

(** The same along the diagonal. *)
Definition RecoverDStrokeInRGBA8888Tile (dest src : list Z) (ch_offset alpha_threshold w h : Z) : list Z :=
  let ac := ch_offset in
  let alpha_threshold := alpha_threshold - 1 in
  let bpr := w * 4 in
  JS.for_lt 1 (h - 1) 1 (fun y dest =>
    JS.for_lt 4 (bpr - 4) 4 (fun x dest =>
      if JS.gt (JS.get src (y * bpr + x + ac)) (Some alpha_threshold)
         && JS.gt (JS.get src ((y - 1) * bpr + x - 4 + ac)) (Some alpha_threshold)
         && JS.le (JS.get src ((y + 1) * bpr + x + 4 + ac)) (Some alpha_threshold)
      then JS.set_u8 dest (y * bpr + x + ac) (Some 0)
      else dest) dest) dest.

(** The uint16_t value of one cell, synthesized from the 4x4 pixels at
    byte column [x], row [y] of the tile; [undefined] when the length
    check fails.  It is called with a non-null raster. *)
Definition GetBitmapCellFromPlanarTile_u16 (src : list Z) (x y offset stride threshold w h bytes_per_row : Z) : JS.num :=
  if JS.len src =? bytes_per_row * h then
    let threshold := threshold - 1 in
    let '(cellValue, _) :=
      JS.for_lt y (y + 4) 1 (fun bitY st =>
        let bitY_width := bitY * w * stride in
        JS.for_lt x (x + 4 * stride) stride (fun bitX '(cellValue, idxCount) =>
          ((if JS.gt (JS.get src (bitY_width + bitX + offset)) (Some threshold)
            then JS.bor cellValue (JS.shl 1 idxCount)
            else cellValue),
           idxCount + 1)) st) (0, 0) in
    Some cellValue
  else None.

(** The three stroke passes: [backup] is a copy of the raster taken
    before the first pass, and each pass reads [backup] and writes [src]. *)
Definition unstroke_passes (src : list Z) (ch_offset alpha_threshold w h : Z) : list Z :=
  let backup := map JS.ToUint8 src in
  let src := RecoverDStrokeInRGBA8888Tile src backup ch_offset alpha_threshold w h in
  let src := RecoverXStrokeInRGBA8888Tile src backup ch_offset alpha_threshold w h in
  RecoverYStrokeInRGBA8888Tile src backup ch_offset alpha_threshold w h.

(** A bitmap index newly synthesized from a RGBA8888 tile, or [null].
    With a null [src] the error branch reads [src.length] and throws. *)
Definition GetBitmapFromRGBA8888Tile (src : option (list Z)) (unshadow unstroke : bool) (ch_offset alpha_threshold unshd_threshold w h : Z) : JS.result (option (list Z)) :=
  match src with
  | None => JS.Throw JS.TypeError
  | Some src =>
      if JS.len src =? JS.shl (w * h) 2 then
        let bit_w := JS.shru w 2 in
        let bit_h := JS.shru h 2 in
        let dest := JS.zeros (bit_w * bit_h) in
        let src :=
          if unshadow
          then RecoverShadowAlphaInRGBA8888Tile src ch_offset alpha_threshold unshd_threshold w h
          else src in
        let src :=
          if unstroke then unstroke_passes src ch_offset alpha_threshold w h else src in
        let bpr := w * 4 in
        let '(dest, _) :=
          JS.for_lt 0 h 4 (fun y '(dest, bsY_bW) =>
            let '(dest, _) :=
              JS.for_lt 0 bpr 16 (fun x '(dest, bsX) =>
                (JS.set_u16 dest (bsY_bW + bsX)
                   (GetBitmapCellFromPlanarTile_u16 src x y ch_offset 4 alpha_threshold w h bpr),
                 bsX + 1)) (dest, 0) in
            (dest, bsY_bW + bit_w)) (dest, 0) in
        JS.Normal (Some dest)
      else JS.Normal None
  end.

(** *** Instance methods *)

(** The constructor, with [UpdateExtent] run on the fresh instance. *)
Definition new (layerId x y z w h : Z) (data : option (list Z)) (isReady : bool) : obj.t :=
  let _defExZ := c_GetDefaultExtentZoomLevel in
  let extent := c_GetNewPxExtentVector_u32 x y z _defExZ (Some w) (Some h) in
  let extent := JS.set_u32 extent 2 (JS.add (JS.get extent 2) (Some 1)) in
  let extent := JS.set_u32 extent 3 (JS.add (JS.get extent 3) (Some 1)) in
  obj.mk layerId x y z data (JS.notnull data || isReady) None false
         false false _defExZ extent false false 3 1 1 w h.

(** Extent check.  Does not check layerId. *)
Definition CanIndexTile (this : obj.t) (x y z : Z) (extent_u32 : option (list Z)) : bool :=
  let extent_u32 :=
    match extent_u32 with
    | None => c_GetNewPxExtentVector_u32 x y z (obj._defExZ this) None None
    | Some e => e
    end in
  negb (JS.lt (JS.get extent_u32 2) (JS.get (obj.extent this) 0)
        || JS.ge (JS.get extent_u32 0) (JS.get (obj.extent this) 2)
        || JS.lt (JS.get extent_u32 3) (JS.get (obj.extent this) 1)
        || JS.ge (JS.get extent_u32 1) (JS.get (obj.extent this) 3)).

(** Bitmap index scan over the pixels of the index covered by the tile.
    [retVal] doubles as the break flag of both loops.  With [data] null,
    the first bit test throws. *)
Definition DoesTileIntersectData (this : obj.t) (x y z : Z) : JS.result bool :=
  let w := obj.img_width this in
  let h := obj.img_height this in
  let px0 := c_MercXZtoMercXZ (x * w) z (obj.z this) - obj.x this * w in
  let py0 := c_MercXZtoMercXZ (y * h) z (obj.z this) - obj.y this * h in
  let px1 := c_MercXZtoMercXZ (x * w + w - 1) z (obj.z this) - obj.x this * w in
  let py1 := c_MercXZtoMercXZ (y * h + h - 1) z (obj.z this) - obj.y this * h in
  let bit_w := JS.shru w 2 in
  match obj.data this with
  | None =>
      if (py0 <=? py1) && (px0 <=? px1) then JS.Throw JS.TypeError
      else JS.Normal false
  | Some data =>
      JS.Normal
        (JS.for_lt py0 (py1 + 1) 1 (fun bitY (retVal : bool) =>
           if retVal then true
           else
             let yrsw := JS.shru bitY 2 * bit_w in
             let yrem := JS.shl (bitY - JS.shl (JS.shru bitY 2) 2) 2 in
             JS.for_lt px0 (px1 + 1) 1 (fun bitX (retVal : bool) =>
               if retVal then true
               else bit_test data (yrsw + JS.shru bitX 2) yrem bitX) false) false)
  end.

Definition SetBitmapFromRGBA8888Tile (this : obj.t) (src : option (list Z)) (unshadow unstroke : bool) (ch_offset alpha_threshold unshd_threshold : Z) : JS.result obj.t :=
  do d <- GetBitmapFromRGBA8888Tile src unshadow unstroke ch_offset alpha_threshold
            unshd_threshold (obj.img_width this) (obj.img_height this);
  JS.Normal (obj.with_data d this).

Definition SetBitmapFromCachedRGBA8888 (this : obj.t) : JS.result obj.t :=
  match obj.tempData this with
  | Some _ =>
      SetBitmapFromRGBA8888Tile this (obj.tempData this) (obj.img_fx_unshadow this)
        (obj.img_fx_unstroke this) (obj.img_ch_offset this)
        (obj.img_alpha_threshold this) (obj.img_unshd_threshold this)
  | None => JS.Normal this
  end.

Definition FinishLazyLoad (this : obj.t) : JS.result obj.t :=
  if obj.needProc this then
    let this := obj.with_needProc false this in
    do this <- SetBitmapFromCachedRGBA8888 this;
    JS.Normal (obj.with_tempData None this)
  else JS.Normal this.

(** Main entry point for use as an index: true if indeterminate or if the
    index confirms this tile should be loaded, false only if the load can
    be ruled out. *)
Definition ShouldLoadTile (this : obj.t) (layerId x y z : Z) (extent_u32 : option (list Z)) : JS.result (bool * obj.t) :=
  if obj.isReady this
     && negb (obj.needGet this)
     && (obj.layerId this =? layerId)
     && (obj.z this <=? z)
     && CanIndexTile this x y z extent_u32
  then
    do this <- (if obj.needProc this then FinishLazyLoad this else JS.Normal this);
    do shouldLoad <- DoesTileIntersectData this x y z;
    JS.Normal (shouldLoad, this)
  else JS.Normal (true, this).

Definition GetBit (this : obj.t) (x y : Z) : JS.result bool :=
  match obj.data this with
  | Some d => JS.Normal (c_GetBit d x y (obj.img_width this) (obj.img_height this))
  | None => JS.Throw JS.TypeError
  end.

Definition DecomposeIndexIntoIV (this : obj.t) : option (list Z * list Z) :=
  c_DecomposeIndexIntoIV (obj.data this).

Definition GetDataCount (this : obj.t) : Z :=
  c_GetDataCount (obj.data this) (obj.img_width this) (obj.img_height this).

Definition GetPixelExtentFromBitstore (this : obj.t) : list Z :=
  c_GetPixelExtentFromBitstore (obj.data this) (obj.x this) (obj.y this) (obj.z this)
    (obj.img_width this) (obj.img_height this).

End BITS.

(** ** LBITS: the layer bitstore *)

Module LBITS.

(** The instance fields read or written by the methods below.
    [bitstores] is the array of members, [extent] a [Uint32Array(16)] or
    [null], [localStorage] the browser's store as this layer sees it, with
    a key standing for the string built by [GetStorageKey]. *)
Module obj.
Record t := mk {
  layerId : Z;
  minZ : Z;
  maxZ : Z;
  bitstores : list BITS.obj.t;
  extent : option (list Z);
  lastModifiedUnix : Z;
  isReady : bool;
  _didLazyLoad : bool;
  _wantedForceLoad : bool;
  _defExZ : Z;
  net_cache_enable : bool;
  idx_lazyload_detail : bool;
  idx_lazyload_dim : bool;
  img_fx_unshadow : bool;
  img_fx_unstroke : bool;
  img_ch_offset : Z;
  img_alpha_threshold : Z;
  img_unshd_threshold : Z;
  img_width : Z;
  img_height : Z;
  localStorage : gmap (Z * Z * Z * Z * Z) (list Z) }.

Definition with_bitstores (l : list BITS.obj.t) (s : t) : t :=
  mk (layerId s) (minZ s) (maxZ s) l (extent s) (lastModifiedUnix s) (isReady s)
     (_didLazyLoad s) (_wantedForceLoad s) (_defExZ s) (net_cache_enable s)
     (idx_lazyload_detail s) (idx_lazyload_dim s) (img_fx_unshadow s)
     (img_fx_unstroke s) (img_ch_offset s) (img_alpha_threshold s)
     (img_unshd_threshold s) (img_width s) (img_height s) (localStorage s).
Definition with_extent (e : option (list Z)) (s : t) : t :=
  mk (layerId s) (minZ s) (maxZ s) (bitstores s) e (lastModifiedUnix s) (isReady s)
     (_didLazyLoad s) (_wantedForceLoad s) (_defExZ s) (net_cache_enable s)
     (idx_lazyload_detail s) (idx_lazyload_dim s) (img_fx_unshadow s)
     (img_fx_unstroke s) (img_ch_offset s) (img_alpha_threshold s)
     (img_unshd_threshold s) (img_width s) (img_height s) (localStorage s).
Definition with_isReady (r : bool) (s : t) : t :=
  mk (layerId s) (minZ s) (maxZ s) (bitstores s) (extent s) (lastModifiedUnix s) r
     (_didLazyLoad s) (_wantedForceLoad s) (_defExZ s) (net_cache_enable s)
     (idx_lazyload_detail s) (idx_lazyload_dim s) (img_fx_unshadow s)
     (img_fx_unstroke s) (img_ch_offset s) (img_alpha_threshold s)
     (img_unshd_threshold s) (img_width s) (img_height s) (localStorage s).
Definition with_didLazyLoad (d : bool) (s : t) : t :=
  mk (layerId s) (minZ s) (maxZ s) (bitstores s) (extent s) (lastModifiedUnix s)
     (isReady s) d (_wantedForceLoad s) (_defExZ s) (net_cache_enable s)
     (idx_lazyload_detail s) (idx_lazyload_dim s) (img_fx_unshadow s)
     (img_fx_unstroke s) (img_ch_offset s) (img_alpha_threshold s)
     (img_unshd_threshold s) (img_width s) (img_height s) (localStorage s).
Definition with_wantedForceLoad (f : bool) (s : t) : t :=
  mk (layerId s) (minZ s) (maxZ s) (bitstores s) (extent s) (lastModifiedUnix s)
     (isReady s) (_didLazyLoad s) f (_defExZ s) (net_cache_enable s)
     (idx_lazyload_detail s) (idx_lazyload_dim s) (img_fx_unshadow s)
     (img_fx_unstroke s) (img_ch_offset s) (img_alpha_threshold s)
     (img_unshd_threshold s) (img_width s) (img_height s) (localStorage s).
Definition with_img_size (w h : Z) (s : t) : t :=
  mk (layerId s) (minZ s) (maxZ s) (bitstores s) (extent s) (lastModifiedUnix s)
     (isReady s) (_didLazyLoad s) (_wantedForceLoad s) (_defExZ s)
     (net_cache_enable s) (idx_lazyload_detail s) (idx_lazyload_dim s)
     (img_fx_unshadow s) (img_fx_unstroke s) (img_ch_offset s)
     (img_alpha_threshold s) (img_unshd_threshold s) w h (localStorage s).
Definition with_localStorage (m : gmap (Z * Z * Z * Z * Z) (list Z)) (s : t) : t :=
  mk (layerId s) (minZ s) (maxZ s) (bitstores s) (extent s) (lastModifiedUnix s)
     (isReady s) (_didLazyLoad s) (_wantedForceLoad s) (_defExZ s)
     (net_cache_enable s) (idx_lazyload_detail s) (idx_lazyload_dim s)
     (img_fx_unshadow s) (img_fx_unstroke s) (img_ch_offset s)
     (img_alpha_threshold s) (img_unshd_threshold s) (img_width s)
     (img_height s) m.
End obj.

(** An image handed to the canvas: its size and its RGBA rendering. *)
Record Image := { width : Z; height : Z; rgba : list Z }.

(** *** Class (static) methods *)

(** Sets elements in dest based upon indices into dest in srci and
    corresponding values in srcv: a main loop over groups of four and a
    remainder loop. *)
Definition ivtovec_u16 (dest_u16 srci_u16 srcv_u16 : list Z) : list Z :=
  let src_n := JS.shru (JS.len srci_u16) 0 in
  let max_i := src_n - src_n `rem` 4 in
  let dest_u16 :=
    JS.for_lt 0 max_i 4 (fun i dest_u16 =>
      let dest_u16 := JS.put_num JS.ToUint16 dest_u16 (JS.get srci_u16 i) (JS.get srcv_u16 i) in
      let dest_u16 := JS.put_num JS.ToUint16 dest_u16 (JS.get srci_u16 (i + 1)) (JS.get srcv_u16 (i + 1)) in
      let dest_u16 := JS.put_num JS.ToUint16 dest_u16 (JS.get srci_u16 (i + 2)) (JS.get srcv_u16 (i + 2)) in
      JS.put_num JS.ToUint16 dest_u16 (JS.get srci_u16 (i + 3)) (JS.get srcv_u16 (i + 3)))
      dest_u16 in
  JS.for_lt max_i (max_i + src_n `rem` 4) 1 (fun i dest_u16 =>
    JS.put_num JS.ToUint16 dest_u16 (JS.get srci_u16 i) (JS.get srcv_u16 i)) dest_u16.

(** The plain sequential scatter [dest[srci[i]] = srcv[i]] for
    [i = 0, 1, ..., n-1], the loop that [ivtovec_u16] unrolls. *)
Definition ivtovec_u16_sequential (dest_u16 srci_u16 srcv_u16 : list Z) : list Z :=
  let src_n := JS.shru (JS.len srci_u16) 0 in
  JS.for_lt 0 src_n 1 (fun i dest_u16 =>
    JS.put_num JS.ToUint16 dest_u16 (JS.get srci_u16 i) (JS.get srcv_u16 i)) dest_u16.

(** New wrapper for ivtovec_u16. *)
Definition new_ivtovec_u16 (srci_u16 srcv_u16 : list Z) (n : Z) : list Z :=
  ivtovec_u16 (JS.zeros n) srci_u16 srcv_u16.

(** Stored binary UTF-16 string to bitmap index: the first half of the
    string holds the indices, the second half the values. *)
Definition DecodeBitmapIndexFromBinaryString (src_iv_str : list Z) (w h : Z) : list Z :=
  let n := JS.shru (JS.len src_iv_str) 1 in
  let dest_n := JS.shru w 2 * JS.shru h 2 in
  let i_u16 := JS.zeros n in
  let v_u16 := JS.zeros n in
  let i_u16 := JS.for_lt 0 n 1 (fun i i_u16 => JS.set_u16 i_u16 i (JS.get src_iv_str i)) i_u16 in
  let v_u16 :=
    JS.for_lt n (JS.len src_iv_str) 1 (fun i v_u16 =>
      JS.set_u16 v_u16 (i - n) (JS.get src_iv_str i)) v_u16 in
  new_ivtovec_u16 i_u16 v_u16 dest_n.

Definition StorageStreamDescriptorCreate (w h : Z) : list Z :=
  [66; 83; 86; 51; JS.ToUint16 w; JS.ToUint16 h; 0; 0].

(** The four code units of the string BSV3. *)
Definition BSV3 : list Z := [66; 83; 86; 51].

(** [src.length >= 10 && src.substring(0, 4) == BSV3] *)
Definition has_descriptor (src : list Z) : bool :=
  (10 <=? JS.len src) && bool_decide (take 4 src = BSV3).

Definition StorageStreamDescriptorRemove (src : option (list Z)) : option (list Z) :=
  match src with
  | Some s => if has_descriptor s then Some (drop 8 s) else Some s
  | None => None
  end.

(** Whether a stored string is for tiles of [w] x [h]; a string without
    the descriptor is taken as the older headerless format, 256x256 only. *)
Definition StorageStreamDescriptorVerify (src : option (list Z)) (w h : Z) : bool :=
  match src with
  | None => false
  | Some s =>
      if JS.len s =? 0 then false
      else if has_descriptor s then
        let hdr_w := JS.get s 4 in
        let hdr_h := JS.get s 5 in
        JS.eq_num (Some w) hdr_w && JS.eq_num (Some h) hdr_h
      else if negb (w =? 256) || negb (h =? 256) then false
      else true
  end.

Definition StorageStreamDescriptorGetIfVerified (src : option (list Z)) (w h : Z) : option (list Z) :=
  if StorageStreamDescriptorVerify src w h then StorageStreamDescriptorRemove src else None.

Definition StorageStreamDescriptorGetAndDecodeIfVerified (src : option (list Z)) (w h : Z) : option (list Z) :=
  let dest :=
    if StorageStreamDescriptorVerify src w h then StorageStreamDescriptorRemove src else None in
  match dest with
  | None => None
  | Some dest => Some (DecodeBitmapIndexFromBinaryString dest w h)
  end.

Definition GetWorldSizeTiles (z : Z) : Z := JS.shl 1 z.

Definition GetWorldSizePixels (z tile_px : Z) : Z := tile_px * GetWorldSizeTiles z.

(** [for (z = 21; z >= 0; z--) if (...) { max_single_index_z = z; break; }]
    with [n] the number of iterations left. *)
Fixpoint GetMaxZoomLevelSingleIndexForTilePx_loop (n : nat) (z tile_px max_single_index_z : Z) : Z :=
  match n with
  | O => max_single_index_z
  | S n' =>
      if 0 <=? z then
        if GetWorldSizeTiles z <=? tile_px then z
        else GetMaxZoomLevelSingleIndexForTilePx_loop n' (z - 1) tile_px max_single_index_z
      else max_single_index_z
  end.

Definition GetMaxZoomLevelSingleIndexForTilePx (tile_px : Z) : Z :=
  GetMaxZoomLevelSingleIndexForTilePx_loop 22 21 tile_px 0.

Definition GetMaxZoomLevelSingleIndexForTileWidthHeightPx (tile_w tile_h : Z) : Z :=
  Z.min (GetMaxZoomLevelSingleIndexForTilePx tile_w)
        (GetMaxZoomLevelSingleIndexForTilePx tile_h).

(** *** Instance methods *)

(** The position in [bitstores] of the first member with the given
    coordinates (-1 matches any x or y), or [null]. *)
Fixpoint FindBitstoreWithXYZ_from (l : list BITS.obj.t) (i : nat) (x y z : Z) : option nat :=
  match l with
  | [] => None
  | bs :: l' =>
      if ((x =? -1) || (BITS.obj.x bs =? x))
         && ((y =? -1) || (BITS.obj.y bs =? y))
         && (BITS.obj.z bs =? z)
      then Some i
      else FindBitstoreWithXYZ_from l' (S i) x y z
  end.

Definition FindBitstoreWithXYZ (this : obj.t) (x y z : Z) : option nat :=
  FindBitstoreWithXYZ_from (obj.bitstores this) 0 x y z.

Definition IsTileInExtent (this : obj.t) (x y z : Z) (extent_u32 : option (list Z)) : bool :=
  match obj.extent this with
  | None => true
  | Some extent =>
      let extent_u32 :=
        match extent_u32 with
        | None =>
            BITS.c_GetNewPxExtentVector_u32 x y z (obj._defExZ this)
              (Some (obj.img_width this)) (Some (obj.img_height this))
        | Some e => e
        end in
      negb (JS.lt (JS.get extent_u32 2) (JS.get extent 0)
            || JS.gt (JS.get extent_u32 0) (JS.get extent 2)
            || JS.lt (JS.get extent_u32 3) (JS.get extent 1)
            || JS.gt (JS.get extent_u32 1) (JS.get extent 3))
  end.

(** One line pair of [UpdateLayerExtentFromBitstorePixelExtent] for a
    minimum edge [k] whose zoom is recorded at [zk]:
    [if (px[5] >= e[zk]) { if (px[a] < e[k]) { e[k] = px[a]; e[zk] = px[5]; }
                           if (px[b] < e[k]) { e[k] = px[b]; e[zk] = px[5]; } }] *)
Definition lower_edge (e px : list Z) (k zk a b : Z) : list Z :=
  if JS.ge (JS.get px 5) (JS.get e zk) then
    let e := if JS.lt (JS.get px a) (JS.get e k)
             then JS.set_u32 (JS.set_u32 e k (JS.get px a)) zk (JS.get px 5) else e in
    if JS.lt (JS.get px b) (JS.get e k)
    then JS.set_u32 (JS.set_u32 e k (JS.get px b)) zk (JS.get px 5) else e
  else e.

(** The same for a maximum edge, with [>] for [<]. *)
Definition raise_edge (e px : list Z) (k zk a b : Z) : list Z :=
  if JS.ge (JS.get px 5) (JS.get e zk) then
    let e := if JS.gt (JS.get px a) (JS.get e k)
             then JS.set_u32 (JS.set_u32 e k (JS.get px a)) zk (JS.get px 5) else e in
    if JS.gt (JS.get px b) (JS.get e k)
    then JS.set_u32 (JS.set_u32 e k (JS.get px b)) zk (JS.get px 5) else e
  else e.

(** The four line pairs of [UpdateLayerExtentFromBitstorePixelExtent] on
    the extent array [e], with [px] already converted to a map extent. *)
Definition merge_pixel_extent (e px : list Z) : list Z :=
  let e := lower_edge e px 0 12 0 2 in
  let e := lower_edge e px 1 13 1 3 in
  let e := raise_edge e px 2 14 2 0 in
  raise_edge e px 3 15 3 1.

(** Either get the initial layer extent approximation from the master
    tile, or refine it with data from additional indices. *)
Definition UpdateLayerExtentFromBitstorePixelExtent (this : obj.t) (px : list Z) : obj.t :=
  let extent :=
    match obj.extent this with
    | None =>
        let extent := JS.zeros 16 in
        let extent := JS.set_u32 extent 0 (Some 4294967295) in
        JS.set_u32 extent 1 (Some 4294967295)
    | Some extent => extent
    end in
  let px := BITS.c_vPixelExtentToMercExtent_u32 px (obj.img_width this) (obj.img_height this) in
  obj.with_extent (Some (merge_pixel_extent extent px)) this.

Definition GetStorageKey (this : obj.t) (x y z : Z) : Z * Z * Z * Z * Z :=
  (obj.lastModifiedUnix this, obj.layerId this, z, x, y).

Definition StorageSet (this : obj.t) (key_iv : Z * Z * Z * Z * Z) (value_i value_v : list Z) : obj.t :=
  if negb (obj.net_cache_enable this) then this
  else
    obj.with_localStorage
      (<[key_iv :=
           StorageStreamDescriptorCreate (obj.img_width this) (obj.img_height this)
             ++ value_i ++ value_v]> (obj.localStorage this)) this.

Definition StorageGet (this : obj.t) (key_iv : Z * Z * Z * Z * Z) : option (list Z) :=
  let item := if negb (obj.net_cache_enable this) then None
              else obj.localStorage this !! key_iv in
  StorageStreamDescriptorGetAndDecodeIfVerified item (obj.img_width this) (obj.img_height this).

Definition AddBitstoreToLocalCache (this : obj.t) (bs : BITS.obj.t) : obj.t :=
  if obj.net_cache_enable this then
    match BITS.DecomposeIndexIntoIV bs with
    | Some (ivs0, ivs1) =>
        StorageSet this (GetStorageKey this (BITS.obj.x bs) (BITS.obj.y bs) (BITS.obj.z bs))
          ivs0 ivs1
    | None => this
    end
  else this.

Definition AddBitstoreHusk (this : obj.t) (x y z : Z) : obj.t :=
  let bs := BITS.new (obj.layerId this) x y z (obj.img_width this) (obj.img_height this) None false in
  let bs := BITS.obj.with_needGet true bs in
  let bs := BITS.obj.with_getting false bs in
  let bs := BITS.obj.with_img_fx (obj.img_fx_unshadow this) (obj.img_fx_unstroke this)
              (obj.img_ch_offset this) (obj.img_alpha_threshold this)
              (obj.img_unshd_threshold this) bs in
  obj.with_bitstores (obj.bitstores this ++ [bs]) this.

(** The fields as the constructor leaves them when [options] is null and
    [localStorage] works, before the master tile is requested. *)
Definition new (layerId minZ maxZ : Z) : obj.t :=
  obj.mk layerId minZ maxZ [] None 0 false false false
         BITS.c_GetDefaultExtentZoomLevel true true true false false 3 1 1 256 256 ∅.

Section Collaborators.

(** [AddAllDefaultBitstores] selects the supplemental index tiles and
    starts their loading through the cache, the network and the PNG
    decoder.  Those collaborators are outside this development: the
    method is taken as a function of the instance that may throw. *)
Variable AddAllDefaultBitstores : obj.t → JS.result obj.t.

Definition FinishLazyLoadInit (this : obj.t) : JS.result obj.t :=
  if obj.idx_lazyload_detail this
     && negb (obj._didLazyLoad this)
     && (0 <? JS.len (obj.bitstores this))
  then AddAllDefaultBitstores (obj.with_didLazyLoad true this)
  else if JS.len (obj.bitstores this) =? 0 then
    JS.Normal (if obj.idx_lazyload_detail this then obj.with_wantedForceLoad true this else this)
  else JS.Normal this.

(** The member loop of [ShouldLoadTile]: [pre] holds the members already
    visited and [rest] those still to visit.  In the full lazy load mode
    the guard reads [bs[i].getting], and [bs[i]] is undefined. *)
Fixpoint ShouldLoadTile_loop (this : obj.t) (pre rest : list BITS.obj.t) (shouldLoad : bool) (layerId x y z : Z) (extent_u32 : option (list Z)) : JS.result (bool * obj.t) :=
  match rest with
  | [] => JS.Normal (shouldLoad, obj.with_bitstores pre this)
  | bs :: rest' =>
      let full_lazy := obj.idx_lazyload_detail this && negb (obj.idx_lazyload_dim this) in
      do neededProc <-
        (if full_lazy then
           if BITS.obj.needGet bs then JS.Throw JS.TypeError
           else JS.Normal (BITS.obj.needProc bs)
         else JS.Normal false);
      do r <-
        (if shouldLoad then BITS.ShouldLoadTile bs layerId x y z extent_u32
         else JS.Normal (shouldLoad, bs));
      let shouldLoad := r.1 in
      let bs := r.2 in
      do this <-
        (if full_lazy && neededProc && negb (BITS.obj.needProc bs) then
           match BITS.DecomposeIndexIntoIV bs with
           | Some (ivs0, ivs1) =>
               JS.Normal
                 (StorageSet this
                    (GetStorageKey this (BITS.obj.x bs) (BITS.obj.y bs) (BITS.obj.z bs))
                    ivs0 ivs1)
           | None => JS.Throw JS.TypeError
           end
         else JS.Normal this);
      if negb shouldLoad
      then JS.Normal (shouldLoad, obj.with_bitstores (pre ++ bs :: rest') this)
      else ShouldLoadTile_loop this (pre ++ [bs]) rest' shouldLoad layerId x y z extent_u32
  end.

(** The predicate consulted before a tile is requested; it returns the
    answer and the instance as the call leaves it. *)
Definition ShouldLoadTile (this : obj.t) (layerId x y z : Z) (extent_u32 : option (list Z)) : JS.result (bool * obj.t) :=
  if (obj.layerId this =? layerId) && obj.isReady this then
    do this <-
      (if obj.idx_lazyload_detail this && negb (obj._didLazyLoad this)
       then FinishLazyLoadInit this else JS.Normal this);
    let shouldLoad :=
      (obj.minZ this <=? z)
      && (z <=? obj.maxZ this)
      && (0 <=? x)
      && (0 <=? y)
      && (x <? JS.shl 1 z)
      && (y <? JS.shl 1 z)
      && IsTileInExtent this x y z extent_u32 in
    ShouldLoadTile_loop this [] (obj.bitstores this) shouldLoad layerId x y z extent_u32
  else JS.Normal (true, this).

Definition AddBitstoreFromRGBA8888_NoLazyLoad (this : obj.t) (rgba : list Z) (x y z : Z) : JS.result obj.t :=
  let bs := BITS.new (obj.layerId this) x y z (obj.img_width this) (obj.img_height this) None false in
  let bs := BITS.obj.with_isReady true bs in
  do bs <- BITS.SetBitmapFromRGBA8888Tile bs (Some rgba) (obj.img_fx_unshadow this)
             (obj.img_fx_unstroke this) (obj.img_ch_offset this)
             (obj.img_alpha_threshold this) (obj.img_unshd_threshold this);
  let this := obj.with_bitstores (obj.bitstores this ++ [bs]) this in
  let px_extent := BITS.GetPixelExtentFromBitstore bs in
  let this := UpdateLayerExtentFromBitstorePixelExtent this px_extent in
  JS.Normal (AddBitstoreToLocalCache this bs).

Definition AddBitstoreFromRGBA8888_WithLazyLoad (this : obj.t) (rgba : list Z) (x y z : Z) : obj.t :=
  match FindBitstoreWithXYZ this x y z with
  | Some i =>
      match obj.bitstores this !! i with
      | Some bs =>
          if BITS.obj.needGet bs && BITS.obj.getting bs then
            let bs := BITS.obj.with_needGet false bs in
            let bs := BITS.obj.with_getting false bs in
            let bs := BITS.obj.with_isReady true bs in
            let bs := BITS.obj.with_tempData (Some rgba) bs in
            let bs := BITS.obj.with_needProc true bs in
            obj.with_bitstores (<[i := bs]> (obj.bitstores this)) this
          else this
      | None => this
      end
  | None => this
  end.

(** Called after HTTP GET -> PNG -> RGBA8888. *)
Definition AddBitstoreFromRGBA8888 (this : obj.t) (rgba : list Z) (x y z : Z) (shouldAutoload : bool) : JS.result obj.t :=
  do this <-
    (if obj.idx_lazyload_detail this && negb (obj.idx_lazyload_dim this) && (obj.minZ this <? z)
     then JS.Normal (AddBitstoreFromRGBA8888_WithLazyLoad this rgba x y z)
     else AddBitstoreFromRGBA8888_NoLazyLoad this rgba x y z);
  if shouldAutoload then
    do this <-
      (if negb (obj.idx_lazyload_detail this) || obj._wantedForceLoad this then
         let this :=
           if obj._wantedForceLoad this
           then obj.with_wantedForceLoad false (obj.with_didLazyLoad true this)
           else this in
         AddAllDefaultBitstores this
       else JS.Normal this);
    JS.Normal (obj.with_isReady true this)
  else JS.Normal this.

(** The callback of [AddAsync_PNG_URL_libpng], run on the decoded raster. *)
Definition AddAsync_PNG_URL_libpng_cubbyLlama (this : obj.t) (rgba : list Z) (x y z : Z) (shouldAutoload : bool) : JS.result obj.t :=
  let rgba_bytes := JS.len rgba in
  let expected_bytes := obj.img_width this * obj.img_height this * 4 in
  if negb (rgba_bytes =? expected_bytes) then JS.Normal this
  else AddBitstoreFromRGBA8888 this rgba x y z shouldAutoload.

(** The [onload] handler of [AddAsync_PNG_ImgURL_Canvas]: the canvas takes
    the size of the image, and [getImageData] returns its rendering. *)
Definition AddAsync_PNG_ImgURL_Canvas_onload (this : obj.t) (img : Image) (x y z : Z) (shouldAutoload : bool) : JS.result obj.t :=
  let fail := negb (width img =? obj.img_width this) in
  if negb fail then AddBitstoreFromRGBA8888 this (rgba img) x y z shouldAutoload
  else JS.Normal this.

End Collaborators.

End LBITS.

(** ** Functions that describe what the loops compute *)

Module Describe.

(** A left fold that hands the body the index of each element. *)
Fixpoint fold_idx {A St : Type} (g : Z → A → St → St) (off : Z) (l : list A) (s : St) : St :=
  match l with
  | [] => s
  | a :: l' => fold_idx g (off + 1) l' (g off a s)
  end.

(** The nonzero words of a grid with their indices, counted from [off]. *)
Fixpoint nonzero_from (off : Z) (l : list Z) : list (Z * Z) :=
  match l with
  | [] => []
  | v :: l' =>
      if v =? 0 then nonzero_from (off + 1) l'
      else (off, v) :: nonzero_from (off + 1) l'
  end.

(** The bits of one cell in the order [GetBitmapCellFromPlanarTile_u16]
    visits them: rows [y .. y+3], four pixels [stride] bytes apart each. *)
Definition cell_bits (src : list Z) (x y offset stride threshold w : Z) : list bool :=
  flat_map (fun r =>
    map (fun c => JS.gt (JS.get src ((y + r) * w * stride + (x + c * stride) + offset))
                        (Some (threshold - 1)))
        [0; 1; 2; 3])
    [0; 1; 2; 3].

(** Setting one bit after the other, from bit [idxCount] upwards. *)
Fixpoint pack_bits (bits : list bool) (cellValue idxCount : Z) : Z :=
  match bits with
  | [] => cellValue
  | b :: bits' =>
      pack_bits bits'
        (if b then JS.bor cellValue (JS.shl 1 idxCount) else cellValue)
        (idxCount + 1)
  end.

(** The positions of the set bits of a word, among its low 16. *)
Definition set_bits (v : Z) : list Z := filter (fun j => Z.testbit v j) (seqZ 0 16).

(** The pixels of a [w] x [h] tile, row by row, as pairs (x, y). *)
Definition pixels (w h : Z) : list (Z * Z) :=
  y ← seqZ 0 h; (fun x => (x, y)) <$> seqZ 0 w.

(** The 16 pixels of the block of the word in column [X], row [Y] of
    the grid, in the order of their bits. *)
Definition block (X Y : Z) : list (Z * Z) :=
  (fun j => (4 * X + j `mod` 4, 4 * Y + j `div` 4)) <$> seqZ 0 16.

(** The pixels whose bit is set, in the same order. *)
Definition set_pixels (src_u16 : list Z) (w h : Z) : list (Z * Z) :=
  filter (fun p => BITS.c_GetBit src_u16 p.1 p.2 w h = true) (pixels w h).

(** [st] bounds the pixels of [seen] that [hit] marks, each edge being
    reached by one of them; with no such pixel [st] is the value the scan
    of [c_GetPixelExtentFromBitstore] starts from. *)
Definition bounding_box (hit : Z → Z → bool) (seen : Z → Z → Prop) (st : Z * Z * Z * Z) : Prop :=
  let '(minX, minY, maxX, maxY) := st in
  (∀ x y, seen x y → hit x y = true → minX <= x <= maxX ∧ minY <= y <= maxY)
  ∧ ((minX, minY, maxX, maxY) = (32767, 32767, -32768, -32768)
     ∨ ((∃ y, seen minX y ∧ hit minX y = true)
        ∧ (∃ x, seen x minY ∧ hit x minY = true)
        ∧ (∃ y, seen maxX y ∧ hit maxX y = true)
        ∧ (∃ x, seen x maxY ∧ hit x maxY = true))).

(** Storing the values [vs] at the positions [i], [i + 1], ... of a
    [Uint32Array]. *)
Fixpoint store_from (d : list Z) (i : Z) (vs : list Z) : list Z :=
  match vs with
  | [] => d
  | v :: vs' => store_from (JS.set_u32 d i (Some v)) (i + 1) vs'
  end.

(** The pixels of the rectangle of [nx] columns from [x0] and [ny] rows
    from [y0], row by row. *)
Definition rect (x0 nx y0 ny : Z) : list (Z * Z) :=
  y ← seqZ y0 ny; (fun x => (x, y)) <$> seqZ x0 nx.

(** The test of the stroke pass in the y direction on pixel (x, y): the
    pixel and the one above it have data, the one below it has none. *)
Definition is_y_stroke (src : list Z) (w ch_offset alpha_threshold x y : Z) : bool :=
  JS.ge (JS.get src (4 * (y * w + x) + ch_offset)) (Some alpha_threshold)
  && JS.ge (JS.get src (4 * ((y - 1) * w + x) + ch_offset)) (Some alpha_threshold)
  && JS.le (JS.get src (4 * ((y + 1) * w + x) + ch_offset)) (Some (alpha_threshold - 1)).

(** The test of the diagonal pass: the pixel and its upper left neighbour
    have data, its lower right neighbour has none. *)
Definition is_d_stroke (src : list Z) (w ch_offset alpha_threshold x y : Z) : bool :=
  JS.ge (JS.get src (4 * (y * w + x) + ch_offset)) (Some alpha_threshold)
  && JS.ge (JS.get src (4 * ((y - 1) * w + (x - 1)) + ch_offset)) (Some alpha_threshold)
  && JS.le (JS.get src (4 * ((y + 1) * w + (x + 1)) + ch_offset))
       (Some (alpha_threshold - 1)).

(** [d] is [src] with some of its elements set to 0. *)
Definition cleared (src d : list Z) : Prop :=
  length d = length src ∧ ∀ k, JS.get d k = JS.get src k ∨ JS.get d k = Some 0.

(** Whether the shadow pass clears the pixel whose four bytes start at
    [b]: its alpha is at least the threshold and each of its three other
    channels is at most [unshd_threshold]. *)
Definition is_shadow (src : list Z) (b ch_offset alpha_threshold unshd_threshold : Z) : bool :=
  JS.ge (JS.get src (b + ch_offset)) (Some alpha_threshold)
  && JS.le (JS.get src (b + (ch_offset + 1) `mod` 4)) (Some unshd_threshold)
  && JS.le (JS.get src (b + (ch_offset + 2) `mod` 4)) (Some unshd_threshold)
  && JS.le (JS.get src (b + (ch_offset + 3) `mod` 4)) (Some unshd_threshold).

End Describe.

(** ** Sample instances *)

Module Sample.

(** A layer with the default options. *)
Definition layer : LBITS.obj.t := LBITS.new 2 0 16.

(** The pixel extent of a master index at (0,0,0) whose only data pixel
    is (100,100), as [c_GetPixelExtentFromBitstore] returns it. *)
Definition master_px : list Z := [100; 100; 100; 100; 0; 0; 0; 0].

(** The pixel extent of the index at (0,0,1) with data at the pixels
    (200,200) and (201,201): both lie in the master's pixel (100,100). *)
Definition finer_px : list Z := [200; 200; 201; 201; 1; 1; 0; 0].

Definition layer_seeded : LBITS.obj.t :=
  LBITS.UpdateLayerExtentFromBitstorePixelExtent layer master_px.

Definition seeded_extent : list Z :=
  [209715200; 209715200; 209715200; 209715200; 0; 0; 0; 0; 0; 0; 0; 0; 0; 0; 0; 0].

(** A layer of 8x8 tiles; the other options are the defaults. *)
Definition layer8 : LBITS.obj.t := LBITS.obj.with_img_size 8 8 (LBITS.new 2 0 16).

(** The RGBA raster of a [w] x [h] tile, black, with the alpha given by
    [alpha x y]. *)
Definition raster_of (w h : Z) (alpha : Z → Z → Z) : list Z :=
  flat_map (fun i => [0; 0; 0; alpha (i `mod` w) (i `div` w)]) (seqZ 0 (w * h)).

(** The master tile (0,0,0) has data in its pixel (0,0) only; the tile
    (0,0,1) shows that this data lies in its own pixel (1,1). *)
Definition master_raster : list Z :=
  raster_of 8 8 (fun x y => if (x =? 0) && (y =? 0) then 255 else 0).
Definition finer_raster : list Z :=
  raster_of 8 8 (fun x y => if (x =? 1) && (y =? 1) then 255 else 0).

(** A 256x256 raster with alpha 200 at pixel (10,10) and 0 elsewhere. *)
Definition hot_raster : list Z :=
  raster_of 256 256 (fun x y => if (x =? 10) && (y =? 10) then 200 else 0).

(** A 2x2 raster, opaque everywhere. *)
Definition opaque_2x2 : list Z := raster_of 2 2 (fun _ _ => 255).

(** The outcome of a call that returns normally. *)
Definition returned (r : JS.result LBITS.obj.t) : LBITS.obj.t :=
  match r with JS.Normal s => s | JS.Throw _ => layer8 end.

(** The layer after the master raster has arrived, then the finer one;
    no further index tile is selected. *)
Definition layer8_master : LBITS.obj.t :=
  returned (LBITS.AddAsync_PNG_URL_libpng_cubbyLlama JS.Normal layer8 master_raster 0 0 0 true).
Definition layer8_both : LBITS.obj.t :=
  returned (LBITS.AddAsync_PNG_URL_libpng_cubbyLlama JS.Normal layer8_master finer_raster 0 0 1 false).

(** The worked example of the stroke recovery notes, in an 8x4 tile: the
    data pixel (1,1) and its 2x2 fill at (2,1), (1,2) and (2,2). *)
Definition stroke_raster : list Z :=
  raster_of 8 4 (fun x y =>
    if ((x =? 1) || (x =? 2)) && ((y =? 1) || (y =? 2)) then 255 else 0).

(** An image of the right width and half the height of the 8x8 tiles. *)
Definition short_image : LBITS.Image :=
  {| LBITS.width := 8; LBITS.height := 4; LBITS.rgba := raster_of 8 4 (fun _ _ => 255) |}.

(** An 8x8 index with data in its pixel (0,0) only, as the master (0,0,0). *)
Definition master8 : BITS.obj.t := BITS.new 2 0 0 0 8 8 (Some [1; 0; 0; 0]) true.

(** A ready layer of 8x8 tiles in the full lazy load mode, holding its
    master. *)
Definition layer_full_lazy : LBITS.obj.t :=
  LBITS.obj.mk 2 0 16 [master8] None 0 true true false BITS.c_GetDefaultExtentZoomLevel
    true true false false false 3 1 1 8 8 ∅.

End Sample.

(** ** Facts about the primitives *)

Lemma ToUint32_ToInt32 n : JS.ToUint32 (JS.ToInt32 n) = JS.ToUint32 n.
Proof.
  unfold JS.ToUint32, JS.ToInt32.
  rewrite Zminus_mod_idemp_l.
  replace (n + 2 ^ 31 - 2 ^ 31) with n by lia. reflexivity.
Qed.

Lemma ToUint32_small n : 0 <= n < 2 ^ 32 → JS.ToUint32 n = n.
Proof. intros. unfold JS.ToUint32. apply Z.mod_small. lia. Qed.

Lemma ToInt32_small n : - 2 ^ 31 <= n < 2 ^ 31 → JS.ToInt32 n = n.
Proof. intros. unfold JS.ToInt32. rewrite Z.mod_small; lia. Qed.

Lemma ToUint32_idem n : JS.ToUint32 (JS.ToUint32 n) = JS.ToUint32 n.
Proof. unfold JS.ToUint32. apply Z.mod_mod. lia. Qed.

Lemma ToUint32_range n : 0 <= JS.ToUint32 n < 2 ^ 32.
Proof. unfold JS.ToUint32. apply Z.mod_pos_bound. lia. Qed.

Lemma shift_amount d : 0 <= d <= 31 → JS.ToUint32 d mod 32 = d.
Proof.
  intros. rewrite ToUint32_small by lia. apply Z.mod_small. lia.
Qed.

(** ** Facts about the loops *)

Section Loops.
Context {St : Type}.
Implicit Types (body : Z → St → St) (s : St).

Lemma iterate_add n m i step body s :
  JS.iterate (n + m) i step body s
  = JS.iterate m (i + Z.of_nat n * step) step body (JS.iterate n i step body s).
Proof.
  revert i s. induction n as [|n IH]; intros i s; simpl.
  - f_equal. lia.
  - rewrite IH. f_equal. lia.
Qed.

Lemma iterate_ext n i step body body' s :
  (∀ k s', (k < n)%nat → body (i + Z.of_nat k * step) s' = body' (i + Z.of_nat k * step) s') →
  JS.iterate n i step body s = JS.iterate n i step body' s.
Proof.
  revert i s. induction n as [|n IH]; intros i s H; simpl; [done|].
  assert (body i s = body' i s) as ->.
  { specialize (H 0%nat s). replace (i + Z.of_nat 0 * step) with i in H by lia.
    apply H. lia. }
  apply IH. intros k s' Hk.
  replace (i + step + Z.of_nat k * step) with (i + Z.of_nat (S k) * step) by lia.
  apply H. lia.
Qed.

(** A property kept by every iteration is kept by the loop. *)
Lemma iterate_inv (P : St → Prop) n i step body s :
  P s → (∀ k s', P s' → P (body k s')) → P (JS.iterate n i step body s).
Proof.
  revert i s. induction n as [|n IH]; intros i s Hs Hb; simpl; auto.
Qed.

Lemma trips_ge start stop step : 0 < step → stop <= start → JS.trips start stop step = 0%nat.
Proof.
  intros Hs Hle. unfold JS.trips.
  assert ((stop - start + step - 1) `div` step <= 0); [|lia].
  destruct (Z.eq_dec (stop - start + step - 1) 0) as [->|Hne].
  - rewrite Z.div_0_l; lia.
  - assert ((stop - start + step - 1) `div` step < 1); [|lia].
    apply Z.div_lt_upper_bound; lia.
Qed.

Lemma trips_lt start stop step :
  0 < step → start < stop →
  JS.trips start stop step = S (JS.trips (start + step) stop step).
Proof.
  intros Hs Hlt. unfold JS.trips.
  replace (stop - start + step - 1) with ((stop - (start + step) + step - 1) + 1 * step) by lia.
  rewrite Z.div_add by lia.
  assert (0 <= (stop - (start + step) + step - 1) `div` step).
  { apply Z.div_pos; lia. }
  lia.
Qed.

(** The loop does what the [for] statement does: test, body, increment. *)
Lemma for_lt_unfold start stop step body s :
  0 < step →
  JS.for_lt start stop step body s
  = if start <? stop then JS.for_lt (start + step) stop step body (body start s) else s.
Proof.
  intros Hs. unfold JS.for_lt. destruct (Z.ltb_spec start stop).
  - rewrite trips_lt by lia. reflexivity.
  - rewrite trips_ge by lia. reflexivity.
Qed.

Lemma trips_exact start (k : nat) step :
  0 < step → JS.trips start (start + Z.of_nat k * step) step = k.
Proof.
  intros Hs. unfold JS.trips.
  replace (start + Z.of_nat k * step - start + step - 1) with (step - 1 + Z.of_nat k * step) by lia.
  rewrite Z.div_add by lia. rewrite Z.div_small by lia. lia.
Qed.

Lemma trips_one start stop : start <= stop → JS.trips start stop 1 = Z.to_nat (stop - start).
Proof.
  intros. unfold JS.trips. rewrite Z.div_1_r. f_equal. lia.
Qed.

Lemma for_lt_split start mid stop body s :
  start <= mid <= stop →
  JS.for_lt start stop 1 body s = JS.for_lt mid stop 1 body (JS.for_lt start mid 1 body s).
Proof.
  intros H. unfold JS.for_lt. rewrite !trips_one by lia.
  replace (Z.to_nat (stop - start)) with (Z.to_nat (mid - start) + Z.to_nat (stop - mid))%nat by lia.
  rewrite iterate_add. f_equal. lia.
Qed.

Lemma for_lt_inv (P : St → Prop) start stop step body s :
  P s → (∀ k s', P s' → P (body k s')) → P (JS.for_lt start stop step body s).
Proof. apply iterate_inv. Qed.

End Loops.

(** ** The 4-way unrolled scatter *)

Lemma iterate_unroll4 {St : Type} (k : nat) i (body1 body4 : Z → St → St) s :
  (∀ j s', body4 j s' = body1 (j + 3) (body1 (j + 2) (body1 (j + 1) (body1 j s')))) →
  JS.iterate k i 4 body4 s = JS.iterate (4 * k) i 1 body1 s.
Proof.
  intros Hb. revert i s. induction k as [|k IH]; intros i s; [done|].
  replace (4 * S k)%nat with (S (S (S (S (4 * k))))) by lia. simpl JS.iterate.
  rewrite IH, Hb.
  replace (i + 1 + 1 + 1 + 1) with (i + 4) by lia.
  replace (i + 1 + 1 + 1) with (i + 3) by lia.
  replace (i + 1 + 1) with (i + 2) by lia.
  reflexivity.
Qed.

Lemma ivtovec_u16_as_sequential (dest_u16 srci_u16 srcv_u16 : list Z) :
  LBITS.ivtovec_u16 dest_u16 srci_u16 srcv_u16
  = LBITS.ivtovec_u16_sequential dest_u16 srci_u16 srcv_u16.
Proof.
  unfold LBITS.ivtovec_u16, LBITS.ivtovec_u16_sequential.
  set (n := JS.shru (JS.len srci_u16) 0).
  set (body1 := fun i d => JS.put_num JS.ToUint16 d (JS.get srci_u16 i) (JS.get srcv_u16 i)).
  assert (Hn : 0 <= n).
  { unfold n, JS.shru. apply Z.shiftr_nonneg. apply ToUint32_range. }
  pose proof (Z.rem_bound_pos n 4 Hn ltac:(lia)) as Hr.
  pose proof (Z.rem_mod_nonneg n 4 Hn ltac:(lia)) as Hrm.
  pose proof (Z.div_mod n 4 ltac:(lia)) as Hdm.
  assert (Hq : 0 <= n `div` 4) by (apply Z.div_pos; lia).
  set (max_i := n - n `rem` 4).
  replace (max_i + n `rem` 4) with n by (unfold max_i; lia).
  rewrite (for_lt_split 0 max_i n body1) by (unfold max_i; lia).
  f_equal.
  assert (Hmax : max_i = 0 + Z.of_nat (Z.to_nat (n `div` 4)) * 4) by (unfold max_i; lia).
  unfold JS.for_lt at 1. rewrite Hmax at 1. rewrite trips_exact by lia.
  unfold JS.for_lt. rewrite trips_one by (unfold max_i; lia).
  replace (Z.to_nat (max_i - 0)) with (4 * Z.to_nat (n `div` 4))%nat by (unfold max_i; lia).
  apply iterate_unroll4. intros j s'. reflexivity.
Qed.

(** C10: the main loop over groups of four followed by the remainder
    loop of [ivtovec_u16] leaves the destination exactly as the sequential
    loop [dest[srci[i]] = srcv[i]], i = 0 .. n-1, does; duplicate indices
    are written in the same order in both. *)
Theorem ivtovec_u16_unrolled_eq_sequential (dest_u16 srci_u16 srcv_u16 : list Z) :
  LBITS.ivtovec_u16 dest_u16 srci_u16 srcv_u16
  = LBITS.ivtovec_u16_sequential dest_u16 srci_u16 srcv_u16.
Proof. apply ivtovec_u16_as_sequential. Qed.

(** ** Reprojection between zoom levels *)

Lemma shl_shru_mod x d :
  0 <= d <= 31 → JS.shru (JS.shl x d) d = x mod 2 ^ (32 - d).
Proof.
  intros Hd. unfold JS.shru, JS.shl.
  rewrite shift_amount by lia. rewrite ToUint32_ToInt32.
  rewrite Z.shiftl_mul_pow2, Z.shiftr_div_pow2 by lia.
  unfold JS.ToUint32.
  assert (E : 2 ^ 32 = 2 ^ (32 - d) * 2 ^ d) by (rewrite <- Z.pow_add_r by lia; f_equal; lia).
  rewrite E at 1.
  rewrite Z.mul_mod_distr_r by lia.
  rewrite Z.div_mul by lia.
  unfold JS.ToInt32.
  rewrite <- Zminus_mod_idemp_l.
  rewrite Z.mod_mod_divide by (exists (2 ^ d); lia).
  rewrite Zminus_mod_idemp_l. f_equal. lia.
Qed.

Lemma shru_0 x : JS.shru x 0 = JS.ToUint32 x.
Proof. unfold JS.shru. rewrite shift_amount by lia. apply Z.shiftr_0_r. Qed.

(** Up by [b - a] levels and down again keeps the low [32 - (b - a)]
    bits of the coordinate. *)
Lemma c_MercXZtoMercXZ_up_down v a b :
  0 <= b - a <= 31 →
  BITS.c_MercXZtoMercXZ (BITS.c_MercXZtoMercXZ v a b) b a = v mod 2 ^ (32 - (b - a)).
Proof.
  intros Hd. unfold BITS.c_MercXZtoMercXZ.
  destruct (Z.ltb_spec a b) as [Hlt|Hge].
  - destruct (Z.ltb_spec b a); [lia|]. apply shl_shru_mod. lia.
  - assert (b = a) as -> by lia.
    rewrite Z.ltb_irrefl, Z.sub_diag, !shru_0, ToUint32_idem. reflexivity.
Qed.

(** C8, as the code has it: for a non-negative coordinate [v] and zoom
    levels [a <= b] at most 31 apart, reprojecting from [a] up to [b] and
    back down to [a] returns [v] provided the shifted value fits 32 bits,
    that is [v * 2^(b-a) < 2^32]. *)
Theorem c_MercXZtoMercXZ_roundtrip (v a b : Z) :
  0 <= v → a <= b → b - a <= 31 → v * 2 ^ (b - a) < 2 ^ 32 →
  BITS.c_MercXZtoMercXZ (BITS.c_MercXZtoMercXZ v a b) b a = v.
Proof.
  intros Hv Hab Hd Hfit.
  rewrite c_MercXZtoMercXZ_up_down by lia.
  apply Z.mod_small. split; [lia|].
  apply (Z.mul_lt_mono_pos_r (2 ^ (b - a))); [lia|].
  rewrite <- Z.pow_add_r by lia.
  replace (32 - (b - a) + (b - a)) with 32 by lia. lia.
Qed.

Lemma c_MercXZtoMercXZ_roundtrip_witness :
  BITS.c_MercXZtoMercXZ (BITS.c_MercXZtoMercXZ 255 0 21) 21 0 = 255.
Proof. apply c_MercXZtoMercXZ_roundtrip; [lia | lia | lia | vm_compute; reflexivity]. Defined.

(** C8 as stated fails: the coordinate 2^30 taken from zoom 0 up to zoom
    2 and back comes out as 0, the left shift having dropped its bit. *)
Lemma c_MercXZtoMercXZ_roundtrip_counterexample :
  0 <= 2 ^ 30 ∧ 0 <= 2 ∧
  BITS.c_MercXZtoMercXZ (BITS.c_MercXZtoMercXZ (2 ^ 30) 0 2) 2 0 ≠ 2 ^ 30.
Proof. split; [lia|]. split; [lia|]. vm_compute. discriminate. Qed.

(** ** Zoom levels one index covers *)

(** C4, as the code has it: the deepest zoom level whose world size in
    tiles is at most the tile size in pixels is 8 for 256-pixel tiles and
    9 for 512-pixel tiles. *)
Theorem GetMaxZoomLevelSingleIndex_256_512 :
  LBITS.GetMaxZoomLevelSingleIndexForTileWidthHeightPx 256 256 = 8
  ∧ LBITS.GetMaxZoomLevelSingleIndexForTileWidthHeightPx 512 512 = 9.
Proof. split; vm_compute; reflexivity. Qed.

(** C4 as stated fails: the value for 512-pixel tiles is not 7. *)
Lemma GetMaxZoomLevelSingleIndex_512_counterexample :
  ¬ (LBITS.GetMaxZoomLevelSingleIndexForTileWidthHeightPx 256 256 = 8
     ∧ LBITS.GetMaxZoomLevelSingleIndexForTileWidthHeightPx 512 512 = 7).
Proof. intros [_ H]. vm_compute in H. discriminate. Qed.

(** ** Typed arrays *)

Lemma get_put_ne wrap l i j v : i ≠ j → JS.get (JS.put wrap l i v) j = JS.get l j.
Proof.
  intros Hne. unfold JS.get, JS.put.
  destruct (Z.ltb_spec j 0); [done|].
  destruct (Z.ltb_spec i 0); [done|].
  apply list_lookup_insert_ne. lia.
Qed.

Lemma get_put_eq wrap l i v :
  0 <= i < JS.len l → JS.get (JS.put wrap l i v) i = Some (wrap (JS.int v)).
Proof.
  intros Hi. unfold JS.get, JS.put, JS.len in *.
  destruct (Z.ltb_spec i 0); [lia|].
  apply list_lookup_insert_eq. lia.
Qed.

Lemma length_put wrap l i v : length (JS.put wrap l i v) = length l.
Proof. unfold JS.put. destruct (i <? 0); [done|]. apply length_insert. Qed.

Lemma is_u32_array_get l k v :
  JS.is_u32_array l = true → JS.get l k = Some v → 0 <= v < 2 ^ 32.
Proof.
  unfold JS.is_u32_array, JS.get. intros Hl Hk.
  destruct (k <? 0); [done|].
  rewrite forallb_forall in Hl.
  apply list_elem_of_lookup_2, list_elem_of_In in Hk.
  specialize (Hl _ Hk). lia.
Qed.

Lemma is_u32_array_put l i v :
  JS.is_u32_array l = true → JS.is_u32_array (JS.set_u32 l i v) = true.
Proof.
  unfold JS.is_u32_array, JS.set_u32, JS.put. intros Hl.
  destruct (i <? 0); [done|].
  rewrite forallb_forall in *. intros x Hx.
  apply list_elem_of_In, list_elem_of_lookup in Hx. destruct Hx as [j Hj].
  destruct (decide (Z.to_nat i = j)) as [<-|Hne].
  - destruct (decide (Z.to_nat i < length l)%nat).
    + rewrite list_lookup_insert_eq in Hj by done. inversion Hj; subst.
      pose proof (ToUint32_range (JS.int v)). lia.
    + rewrite list_insert_ge in Hj by lia.
      apply Hl, list_elem_of_In, list_elem_of_lookup. eauto.
  - rewrite list_lookup_insert_ne in Hj by done.
    apply Hl, list_elem_of_In, list_elem_of_lookup. eauto.
Qed.

(** ** The layer extent *)

Lemma c_vMercXYZtoMercXYZ_u32_get5 v : JS.get (BITS.c_vMercXYZtoMercXYZ_u32 v) 5 = JS.get v 5.
Proof.
  unfold BITS.c_vMercXYZtoMercXYZ_u32, JS.set_u32.
  destruct (_ <? _); rewrite !get_put_ne by lia; reflexivity.
Qed.

Lemma c_vMercXYZtoMercXYZ_u32_is_u32 v :
  JS.is_u32_array v = true → JS.is_u32_array (BITS.c_vMercXYZtoMercXYZ_u32 v) = true.
Proof.
  intros H. unfold BITS.c_vMercXYZtoMercXYZ_u32.
  destruct (_ <? _); repeat apply is_u32_array_put; exact H.
Qed.

Lemma c_vPixelExtentToMercExtent_u32_get5 v w h :
  JS.get (BITS.c_vPixelExtentToMercExtent_u32 v w h) 5 = JS.get v 5.
Proof.
  unfold BITS.c_vPixelExtentToMercExtent_u32.
  destruct (_ <? _); [done|].
  rewrite c_vMercXYZtoMercXYZ_u32_get5. unfold JS.set_u32.
  rewrite !get_put_ne by lia. reflexivity.
Qed.

Lemma c_vPixelExtentToMercExtent_u32_is_u32 v w h :
  JS.is_u32_array v = true →
  JS.is_u32_array (BITS.c_vPixelExtentToMercExtent_u32 v w h) = true.
Proof.
  intros H. unfold BITS.c_vPixelExtentToMercExtent_u32.
  destruct (_ <? _); [done|].
  apply c_vMercXYZtoMercXYZ_u32_is_u32. repeat apply is_u32_array_put. exact H.
Qed.
Section Edges.
Variables (e px : list Z) (k zk a b : Z).
Hypothesis Hpx : JS.is_u32_array px = true.
Hypothesis Hk : 0 <= k < JS.len e.
Hypothesis Hzk : 0 <= zk < JS.len e.
Hypothesis Hne : k ≠ zk.

Lemma length_lower_edge : length (LBITS.lower_edge e px k zk a b) = length e.
Proof.
  unfold LBITS.lower_edge, JS.set_u32.
  repeat (destruct (JS.ge _ _) || destruct (JS.lt _ _)); rewrite ?length_put; reflexivity.
Qed.

Lemma length_raise_edge : length (LBITS.raise_edge e px k zk a b) = length e.
Proof.
  unfold LBITS.raise_edge, JS.set_u32.
  repeat (destruct (JS.ge _ _) || destruct (JS.gt _ _)); rewrite ?length_put; reflexivity.
Qed.

Lemma lower_edge_frame j :
  j ≠ k → j ≠ zk → JS.get (LBITS.lower_edge e px k zk a b) j = JS.get e j.
Proof.
  intros. unfold LBITS.lower_edge, JS.set_u32.
  repeat (destruct (JS.ge _ _) || destruct (JS.lt _ _)); rewrite ?get_put_ne by lia; reflexivity.
Qed.

Lemma raise_edge_frame j :
  j ≠ k → j ≠ zk → JS.get (LBITS.raise_edge e px k zk a b) j = JS.get e j.
Proof.
  intros. unfold LBITS.raise_edge, JS.set_u32.
  repeat (destruct (JS.ge _ _) || destruct (JS.gt _ _)); rewrite ?get_put_ne by lia; reflexivity.
Qed.

Lemma get_in_range l i : 0 <= i < JS.len l → ∃ v, JS.get l i = Some v.
Proof.
  unfold JS.get, JS.len. intros Hi. destruct (Z.ltb_spec i 0); [lia|].
  apply lookup_lt_is_Some. lia.
Qed.

Lemma get_set_u32_eq l i v x :
  0 <= i < JS.len l → 0 <= x < 2 ^ 32 → v = Some x →
  JS.get (JS.set_u32 l i v) i = Some x.
Proof.
  intros Hi Hx ->. unfold JS.set_u32. rewrite get_put_eq by done.
  simpl. rewrite ToUint32_small by done. reflexivity.
Qed.

Lemma len_set_u32 l i v : JS.len (JS.set_u32 l i v) = JS.len l.
Proof. unfold JS.len, JS.set_u32. rewrite length_put. reflexivity. Qed.

(** One assignment pair: the edge moves strictly, or nothing changes. *)
Lemma lower_step (l : list Z) (p : JS.num) (q v : Z) :
  k ≠ zk → 0 <= k < JS.len l → 0 <= zk < JS.len l →
  (∀ x, p = Some x → 0 <= x < 2 ^ 32) → 0 <= q < 2 ^ 32 →
  JS.get l k = Some v →
  let l' := if JS.lt p (JS.get l k)
            then JS.set_u32 (JS.set_u32 l k p) zk (Some q) else l in
  JS.len l' = JS.len l
  ∧ (l' = l ∨ ∃ v', JS.get l' k = Some v' ∧ v' < v ∧ JS.get l' zk = Some q).
Proof.
  intros Hkz Hkl Hzl Hp Hq Hv. rewrite Hv. simpl.
  destruct p as [x|]; simpl; [|by auto].
  destruct (Z.ltb_spec x v); [|by auto].
  rewrite !len_set_u32. split; [done|]. right. exists x.
  unfold JS.set_u32 at 1. rewrite get_put_ne by lia.
  rewrite (get_set_u32_eq _ _ _ x) by (auto; lia).
  rewrite (get_set_u32_eq _ _ _ q) by (rewrite ?len_set_u32; auto; lia).
  auto.
Qed.

Lemma raise_step (l : list Z) (p : JS.num) (q v : Z) :
  k ≠ zk → 0 <= k < JS.len l → 0 <= zk < JS.len l →
  (∀ x, p = Some x → 0 <= x < 2 ^ 32) → 0 <= q < 2 ^ 32 →
  JS.get l k = Some v →
  let l' := if JS.gt p (JS.get l k)
            then JS.set_u32 (JS.set_u32 l k p) zk (Some q) else l in
  JS.len l' = JS.len l
  ∧ (l' = l ∨ ∃ v', JS.get l' k = Some v' ∧ v < v' ∧ JS.get l' zk = Some q).
Proof.
  intros Hkz Hkl Hzl Hp Hq Hv. rewrite Hv. simpl.
  destruct p as [x|]; simpl; [|by auto].
  destruct (Z.ltb_spec v x); [|by auto].
  rewrite !len_set_u32. split; [done|]. right. exists x.
  unfold JS.set_u32 at 1. rewrite get_put_ne by lia.
  rewrite (get_set_u32_eq _ _ _ x) by (auto; lia).
  rewrite (get_set_u32_eq _ _ _ q) by (rewrite ?len_set_u32; auto; lia).
  auto.
Qed.

Lemma lower_edge_spec :
  let e' := LBITS.lower_edge e px k zk a b in
  JS.le (JS.get e' k) (JS.get e k) = true
  ∧ (JS.get e' k ≠ JS.get e k →
     JS.ge (JS.get px 5) (JS.get e zk) = true ∧ JS.get e' zk = JS.get px 5).
Proof.
  destruct (get_in_range e k Hk) as [v Hv].
  pose proof (fun x => is_u32_array_get px a x Hpx) as Ha.
  pose proof (fun x => is_u32_array_get px b x Hpx) as Hb.
  pose proof (fun x => is_u32_array_get px 5 x Hpx) as H5.
  unfold LBITS.lower_edge. simpl.
  destruct (JS.ge (JS.get px 5) (JS.get e zk)) eqn:Hge.
  2: { rewrite Hv. simpl. split; [lia | done]. }
  assert (∃ p5, JS.get px 5 = Some p5) as [p5 Hp5].
  { unfold JS.ge, JS.le in Hge. destruct (JS.get e zk), (JS.get px 5); eauto; done. }
  specialize (H5 _ Hp5). rewrite Hp5.
  destruct (lower_step e (JS.get px a) p5 v Hne Hk Hzk Ha H5 Hv) as [Hl1 H1].
  set (e1 := if JS.lt (JS.get px a) (JS.get e k) then _ else e) in *.
  assert (∃ v1, JS.get e1 k = Some v1 ∧ v1 <= v
                ∧ (v1 ≠ v → JS.get e1 zk = Some p5)) as (v1 & Hv1 & Hle1 & Hz1).
  { destruct H1 as [->|(v' & ? & ? & ?)]; [exists v|exists v']; repeat split; auto; lia. }
  destruct (lower_step e1 (JS.get px b) p5 v1 Hne) as [Hl2 H2]; auto; try lia.
  set (e2 := if JS.lt (JS.get px b) (JS.get e1 k) then _ else e1) in *.
  rewrite Hv.
  destruct H2 as [->|(v' & Hv' & Hlt & Hz')].
  - rewrite Hv1. simpl. split; [lia|]. intros Hneq. split; [done|].
    apply Hz1. congruence.
  - rewrite Hv'. simpl. split; [lia|]. intros _. split; [done|]. exact Hz'.
Qed.

Lemma raise_edge_spec :
  let e' := LBITS.raise_edge e px k zk a b in
  JS.le (JS.get e k) (JS.get e' k) = true
  ∧ (JS.get e' k ≠ JS.get e k →
     JS.ge (JS.get px 5) (JS.get e zk) = true ∧ JS.get e' zk = JS.get px 5).
Proof.
  destruct (get_in_range e k Hk) as [v Hv].
  pose proof (fun x => is_u32_array_get px a x Hpx) as Ha.
  pose proof (fun x => is_u32_array_get px b x Hpx) as Hb.
  pose proof (fun x => is_u32_array_get px 5 x Hpx) as H5.
  unfold LBITS.raise_edge. simpl.
  destruct (JS.ge (JS.get px 5) (JS.get e zk)) eqn:Hge.
  2: { rewrite Hv. simpl. split; [lia | done]. }
  assert (∃ p5, JS.get px 5 = Some p5) as [p5 Hp5].
  { unfold JS.ge, JS.le in Hge. destruct (JS.get e zk), (JS.get px 5); eauto; done. }
  specialize (H5 _ Hp5). rewrite Hp5.
  destruct (raise_step e (JS.get px a) p5 v Hne Hk Hzk Ha H5 Hv) as [Hl1 H1].
  set (e1 := if JS.gt (JS.get px a) (JS.get e k) then _ else e) in *.
  assert (∃ v1, JS.get e1 k = Some v1 ∧ v <= v1
                ∧ (v1 ≠ v → JS.get e1 zk = Some p5)) as (v1 & Hv1 & Hle1 & Hz1).
  { destruct H1 as [->|(v' & ? & ? & ?)]; [exists v|exists v']; repeat split; auto; lia. }
  destruct (raise_step e1 (JS.get px b) p5 v1 Hne) as [Hl2 H2]; auto; try lia.
  set (e2 := if JS.gt (JS.get px b) (JS.get e1 k) then _ else e1) in *.
  rewrite Hv.
  destruct H2 as [->|(v' & Hv' & Hlt & Hz')].
  - rewrite Hv1. simpl. split; [lia|]. intros Hneq. split; [done|].
    apply Hz1. congruence.
  - rewrite Hv'. simpl. split; [lia|]. intros _. split; [done|]. exact Hz'.
Qed.

End Edges.

Lemma merge_pixel_extent_widens (e px : list Z) :
  length e = 16%nat → JS.is_u32_array px = true →
  let e' := LBITS.merge_pixel_extent e px in
  length e' = 16%nat
  ∧ JS.le (JS.get e' 0) (JS.get e 0) = true
  ∧ JS.le (JS.get e' 1) (JS.get e 1) = true
  ∧ JS.le (JS.get e 2) (JS.get e' 2) = true
  ∧ JS.le (JS.get e 3) (JS.get e' 3) = true
  ∧ ∀ k, 0 <= k < 4 → JS.get e' k ≠ JS.get e k →
      JS.ge (JS.get px 5) (JS.get e (12 + k)) = true
      ∧ JS.get e' (12 + k) = JS.get px 5.
Proof.
  intros Hlen Hpx. unfold LBITS.merge_pixel_extent.
  set (e1 := LBITS.lower_edge e px 0 12 0 2).
  set (e2 := LBITS.lower_edge e1 px 1 13 1 3).
  set (e3 := LBITS.raise_edge e2 px 2 14 2 0).
  set (e4 := LBITS.raise_edge e3 px 3 15 3 1).
  assert (L1 : length e1 = 16%nat) by (unfold e1; rewrite length_lower_edge; done).
  assert (L2 : length e2 = 16%nat) by (unfold e2; rewrite length_lower_edge; done).
  assert (L3 : length e3 = 16%nat) by (unfold e3; rewrite length_raise_edge; done).
  assert (L4 : length e4 = 16%nat) by (unfold e4; rewrite length_raise_edge; done).
  assert (F1 : ∀ j, j ≠ 0 → j ≠ 12 → JS.get e1 j = JS.get e j)
    by (intros; apply lower_edge_frame; done).
  assert (F2 : ∀ j, j ≠ 1 → j ≠ 13 → JS.get e2 j = JS.get e1 j)
    by (intros; apply lower_edge_frame; done).
  assert (F3 : ∀ j, j ≠ 2 → j ≠ 14 → JS.get e3 j = JS.get e2 j)
    by (intros; apply raise_edge_frame; done).
  assert (F4 : ∀ j, j ≠ 3 → j ≠ 15 → JS.get e4 j = JS.get e3 j)
    by (intros; apply raise_edge_frame; done).
  destruct (lower_edge_spec e px 0 12 0 2 Hpx) as [S1 T1]; [unfold JS.len; lia..|].
  destruct (lower_edge_spec e1 px 1 13 1 3 Hpx) as [S2 T2]; [unfold JS.len; lia..|].
  destruct (raise_edge_spec e2 px 2 14 2 0 Hpx) as [S3 T3]; [unfold JS.len; lia..|].
  destruct (raise_edge_spec e3 px 3 15 3 1 Hpx) as [S4 T4]; [unfold JS.len; lia..|].
  fold e1 in S1, T1. fold e2 in S2, T2. fold e3 in S3, T3. fold e4 in S4, T4.
  split; [exact L4|].
  split. { rewrite F4, F3, F2 by lia. exact S1. }
  split. { rewrite F4, F3, <- (F1 1) by lia. exact S2. }
  split. { rewrite F4, <- (F1 2), <- (F2 2) by lia. exact S3. }
  split. { rewrite <- (F1 3), <- (F2 3), <- (F3 3) by lia. exact S4. }
  intros k Hk Hneq.
  assert (k = 0 ∨ k = 1 ∨ k = 2 ∨ k = 3) as [-> | [-> | [-> | ->]]] by lia;
    [change (12 + 0) with 12 | change (12 + 1) with 13
    | change (12 + 2) with 14 | change (12 + 3) with 15].
  - rewrite F4, F3, F2 in Hneq |- * by lia. auto.
  - rewrite F4, F3 in Hneq |- * by lia.
    rewrite <- (F1 1) in Hneq by lia. rewrite <- (F1 13) by lia. auto.
  - rewrite F4 in Hneq |- * by lia.
    rewrite <- (F1 2), <- (F2 2) in Hneq by lia.
    rewrite <- (F1 14), <- (F2 14) by lia. auto.
  - rewrite <- (F1 3), <- (F2 3), <- (F3 3) in Hneq by lia.
    rewrite <- (F1 15), <- (F2 15), <- (F3 15) by lia. auto.
Qed.

(** C5, as the code has it: once the extent is set, a call of
    [UpdateLayerExtentFromBitstorePixelExtent] can only widen it, minX and
    minY never move higher and maxX and maxY never move lower; an edge
    changes only when the source zoom [px[5]] of the contribution is at
    least the zoom recorded for that edge, and the contribution's zoom is
    then recorded for the edge. *)
Theorem UpdateLayerExtent_only_widens (this : LBITS.obj.t) (px e : list Z) :
  LBITS.obj.extent this = Some e → length e = 16%nat → JS.is_u32_array px = true →
  ∃ e', LBITS.obj.extent (LBITS.UpdateLayerExtentFromBitstorePixelExtent this px) = Some e'
    ∧ length e' = 16%nat
    ∧ JS.le (JS.get e' 0) (JS.get e 0) = true
    ∧ JS.le (JS.get e' 1) (JS.get e 1) = true
    ∧ JS.le (JS.get e 2) (JS.get e' 2) = true
    ∧ JS.le (JS.get e 3) (JS.get e' 3) = true
    ∧ ∀ k, 0 <= k < 4 → JS.get e' k ≠ JS.get e k →
        JS.ge (JS.get px 5) (JS.get e (12 + k)) = true
        ∧ JS.get e' (12 + k) = JS.get px 5.
Proof.
  intros He Hlen Hpx.
  unfold LBITS.UpdateLayerExtentFromBitstorePixelExtent. rewrite He. simpl.
  eexists. split; [reflexivity|].
  rewrite <- (c_vPixelExtentToMercExtent_u32_get5 px (LBITS.obj.img_width this)
                (LBITS.obj.img_height this)).
  apply merge_pixel_extent_widens; [done|].
  apply c_vPixelExtentToMercExtent_u32_is_u32. done.
Qed.

Lemma UpdateLayerExtent_only_widens_witness :
  LBITS.obj.extent Sample.layer_seeded = Some Sample.seeded_extent
  ∧ ∃ e', LBITS.obj.extent
            (LBITS.UpdateLayerExtentFromBitstorePixelExtent Sample.layer_seeded
               Sample.finer_px) = Some e'
    ∧ length e' = 16%nat
    ∧ JS.le (JS.get e' 0) (JS.get Sample.seeded_extent 0) = true
    ∧ JS.le (JS.get e' 1) (JS.get Sample.seeded_extent 1) = true
    ∧ JS.le (JS.get Sample.seeded_extent 2) (JS.get e' 2) = true
    ∧ JS.le (JS.get Sample.seeded_extent 3) (JS.get e' 3) = true
    ∧ ∀ k, 0 <= k < 4 → JS.get e' k ≠ JS.get Sample.seeded_extent k →
        JS.ge (JS.get Sample.finer_px 5) (JS.get Sample.seeded_extent (12 + k)) = true
        ∧ JS.get e' (12 + k) = JS.get Sample.finer_px 5.
Proof.
  split; [vm_compute; reflexivity|].
  apply (UpdateLayerExtent_only_widens Sample.layer_seeded Sample.finer_px
           Sample.seeded_extent); vm_compute; reflexivity.
Defined.

(** C5 as stated fails: after the master seeding from the data pixel
    (100,100) at zoom 0, the contribution of the index at zoom 1 with data
    up to pixel 201 moves maxX higher, from 100 * 2^21 to 201 * 2^20. *)
Lemma UpdateLayerExtent_counterexample :
  ∃ e e',
    LBITS.obj.extent Sample.layer_seeded = Some e
    ∧ LBITS.obj.extent
        (LBITS.UpdateLayerExtentFromBitstorePixelExtent Sample.layer_seeded
           Sample.finer_px) = Some e'
    ∧ JS.get e 2 = Some 209715200
    ∧ JS.get e' 2 = Some 210763776.
Proof. do 2 eexists. vm_compute. repeat split; reflexivity. Qed.

(** ** The sparse index/value form and back *)

Lemma iterate_S_r {St : Type} n i step (body : Z → St → St) s :
  JS.iterate (S n) i step body s
  = body (i + Z.of_nat n * step) (JS.iterate n i step body s).
Proof. replace (S n) with (n + 1)%nat by lia. rewrite iterate_add. reflexivity. Qed.

Lemma iterate_shift {St : Type} n i off (body : Z → St → St) s :
  JS.iterate n (i + off) 1 body s = JS.iterate n i 1 (fun j => body (j + off)) s.
Proof.
  revert i s; induction n as [|n IH]; intros i s; simpl; [done|].
  replace (i + off + 1) with (i + 1 + off) by lia. apply IH.
Qed.

Lemma iterate_fold_idx {A St : Type} (g : Z → A → St → St) (body : Z → St → St) (l : list A) :
  ∀ off s,
    (∀ (k : nat) a s', l !! k = Some a →
       body (off + Z.of_nat k) s' = g (off + Z.of_nat k) a s') →
    JS.iterate (length l) off 1 body s = Describe.fold_idx g off l s.
Proof.
  induction l as [|a l IH]; intros off s H; simpl; [done|].
  assert (body off s = g off a s) as ->.
  { specialize (H 0%nat a s eq_refl). replace (off + Z.of_nat 0) with off in H by lia. done. }
  apply IH. intros k a' s' Hk.
  replace (off + 1 + Z.of_nat k) with (off + Z.of_nat (S k)) by lia. apply H. done.
Qed.

Lemma for_lt_fold_idx {A St : Type} (g : Z → A → St → St) (body : Z → St → St) (l : list A) s :
  (∀ (k : nat) a s', l !! k = Some a → body (Z.of_nat k) s' = g (Z.of_nat k) a s') →
  JS.for_lt 0 (JS.len l) 1 body s = Describe.fold_idx g 0 l s.
Proof.
  intros H. unfold JS.for_lt, JS.len. rewrite trips_one by lia.
  replace (Z.to_nat (Z.of_nat (length l) - 0)) with (length l) by lia.
  apply iterate_fold_idx. intros k a s'. rewrite Z.add_0_l. apply H.
Qed.

Lemma get_lookup (l : list Z) (k : nat) : JS.get l (Z.of_nat k) = l !! k.
Proof.
  unfold JS.get. destruct (Z.ltb_spec (Z.of_nat k) 0); [lia|]. by rewrite Nat2Z.id.
Qed.

Lemma zeros_len {A : Type} (l : list A) : JS.zeros (JS.len l) = replicate (length l) 0.
Proof. unfold JS.zeros, JS.len. by rewrite Nat2Z.id. Qed.

Lemma is_u16_array_Forall l :
  JS.is_u16_array l = true ↔ Forall (fun v => 0 <= v < 2 ^ 16) l.
Proof.
  unfold JS.is_u16_array. rewrite forallb_forall, Forall_forall.
  split; intros H x Hx.
  - apply list_elem_of_In, H in Hx. lia.
  - apply list_elem_of_In, H in Hx. lia.
Qed.

Lemma ToUint16_small v : 0 <= v < 2 ^ 16 → JS.ToUint16 v = v.
Proof. intros. unfold JS.ToUint16. apply Z.mod_small. lia. Qed.

Lemma map_ToUint16_id l : JS.is_u16_array l = true → map JS.ToUint16 l = l.
Proof.
  rewrite is_u16_array_Forall. induction 1 as [|v l Hv _ IH]; simpl; [done|].
  by rewrite ToUint16_small, IH.
Qed.

(** What [c_DecomposeIndexIntoIV] returns. *)
Lemma fold_idx_decompose l : ∀ off (di dv : list Z),
  Describe.fold_idx
    (fun i v '(dest_i_str, dest_v_str) =>
       if negb (v =? 0)
       then (dest_i_str ++ [JS.ToUint16 i], dest_v_str ++ [JS.ToUint16 v])
       else (dest_i_str, dest_v_str)) off l (di, dv)
  = (di ++ map (fun p => JS.ToUint16 p.1) (Describe.nonzero_from off l),
     dv ++ map (fun p => JS.ToUint16 p.2) (Describe.nonzero_from off l)).
Proof.
  induction l as [|v l IH]; intros off di dv; simpl.
  - by rewrite !app_nil_r.
  - destruct (v =? 0); simpl; rewrite IH; [done|].
    by rewrite <- !app_assoc.
Qed.

Lemma c_DecomposeIndexIntoIV_nonzero grid :
  BITS.c_DecomposeIndexIntoIV (Some grid)
  = Some (map (fun p => JS.ToUint16 p.1) (Describe.nonzero_from 0 grid),
          map (fun p => JS.ToUint16 p.2) (Describe.nonzero_from 0 grid)).
Proof.
  unfold BITS.c_DecomposeIndexIntoIV. f_equal.
  erewrite for_lt_fold_idx; [apply (fold_idx_decompose grid 0 [] [])|].
  intros k a [di dv] Hk. rewrite get_lookup, Hk. reflexivity.
Qed.

(** A loop that copies [n] code units from offset [off] into a fresh
    [Uint16Array(n)]. *)
Lemma copy_loop (src : list Z) (off n : nat) (read : Z → Z) :
  (off + n ≤ length src)%nat →
  (∀ j : nat, read (Z.of_nat j) = Z.of_nat (j + off)) →
  JS.iterate n 0 1 (fun j a => JS.set_u16 a j (JS.get src (read j))) (replicate n 0)
  = map JS.ToUint16 (take n (drop off src)).
Proof.
  intros Hlen Hread.
  assert (∀ k, (k ≤ n)%nat →
            JS.iterate k 0 1 (fun j a => JS.set_u16 a j (JS.get src (read j))) (replicate n 0)
            = map JS.ToUint16 (take k (drop off src)) ++ replicate (n - k) 0) as H.
  { induction k as [|k IH]; intros Hk.
    - simpl. by rewrite Nat.sub_0_r.
    - rewrite iterate_S_r, IH by lia. clear IH.
      replace (0 + Z.of_nat k * 1) with (Z.of_nat k) by lia.
      rewrite Hread, get_lookup.
      destruct (lookup_lt_is_Some_2 (drop off src) k) as [x Hx].
      { rewrite length_drop. lia. }
      rewrite (take_S_r _ _ x) by done.
      rewrite lookup_drop in Hx. rewrite Nat.add_comm, Hx.
      unfold JS.set_u16, JS.put. destruct (Z.ltb_spec (Z.of_nat k) 0); [lia|].
      rewrite Nat2Z.id.
      replace (n - k)%nat with (S (n - S k)) by lia. simpl replicate.
      rewrite map_app, <- app_assoc. simpl.
      assert (length (map JS.ToUint16 (take k (drop off src))) = k) as Hl.
      { rewrite length_map, length_take, length_drop. lia. }
      rewrite insert_app_r_alt by (rewrite Hl; lia).
      rewrite Hl, Nat.sub_diag. reflexivity. }
  rewrite H by lia. rewrite Nat.sub_diag. apply app_nil_r.
Qed.

Lemma shru_len_0 {A : Type} (l : list A) : JS.len l < 2 ^ 32 → JS.shru (JS.len l) 0 = JS.len l.
Proof. intros. rewrite shru_0. apply ToUint32_small. unfold JS.len in *. lia. Qed.

Lemma shru_double n : 0 <= n < 2 ^ 31 → JS.shru (2 * n) 1 = n.
Proof.
  intros. unfold JS.shru. rewrite shift_amount by lia.
  rewrite ToUint32_small by lia. rewrite Z.shiftr_div_pow2 by lia.
  change (2 ^ 1) with 2. rewrite Z.mul_comm. apply Z.div_mul. lia.
Qed.

(** The sequential scatter as a fold over the index/value pairs. *)
Lemma sequential_fold (d di dv : list Z) :
  length di = length dv → JS.len di < 2 ^ 32 →
  LBITS.ivtovec_u16_sequential d di dv
  = Describe.fold_idx (fun _ (p : Z * Z) d => JS.put JS.ToUint16 d p.1 (Some p.2)) 0 (zip di dv) d.
Proof.
  intros Hlen Hsmall. unfold LBITS.ivtovec_u16_sequential.
  rewrite shru_len_0 by done.
  replace (JS.len di) with (JS.len (zip di dv))
    by (unfold JS.len; rewrite length_zip_with_l_eq; done).
  apply for_lt_fold_idx. intros k [i v] s' Hk.
  apply lookup_zip_with_Some in Hk as (i' & v' & Heq & Hi & Hv).
  inversion Heq; subst. rewrite !get_lookup, Hi, Hv. reflexivity.
Qed.

Lemma DecodeBitmapIndexFromBinaryString_fold (di dv : list Z) (w h : Z) :
  length di = length dv →
  JS.is_u16_array di = true → JS.is_u16_array dv = true →
  JS.len di < 2 ^ 31 →
  LBITS.DecodeBitmapIndexFromBinaryString (di ++ dv) w h
  = Describe.fold_idx (fun _ (p : Z * Z) d => JS.put JS.ToUint16 d p.1 (Some p.2)) 0
      (zip di dv) (JS.zeros (JS.shru w 2 * JS.shru h 2)).
Proof.
  intros Hlen Hdi Hdv Hsmall. unfold LBITS.DecodeBitmapIndexFromBinaryString.
  assert (Hn : JS.shru (JS.len (di ++ dv)) 1 = JS.len di).
  { unfold JS.len in *. rewrite length_app, <- Hlen.
    replace (Z.of_nat (length di + length di)) with (2 * Z.of_nat (length di)) by lia.
    apply shru_double. lia. }
  rewrite Hn.
  assert (Hi : JS.for_lt 0 (JS.len di) 1
                 (fun i i_u16 => JS.set_u16 i_u16 i (JS.get (di ++ dv) i))
                 (JS.zeros (JS.len di)) = di).
  { unfold JS.for_lt. rewrite trips_one by (unfold JS.len; lia).
    rewrite zeros_len. unfold JS.len.
    replace (Z.to_nat (Z.of_nat (length di) - 0)) with (length di) by lia.
    rewrite (copy_loop (di ++ dv) 0 (length di) (fun j => j)).
    - rewrite drop_0, take_app_length. by apply map_ToUint16_id.
    - rewrite length_app. lia.
    - intros j. lia. }
  assert (Hv : JS.for_lt (JS.len di) (JS.len (di ++ dv)) 1
                 (fun i v_u16 => JS.set_u16 v_u16 (i - JS.len di) (JS.get (di ++ dv) i))
                 (JS.zeros (JS.len di)) = dv).
  { unfold JS.for_lt. rewrite trips_one by (unfold JS.len; rewrite length_app; lia).
    rewrite zeros_len. unfold JS.len. rewrite length_app.
    replace (Z.to_nat (Z.of_nat (length di + length dv) - Z.of_nat (length di)))
      with (length di) by lia.
    replace (Z.of_nat (length di)) with (0 + Z.of_nat (length di)) at 1 by lia.
    rewrite iterate_shift.
    rewrite (iterate_ext _ _ _ _
               (fun j a => JS.set_u16 a j (JS.get (di ++ dv) (j + Z.of_nat (length di))))).
    2: { intros k s' _. f_equal. lia. }
    rewrite (copy_loop (di ++ dv) (length di) (length di)
               (fun j => j + Z.of_nat (length di))).
    - rewrite drop_app_length, Hlen, firstn_all. by apply map_ToUint16_id.
    - rewrite length_app. lia.
    - intros j. lia. }
  rewrite Hi, Hv. unfold LBITS.new_ivtovec_u16.
  rewrite ivtovec_u16_as_sequential. apply sequential_fold; [done|lia].
Qed.

(** Scattering the nonzero words of [l] behind [pre] rebuilds [l]. *)
Lemma scatter_nonzero (l : list Z) : ∀ (pre : list Z) off,
  JS.is_u16_array l = true → JS.len pre + JS.len l <= 2 ^ 16 →
  Describe.fold_idx (fun _ (p : Z * Z) d => JS.put JS.ToUint16 d p.1 (Some p.2)) off
    (zip (map (fun p => JS.ToUint16 p.1) (Describe.nonzero_from (JS.len pre) l))
         (map (fun p => JS.ToUint16 p.2) (Describe.nonzero_from (JS.len pre) l)))
    (pre ++ replicate (length l) 0)
  = pre ++ l.
Proof.
  induction l as [|v l IH]; intros pre off Hu Hlen.
  - reflexivity.
  - apply is_u16_array_Forall in Hu. inversion Hu as [|? ? Hv Hl]; subst.
    apply is_u16_array_Forall in Hl.
    assert (Hlen' : JS.len (pre ++ [v]) + JS.len l <= 2 ^ 16).
    { unfold JS.len in *. rewrite length_app. simpl in *. lia. }
    assert (Hoff : JS.len pre + 1 = JS.len (pre ++ [v])).
    { unfold JS.len. rewrite length_app. simpl. lia. }
    simpl Describe.nonzero_from. simpl replicate.
    destruct (Z.eqb_spec v 0) as [->|Hnz].
    + rewrite Hoff.
      replace (pre ++ 0 :: replicate (length l) 0)
        with ((pre ++ [0]) ++ replicate (length l) 0) by (by rewrite <- app_assoc).
      rewrite IH by done. by rewrite <- app_assoc.
    + simpl. rewrite Hoff.
      assert (JS.put JS.ToUint16 (pre ++ 0 :: replicate (length l) 0)
                (JS.ToUint16 (JS.len pre)) (Some (JS.ToUint16 v))
              = (pre ++ [v]) ++ replicate (length l) 0) as ->.
      { rewrite ToUint16_small
          by (unfold JS.len in *; rewrite length_cons in Hlen; lia).
        unfold JS.put, JS.len. destruct (Z.ltb_spec (Z.of_nat (length pre)) 0); [lia|].
        rewrite Nat2Z.id. rewrite insert_app_r_alt by done.
        rewrite Nat.sub_diag. simpl. rewrite !(ToUint16_small v) by lia.
        by rewrite <- app_assoc. }
      rewrite IH by done. by rewrite <- app_assoc.
Qed.

Lemma length_nonzero_from l : ∀ off, (length (Describe.nonzero_from off l) ≤ length l)%nat.
Proof.
  induction l as [|v l IH]; intros off; simpl; [lia|].
  destruct (v =? 0); simpl; specialize (IH (off + 1)); lia.
Qed.

Lemma is_u16_array_map_ToUint16 {A : Type} (f : A → Z) (l : list A) :
  JS.is_u16_array (map (fun p => JS.ToUint16 (f p)) l) = true.
Proof.
  apply is_u16_array_Forall, Forall_forall. intros x Hx.
  apply list_elem_of_fmap in Hx as (p & -> & _).
  unfold JS.ToUint16. apply Z.mod_pos_bound. lia.
Qed.

(** C7, as the code has it: for a grid of 16-bit words whose length is
    [(w >>> 2) * (h >>> 2)] and at most 65536, so that every index fits
    one UTF-16 code unit, decomposing it into the index and value strings
    and decoding their concatenation gives the grid back, word for word,
    whatever the number of nonzero words. *)
Theorem DecomposeIndexIntoIV_roundtrip (grid : list Z) (w h : Z) :
  JS.is_u16_array grid = true →
  JS.len grid = JS.shru w 2 * JS.shru h 2 →
  JS.len grid <= 65536 →
  ∃ dest_i_str dest_v_str,
    BITS.c_DecomposeIndexIntoIV (Some grid) = Some (dest_i_str, dest_v_str)
    ∧ LBITS.DecodeBitmapIndexFromBinaryString (dest_i_str ++ dest_v_str) w h = grid.
Proof.
  intros Hu Hwh Hlen. rewrite c_DecomposeIndexIntoIV_nonzero.
  eexists _, _. split; [reflexivity|].
  pose proof (length_nonzero_from grid 0) as Hnz.
  rewrite DecodeBitmapIndexFromBinaryString_fold.
  - rewrite <- Hwh, zeros_len.
    apply (scatter_nonzero grid [] 0 Hu). unfold JS.len in *. simpl. lia.
  - by rewrite !length_map.
  - apply (is_u16_array_map_ToUint16 fst).
  - apply (is_u16_array_map_ToUint16 snd).
  - unfold JS.len in *. rewrite length_map. lia.
Qed.

Lemma DecomposeIndexIntoIV_roundtrip_witness :
  ∃ dest_i_str dest_v_str,
    BITS.c_DecomposeIndexIntoIV (Some [0; 1024; 0; 7]) = Some (dest_i_str, dest_v_str)
    ∧ LBITS.DecodeBitmapIndexFromBinaryString (dest_i_str ++ dest_v_str) 8 8
      = [0; 1024; 0; 7].
Proof.
  apply (DecomposeIndexIntoIV_roundtrip [0; 1024; 0; 7] 8 8);
    [reflexivity | reflexivity | vm_compute; discriminate].
Defined.

Lemma nonzero_from_zeros n l : ∀ off,
  Describe.nonzero_from off (replicate n 0 ++ l)
  = Describe.nonzero_from (off + Z.of_nat n) l.
Proof.
  induction n as [|n IH]; intros off; simpl replicate; simpl app.
  - f_equal. lia.
  - simpl Describe.nonzero_from. rewrite IH. f_equal. lia.
Qed.

Lemma filter_nonzero_zeros n : filter (fun v : Z => v ≠ 0) (replicate n 0) = [].
Proof.
  induction n as [|n IH]; [done|]. simpl replicate.
  rewrite filter_cons_False by (intros H; by apply H). exact IH.
Qed.

(** C7 as stated fails: the grid of a 2048x2048 tile (512x512 words) with
    the single nonzero word at index 65536 has one nonzero word, yet its
    index does not fit a UTF-16 code unit: it is stored as 0, and
    decoding sets word 0 instead of word 65536. *)
Lemma DecomposeIndexIntoIV_roundtrip_counterexample :
  let grid := JS.zeros 65536 ++ 1 :: JS.zeros 196607 in
  JS.is_u16_array grid = true
  ∧ JS.len grid = JS.shru 2048 2 * JS.shru 2048 2
  ∧ (length (filter (fun v : Z => v ≠ 0%Z) grid) ≤ 4096)%nat
  ∧ ∃ dest_i_str dest_v_str,
      BITS.c_DecomposeIndexIntoIV (Some grid) = Some (dest_i_str, dest_v_str)
      ∧ LBITS.DecodeBitmapIndexFromBinaryString (dest_i_str ++ dest_v_str) 2048 2048
        ≠ grid.
Proof.
  unfold JS.zeros.
  assert (∃ n, Z.to_nat 65536 = n ∧ Z.of_nat n = 65536) as (n & -> & Hn)
    by (eexists; split; [reflexivity | lia]).
  assert (∃ m, Z.to_nat 196607 = m ∧ Z.of_nat m = 196607) as (m & -> & Hm)
    by (eexists; split; [reflexivity | lia]).
  cbv zeta. split.
  { apply is_u16_array_Forall. apply Forall_app. split; [|constructor; [lia|]];
      apply Forall_replicate; lia. }
  split.
  { unfold JS.len. rewrite length_app, length_cons, !length_replicate.
    change (JS.shru 2048 2) with 512. lia. }
  split.
  { rewrite filter_app, filter_cons_True, !filter_nonzero_zeros by lia. simpl. lia. }
  rewrite c_DecomposeIndexIntoIV_nonzero. eexists _, _. split; [reflexivity|].
  rewrite nonzero_from_zeros. simpl Describe.nonzero_from.
  rewrite <- (app_nil_r (replicate m 0)), nonzero_from_zeros. simpl.
  rewrite Hn. change (JS.ToUint16 65536) with 0. change (JS.ToUint16 1) with 1.
  rewrite (DecodeBitmapIndexFromBinaryString_fold [0] [1]);
    [|reflexivity|reflexivity|reflexivity|reflexivity].
  simpl Describe.fold_idx. change (JS.shru 2048 2) with 512.
  unfold JS.put, JS.zeros, JS.int.
  assert (∃ k, Z.to_nat (512 * 512) = S k) as [k ->] by (exists (Z.to_nat 262143); lia).
  intros Heq. apply (f_equal (fun l => l !! 0%nat)) in Heq.
  destruct n as [|n']; [lia|].
  simpl in Heq. discriminate.
Qed.

(** ** The predicate *)

(** C2: while the layer is not ready, [ShouldLoadTile] returns true for
    every layerId, x, y, z and extent, and leaves the instance as it is. *)
Theorem ShouldLoadTile_not_ready
    (AddAllDefaultBitstores : LBITS.obj.t → JS.result LBITS.obj.t)
    (this : LBITS.obj.t) (layerId x y z : Z) (extent_u32 : option (list Z)) :
  LBITS.obj.isReady this = false →
  LBITS.ShouldLoadTile AddAllDefaultBitstores this layerId x y z extent_u32
  = JS.Normal (true, this).
Proof.
  intros Hready. unfold LBITS.ShouldLoadTile.
  rewrite Hready, andb_false_r. reflexivity.
Qed.

Lemma ShouldLoadTile_not_ready_witness :
  LBITS.obj.isReady Sample.layer = false
  ∧ LBITS.ShouldLoadTile JS.Normal Sample.layer 2 3 5 4 None
    = JS.Normal (true, Sample.layer).
Proof.
  split; [reflexivity|].
  apply (ShouldLoadTile_not_ready JS.Normal Sample.layer 2 3 5 4 None). reflexivity.
Defined.

(** A member answers false only when it is applicable to the tile and
    its scan finds no set bit. *)
Lemma BITS_ShouldLoadTile_false (bs bs' : BITS.obj.t) (layerId x y z : Z) (extent_u32 : option (list Z)) :
  BITS.ShouldLoadTile bs layerId x y z extent_u32 = JS.Normal (false, bs') →
  BITS.obj.isReady bs = true
  ∧ BITS.obj.needGet bs = false
  ∧ BITS.obj.layerId bs = layerId
  ∧ BITS.obj.z bs <= z
  ∧ BITS.CanIndexTile bs x y z extent_u32 = true
  ∧ BITS.DoesTileIntersectData bs' x y z = JS.Normal false.
Proof.
  unfold BITS.ShouldLoadTile.
  destruct (BITS.obj.isReady bs); simpl; [|discriminate].
  destruct (BITS.obj.needGet bs); simpl; [discriminate|].
  destruct (Z.eqb_spec (BITS.obj.layerId bs) layerId); simpl; [|discriminate].
  destruct (Z.leb_spec (BITS.obj.z bs) z); simpl; [|discriminate].
  destruct (BITS.CanIndexTile bs x y z extent_u32); simpl; [|discriminate].
  intros Hret.
  destruct (if BITS.obj.needProc bs then BITS.FinishLazyLoad bs else JS.Normal bs)
    as [bs1|]; simpl in Hret; [|discriminate].
  destruct (BITS.DoesTileIntersectData bs1 x y z) as [r|] eqn:Hr; simpl in Hret; [|discriminate].
  inversion Hret; subst. repeat split; auto.
Qed.

(** The member loop outside the full lazy load mode: the answer is the
    conjunction of the members' answers. *)
Lemma ShouldLoadTile_loop_conj (this : LBITS.obj.t) (layerId x y z : Z) (extent_u32 : option (list Z)) :
  LBITS.obj.idx_lazyload_detail this && negb (LBITS.obj.idx_lazyload_dim this) = false →
  ∀ rest pre shouldLoad,
    (∀ bs, bs ∈ rest → ∃ r, BITS.ShouldLoadTile bs layerId x y z extent_u32 = JS.Normal r) →
    ∃ b this',
      LBITS.ShouldLoadTile_loop this pre rest shouldLoad layerId x y z extent_u32
      = JS.Normal (b, this')
      ∧ (b = false ↔
         shouldLoad = false
         ∨ ∃ bs bs', bs ∈ rest
             ∧ BITS.ShouldLoadTile bs layerId x y z extent_u32 = JS.Normal (false, bs')).
Proof.
  intros Hmode rest. induction rest as [|bs rest IH]; intros pre shouldLoad Hok.
  - simpl. eexists _, _. split; [reflexivity|].
    split; [auto|]. intros [?|(bs & bs' & Hin & _)]; [done|]. by apply elem_of_nil in Hin.
  - simpl. rewrite Hmode. simpl.
    destruct shouldLoad.
    + destruct (Hok bs) as [[r bs'] Hr]; [left|]. rewrite Hr. simpl.
      destruct r; simpl.
      * destruct (IH (pre ++ [bs']) true) as (b & this' & Hloop & Hb).
        { intros bs0 Hin. apply Hok. by right. }
        exists b, this'. split; [exact Hloop|]. rewrite Hb. split.
        -- intros [?|(bs0 & bs0' & Hin & H0)]; [done|]. right.
           exists bs0, bs0'. split; [by right | done].
        -- intros [?|(bs0 & bs0' & Hin & H0)]; [done|]. right.
           apply elem_of_cons in Hin as [->|Hin]; [congruence|].
           exists bs0, bs0'. done.
      * eexists _, _. split; [reflexivity|]. split; [|done].
        intros _. right. exists bs, bs'. split; [left | done].
    + eexists _, _. split; [reflexivity|]. split; auto.
Qed.

(** C1, as the code has it: for a ready layer outside the full lazy
    load mode and a query that passes the layer's own checks (layerId,
    zoom range, x and y in range, extent), [ShouldLoadTile] returns false
    exactly when at least one member answers false, that is when one
    member that is ready, is not a husk, has the layer's id, sits at a
    zoom at most [z] and passes [CanIndexTile] finds no data under the
    tile.  One such member is enough, whatever the other applicable
    members report; members that are not applicable never cause false. *)
Theorem ShouldLoadTile_single_veto
    (AddAllDefaultBitstores : LBITS.obj.t → JS.result LBITS.obj.t)
    (this this1 : LBITS.obj.t) (layerId x y z : Z) (extent_u32 : option (list Z)) :
  LBITS.obj.layerId this = layerId →
  LBITS.obj.isReady this = true →
  (if LBITS.obj.idx_lazyload_detail this && negb (LBITS.obj._didLazyLoad this)
   then LBITS.FinishLazyLoadInit AddAllDefaultBitstores this
   else JS.Normal this) = JS.Normal this1 →
  LBITS.obj.minZ this1 <= z <= LBITS.obj.maxZ this1 →
  0 <= x < JS.shl 1 z →
  0 <= y < JS.shl 1 z →
  LBITS.IsTileInExtent this1 x y z extent_u32 = true →
  LBITS.obj.idx_lazyload_detail this1 && negb (LBITS.obj.idx_lazyload_dim this1) = false →
  forallb (fun bs => JS.returns (BITS.ShouldLoadTile bs layerId x y z extent_u32))
          (LBITS.obj.bitstores this1) = true →
  ∃ b this',
    LBITS.ShouldLoadTile AddAllDefaultBitstores this layerId x y z extent_u32
    = JS.Normal (b, this')
    ∧ (b = false ↔
       ∃ bs bs',
         bs ∈ LBITS.obj.bitstores this1
         ∧ BITS.obj.isReady bs = true
         ∧ BITS.obj.needGet bs = false
         ∧ BITS.obj.layerId bs = layerId
         ∧ BITS.obj.z bs <= z
         ∧ BITS.CanIndexTile bs x y z extent_u32 = true
         ∧ BITS.DoesTileIntersectData bs' x y z = JS.Normal false
         ∧ BITS.ShouldLoadTile bs layerId x y z extent_u32 = JS.Normal (false, bs')).
Proof.
  intros Hid Hready Hinit [Hz1 Hz2] [Hx1 Hx2] [Hy1 Hy2] Hext Hmode Hok.
  unfold LBITS.ShouldLoadTile.
  rewrite Hid, Z.eqb_refl, Hready. simpl andb. cbv iota.
  rewrite Hinit. simpl JS.bind. rewrite Hext.
  assert ((LBITS.obj.minZ this1 <=? z) && (z <=? LBITS.obj.maxZ this1) && (0 <=? x)
          && (0 <=? y) && (x <? JS.shl 1 z) && (y <? JS.shl 1 z) && true = true) as ->.
  { repeat (apply andb_true_iff; split); try done; lia. }
  destruct (ShouldLoadTile_loop_conj this1 layerId x y z extent_u32 Hmode
              (LBITS.obj.bitstores this1) [] true) as (b & this' & Hloop & Hb).
  { intros bs Hin. rewrite forallb_forall in Hok.
    apply list_elem_of_In, Hok in Hin.
    destruct (BITS.ShouldLoadTile bs layerId x y z extent_u32) as [r|]; [eauto | done]. }
  exists b, this'. split; [exact Hloop|]. rewrite Hb. split.
  - intros [?|(bs & bs' & Hin & Hbs)]; [done|].
    destruct (BITS_ShouldLoadTile_false _ _ _ _ _ _ _ Hbs) as (? & ? & ? & ? & ? & ?).
    exists bs, bs'. repeat split; done.
  - intros (bs & bs' & Hin & _ & _ & _ & _ & _ & _ & Hbs). right. eauto.
Qed.

Lemma ShouldLoadTile_single_veto_witness :
  ∃ b this',
    LBITS.ShouldLoadTile JS.Normal Sample.layer8_both 2 0 0 4 None = JS.Normal (b, this')
    ∧ (b = false ↔
       ∃ bs bs',
         bs ∈ LBITS.obj.bitstores (LBITS.obj.with_didLazyLoad true Sample.layer8_both)
         ∧ BITS.obj.isReady bs = true
         ∧ BITS.obj.needGet bs = false
         ∧ BITS.obj.layerId bs = 2
         ∧ BITS.obj.z bs <= 4
         ∧ BITS.CanIndexTile bs 0 0 4 None = true
         ∧ BITS.DoesTileIntersectData bs' 0 0 4 = JS.Normal false
         ∧ BITS.ShouldLoadTile bs 2 0 0 4 None = JS.Normal (false, bs')).
Proof.
  apply (ShouldLoadTile_single_veto JS.Normal Sample.layer8_both
           (LBITS.obj.with_didLazyLoad true Sample.layer8_both) 2 0 0 4 None);
    vm_compute; try reflexivity; repeat split; discriminate.
Defined.

(** C1 as stated fails.  In the sample layer the master index (0,0,0) is
    applicable to the tile (0,0,4) and reports that it intersects data,
    the finer index (0,0,1) is applicable too and reports that it does
    not, and the layer's answer is false. *)
Lemma ShouldLoadTile_counterexample :
  ∃ master finer this',
    LBITS.obj.bitstores Sample.layer8_both = [master; finer]
    ∧ LBITS.obj.layerId Sample.layer8_both = 2
    ∧ LBITS.obj.isReady Sample.layer8_both = true
    ∧ LBITS.obj.minZ Sample.layer8_both <= 4 <= LBITS.obj.maxZ Sample.layer8_both
    ∧ 0 <= 0 < JS.shl 1 4
    ∧ LBITS.IsTileInExtent Sample.layer8_both 0 0 4 None = true
    ∧ BITS.obj.isReady master = true
    ∧ BITS.CanIndexTile master 0 0 4 None = true
    ∧ BITS.DoesTileIntersectData master 0 0 4 = JS.Normal true
    ∧ BITS.ShouldLoadTile master 2 0 0 4 None = JS.Normal (true, master)
    ∧ BITS.ShouldLoadTile finer 2 0 0 4 None = JS.Normal (false, finer)
    ∧ LBITS.ShouldLoadTile JS.Normal Sample.layer8_both 2 0 0 4 None
      = JS.Normal (false, this').
Proof.
  eexists _, _, _. split; [vm_compute; reflexivity|].
  vm_compute. repeat split; try reflexivity; discriminate.
Qed.

(** ** Packing a raster into the bitmap *)

Lemma shl_small a n : 0 <= n <= 30 → 0 <= a → a * 2 ^ n < 2 ^ 31 → JS.shl a n = a * 2 ^ n.
Proof.
  intros Hn Ha Hlt. unfold JS.shl. rewrite shift_amount by lia.
  assert (a < 2 ^ 31).
  { assert (1 <= 2 ^ n) by (apply Z.pow_le_mono_r with (b := 0); lia). nia. }
  rewrite (ToInt32_small a) by lia.
  rewrite Z.shiftl_mul_pow2 by lia. apply ToInt32_small. lia.
Qed.

Lemma shru_small a n : 0 <= n <= 31 → 0 <= a < 2 ^ 32 → JS.shru a n = a `div` 2 ^ n.
Proof.
  intros Hn Ha. unfold JS.shru. rewrite shift_amount by lia.
  rewrite ToUint32_small by lia. apply Z.shiftr_div_pow2. lia.
Qed.

Lemma shl_1 j : 0 <= j <= 30 → JS.shl 1 j = 2 ^ j.
Proof.
  intros. rewrite shl_small; [lia | lia | lia |].
  rewrite Z.mul_1_l. apply Z.pow_lt_mono_r; lia.
Qed.

Lemma land_pow2 v j : 0 <= j → Z.land v (2 ^ j) = if Z.testbit v j then 2 ^ j else 0.
Proof.
  intros Hj. apply Z.bits_inj'. intros n Hn.
  rewrite Z.land_spec, Z.pow2_bits_eqb by lia.
  destruct (Z.eqb_spec j n) as [->|Hne].
  - destruct (Z.testbit v n); simpl.
    + rewrite Z.pow2_bits_true; lia.
    + apply eq_sym, Z.bits_0.
  - rewrite andb_false_r. destruct (Z.testbit v j).
    + rewrite Z.pow2_bits_false; lia.
    + apply eq_sym, Z.bits_0.
Qed.

(** The bit test of [c_GetBit] reads bit [j] of the word. *)
Lemma band_bit v j :
  0 <= v < 2 ^ 31 → 0 <= j <= 30 →
  negb (JS.band v (JS.shl 1 j) =? 0) = Z.testbit v j.
Proof.
  intros Hv Hj. rewrite shl_1 by lia. unfold JS.band.
  assert (0 < 2 ^ j < 2 ^ 31) by (split; [lia | apply Z.pow_lt_mono_r; lia]).
  rewrite (ToInt32_small v), (ToInt32_small (2 ^ j)) by lia.
  rewrite land_pow2 by lia.
  destruct (Z.testbit v j).
  - rewrite ToInt32_small by lia. destruct (Z.eqb_spec (2 ^ j) 0); [lia | done].
  - reflexivity.
Qed.

Lemma testbit_small c i j : 0 <= c < 2 ^ i → i <= j → Z.testbit c j = false.
Proof.
  intros Hc Hij. destruct (Z.eq_dec c 0) as [->|]; [apply Z.bits_0|].
  apply Z.bits_above_log2; [lia|].
  assert (Z.log2 c < i); [|lia]. apply Z.log2_lt_pow2; lia.
Qed.

Lemma lor_pow2_add c j : 0 <= c < 2 ^ j → 0 <= j → Z.lor c (2 ^ j) = c + 2 ^ j.
Proof.
  intros Hc Hj.
  assert (Z.land c (2 ^ j) = 0) as Hland.
  { rewrite land_pow2 by lia. by rewrite (testbit_small c j j) by lia. }
  rewrite Z.add_nocarry_lxor by done. symmetry. by apply Z.lxor_lor.
Qed.

Lemma bor_pow2 c j :
  0 <= c < 2 ^ j → 0 <= j <= 30 → JS.bor c (JS.shl 1 j) = Z.lor c (2 ^ j).
Proof.
  intros Hc Hj. rewrite shl_1 by lia. unfold JS.bor.
  assert (0 < 2 ^ j < 2 ^ 31) by (split; [lia | apply Z.pow_lt_mono_r; lia]).
  rewrite (ToInt32_small c), (ToInt32_small (2 ^ j)) by lia.
  apply ToInt32_small. rewrite lor_pow2_add by lia.
  assert (2 ^ j <= 2 ^ 30) by (apply Z.pow_le_mono_r; lia). lia.
Qed.

Lemma pack_bits_spec bits : ∀ c i,
  0 <= i → i + JS.len bits <= 31 → 0 <= c < 2 ^ i →
  0 <= Describe.pack_bits bits c i < 2 ^ (i + JS.len bits)
  ∧ (∀ j, 0 <= j < i → Z.testbit (Describe.pack_bits bits c i) j = Z.testbit c j)
  ∧ (∀ (k : nat) b, bits !! k = Some b →
       Z.testbit (Describe.pack_bits bits c i) (i + Z.of_nat k) = b).
Proof.
  induction bits as [|b bits IH]; intros c i Hi Hlen Hc.
  - simpl. unfold JS.len. simpl. rewrite Z.add_0_r. repeat split; try lia; try done.
  - unfold JS.len in *. rewrite length_cons in *. simpl Describe.pack_bits.
    set (c' := if b then JS.bor c (JS.shl 1 i) else c).
    assert (Hpow : 2 ^ (i + 1) = 2 * 2 ^ i) by (rewrite Z.pow_add_r by lia; lia).
    assert (Hc' : 0 <= c' < 2 ^ (i + 1)
                  ∧ (∀ j, 0 <= j < i → Z.testbit c' j = Z.testbit c j)
                  ∧ Z.testbit c' i = b).
    { unfold c'. destruct b.
      - rewrite bor_pow2 by lia. split; [|split].
        + rewrite lor_pow2_add by lia. lia.
        + intros j Hj. rewrite Z.lor_spec, Z.pow2_bits_eqb by lia.
          destruct (Z.eqb_spec i j); [lia|]. by rewrite orb_false_r.
        + rewrite Z.lor_spec, Z.pow2_bits_eqb, Z.eqb_refl by lia. apply orb_true_r.
      - split; [lia|]. split; [done|]. apply (testbit_small c i); lia. }
    destruct Hc' as (Hr & Hlow & Hbit).
    destruct (IH c' (i + 1)) as (R & L & B); [lia | lia | lia |].
    replace (i + 1 + Z.of_nat (length bits)) with (i + Z.of_nat (S (length bits))) in R by lia.
    split; [exact R|]. split.
    + intros j Hj. rewrite L by lia. apply Hlow. lia.
    + intros [|k] b' Hk; simpl in Hk.
      * injection Hk as <-. rewrite Z.add_0_r, L by lia. exact Hbit.
      * replace (i + Z.of_nat (S k)) with (i + 1 + Z.of_nat k) by lia. by apply B.
Qed.

Lemma gt_get_eq (src : list Z) i j t : i = j → JS.gt (JS.get src i) t = JS.gt (JS.get src j) t.
Proof. by intros ->. Qed.

(** Packing a concatenation packs the parts one after the other. *)
Lemma pack_bits_app l1 : ∀ l2 c idx,
  Describe.pack_bits (l1 ++ l2) c idx
  = Describe.pack_bits l2 (Describe.pack_bits l1 c idx) (idx + JS.len l1).
Proof.
  induction l1 as [|b l1 IH]; intros l2 c idx; simpl.
  - f_equal. unfold JS.len. simpl. lia.
  - rewrite IH. f_equal. unfold JS.len. rewrite length_cons. lia.
Qed.

(** One row of the cell loop sets the bits of the row, in order. *)
Lemma iterate_pack_bits (g : Z → bool) (step : Z) (n : nat) : ∀ i c idx,
  JS.iterate n i step
    (fun bitX '(cellValue, idxCount) =>
       ((if g bitX then JS.bor cellValue (JS.shl 1 idxCount) else cellValue),
        idxCount + 1)) (c, idx)
  = (Describe.pack_bits (map (fun k => g (i + Z.of_nat k * step)) (seq 0 n)) c idx,
     idx + Z.of_nat n).
Proof.
  induction n as [|n IH]; intros i c idx.
  - simpl. f_equal. lia.
  - cbn [JS.iterate]. rewrite IH. cbn [seq map Describe.pack_bits].
    replace (i + Z.of_nat 0 * step) with i by lia.
    rewrite <- seq_shift, map_map. f_equal; [|lia].
    f_equal. apply map_ext. intros k. f_equal. lia.
Qed.

(** The cell loop sets the bits of [cell_bits], in order. *)
Lemma GetBitmapCellFromPlanarTile_u16_pack (src : list Z) (x y offset threshold w h bytes_per_row : Z) :
  JS.len src = bytes_per_row * h →
  BITS.GetBitmapCellFromPlanarTile_u16 src x y offset 4 threshold w h bytes_per_row
  = Some (Describe.pack_bits (Describe.cell_bits src x y offset 4 threshold w) 0 0).
Proof.
  intros Hlen. unfold BITS.GetBitmapCellFromPlanarTile_u16.
  rewrite Hlen, Z.eqb_refl. unfold JS.for_lt.
  replace (JS.trips y (y + 4) 1) with 4%nat
    by (replace (y + 4) with (y + Z.of_nat 4 * 1) by lia; by rewrite trips_exact).
  replace (JS.trips x (x + 4 * 4) 4) with 4%nat
    by (replace (x + 4 * 4) with (x + Z.of_nat 4 * 4) by lia; by rewrite trips_exact).
  set (row := fun bitY : Z =>
         map (fun k => JS.gt (JS.get src (bitY * w * 4 + (x + Z.of_nat k * 4) + offset))
                             (Some (threshold - 1))) (seq 0 4)).
  assert (Hrow : ∀ bitY c idx,
            JS.iterate 4 x 4
              (fun bitX '(cellValue, idxCount) =>
                 ((if JS.gt (JS.get src (bitY * w * 4 + bitX + offset)) (Some (threshold - 1))
                   then JS.bor cellValue (JS.shl 1 idxCount) else cellValue),
                  idxCount + 1)) (c, idx)
            = (Describe.pack_bits (row bitY) c idx, idx + 4)).
  { intros bitY c idx.
    apply (iterate_pack_bits
             (fun bitX => JS.gt (JS.get src (bitY * w * 4 + bitX + offset))
                                (Some (threshold - 1))) 4 4 x c idx). }
  assert (Hout : ∀ (F : Z → Z * Z → Z * Z) s,
            JS.iterate 4 y 1 F s = F (y + 1 + 1 + 1) (F (y + 1 + 1) (F (y + 1) (F y s))))
    by reflexivity.
  rewrite Hout. cbv beta zeta. rewrite !Hrow.
  assert (Describe.cell_bits src x y offset 4 threshold w
          = row y ++ row (y + 1) ++ row (y + 1 + 1) ++ row (y + 1 + 1 + 1)) as ->.
  { unfold Describe.cell_bits, row. cbn [flat_map map seq app].
    repeat (apply (f_equal2 cons); [apply gt_get_eq; lia|]). reflexivity. }
  rewrite !pack_bits_app. reflexivity.
Qed.

Lemma get_put wrap (l : list Z) i v k :
  JS.get (JS.put wrap l i v) k
  = if (k =? i) && (0 <=? k) && (k <? JS.len l) then Some (wrap (JS.int v)) else JS.get l k.
Proof.
  destruct (Z.eqb_spec k i) as [->|Hne]; simpl.
  - destruct (Z.leb_spec 0 i); simpl.
    + destruct (Z.ltb_spec i (JS.len l)).
      * by apply get_put_eq.
      * unfold JS.put, JS.get, JS.len in *. destruct (Z.ltb_spec i 0); [lia|].
        rewrite list_insert_ge by lia. reflexivity.
    + unfold JS.put. destruct (Z.ltb_spec i 0); [done | lia].
  - apply get_put_ne. auto.
Qed.

Lemma get_ge (l : list Z) k : JS.len l <= k → JS.get l k = None.
Proof.
  intros. unfold JS.get, JS.len in *. destruct (Z.ltb_spec k 0); [done|].
  apply lookup_ge_None. lia.
Qed.

Lemma get_neg (l : list Z) k : k < 0 → JS.get l k = None.
Proof. intros. unfold JS.get. destruct (Z.ltb_spec k 0); [done | lia]. Qed.

(** One row of cells: [n] consecutive words from [base] on. *)
Lemma fill_row (f : Z → JS.num) (base : Z) (n : nat) (dest : list Z) :
  0 <= base →
  ∃ d',
    JS.iterate n 0 16
      (fun x '(dest, bsX) => (JS.set_u16 dest (base + bsX) (f x), bsX + 1)) (dest, 0)
    = (d', Z.of_nat n)
    ∧ length d' = length dest
    ∧ ∀ k, JS.get d' k
           = if (base <=? k) && (k <? base + Z.of_nat n) && (k <? JS.len dest)
             then Some (JS.ToUint16 (JS.int (f (16 * (k - base)))))
             else JS.get dest k.
Proof.
  intros Hbase. induction n as [|n (d & Hd & Hlen & Hget)].
  - exists dest. split; [done|]. split; [done|]. intros k.
    destruct (Z.leb_spec base k), (Z.ltb_spec k (base + Z.of_nat 0)); simpl; try done; lia.
  - rewrite iterate_S_r, Hd.
    eexists. split; [f_equal; lia|]. split.
    { unfold JS.set_u16. by rewrite length_put. }
    intros k. unfold JS.set_u16. rewrite get_put, Hget.
    assert (JS.len d = JS.len dest) as -> by (unfold JS.len; by rewrite Hlen).
    replace (0 + Z.of_nat n * 16) with (16 * Z.of_nat n) by lia.
    destruct (Z.eqb_spec k (base + Z.of_nat n)) as [->|Hne]; cbn [andb].
    + destruct (Z.leb_spec 0 (base + Z.of_nat n)); [|lia]. cbn [andb].
      destruct (Z.leb_spec base (base + Z.of_nat n)); [|lia].
      destruct (Z.ltb_spec (base + Z.of_nat n) (base + Z.of_nat (S n))); [|lia].
      destruct (Z.ltb_spec (base + Z.of_nat n) (base + Z.of_nat n)); [lia|].
      cbn [andb]. destruct (Z.ltb_spec (base + Z.of_nat n) (JS.len dest)).
      * replace (base + Z.of_nat n - base) with (Z.of_nat n) by lia. reflexivity.
      * rewrite get_ge; [done | lia].
    + destruct (Z.leb_spec base k); cbn [andb]; [|done].
      destruct (Z.ltb_spec k (base + Z.of_nat n)), (Z.ltb_spec k (base + Z.of_nat (S n)));
        cbn [andb]; try done; lia.
Qed.

Lemma div_mod_row k m bw :
  0 < bw → m * bw <= k < (m + 1) * bw → k `div` bw = m ∧ k `mod` bw = k - m * bw.
Proof.
  intros Hbw Hk.
  assert (k `div` bw = m) as Hd.
  { symmetry. apply (Z.div_unique k bw m (k - m * bw)); lia. }
  split; [done|]. rewrite Z.mod_eq by lia. rewrite Hd. lia.
Qed.

(** All rows: the words below [m * bw] hold their cells. *)
Lemma fill_grid (cell : Z → Z → JS.num) (bpr : Z) (bw m : nat) (dest0 : list Z) :
  JS.trips 0 bpr 16 = bw → (0 < bw)%nat →
  ∃ d',
    JS.iterate m 0 4
      (fun y '(dest, bsY_bW) =>
         let '(dest, _) :=
           JS.for_lt 0 bpr 16 (fun x '(dest, bsX) =>
             (JS.set_u16 dest (bsY_bW + bsX) (cell x y), bsX + 1)) (dest, 0) in
         (dest, bsY_bW + Z.of_nat bw)) (dest0, 0)
    = (d', Z.of_nat m * Z.of_nat bw)
    ∧ length d' = length dest0
    ∧ ∀ k, JS.get d' k
           = if (0 <=? k) && (k <? Z.of_nat m * Z.of_nat bw) && (k <? JS.len dest0)
             then Some (JS.ToUint16 (JS.int
                    (cell (16 * (k `mod` Z.of_nat bw)) (4 * (k `div` Z.of_nat bw)))))
             else JS.get dest0 k.
Proof.
  intros Htrips Hbw. induction m as [|m (d & Hd & Hlen & Hget)].
  - exists dest0. split; [done|]. split; [done|]. intros k.
    destruct (Z.leb_spec 0 k), (Z.ltb_spec k (Z.of_nat 0 * Z.of_nat bw));
      cbn [andb]; try done; lia.
  - rewrite iterate_S_r, Hd. unfold JS.for_lt. rewrite Htrips.
    destruct (fill_row (fun x => cell x (0 + Z.of_nat m * 4)) (Z.of_nat m * Z.of_nat bw) bw d)
      as (d2 & Hd2 & Hlen2 & Hget2); [lia|].
    rewrite Hd2. eexists. split; [f_equal; lia|]. split; [congruence|].
    intros k. rewrite Hget2, Hget.
    assert (JS.len d = JS.len dest0) as -> by (unfold JS.len; by rewrite Hlen).
    repeat match goal with
           | |- context [?a <? ?b] => destruct (Z.ltb_spec a b)
           | |- context [?a <=? ?b] => destruct (Z.leb_spec a b)
           end; cbn [andb]; try done; try lia.
    destruct (div_mod_row k (Z.of_nat m) (Z.of_nat bw)) as [-> ->]; [lia | lia |].
    do 4 f_equal; lia.
Qed.

Lemma length_cell_bits src x y offset stride threshold w :
  JS.len (Describe.cell_bits src x y offset stride threshold w) = 16.
Proof. reflexivity. Qed.

Lemma pack_bits_cell_range src x y offset stride threshold w :
  0 <= Describe.pack_bits (Describe.cell_bits src x y offset stride threshold w) 0 0 < 2 ^ 16.
Proof.
  destruct (pack_bits_spec (Describe.cell_bits src x y offset stride threshold w) 0 0)
    as [H _]; rewrite ?length_cell_bits; try lia.
  rewrite length_cell_bits in H. exact H.
Qed.

(** Without the recovery passes, word [k] of the bitmap packs the 4x4
    block of pixels at block column [k mod (w/4)], block row [k / (w/4)]. *)
Lemma GetBitmapFromRGBA8888Tile_cells (src : list Z) (ch_offset alpha_threshold unshd_threshold w h : Z) :
  0 < w → 0 < h → w `mod` 4 = 0 → h `mod` 4 = 0 → w * h < 2 ^ 29 →
  JS.len src = w * h * 4 →
  ∃ dest,
    BITS.GetBitmapFromRGBA8888Tile (Some src) false false ch_offset alpha_threshold
      unshd_threshold w h = JS.Normal (Some dest)
    ∧ JS.len dest = (w `div` 4) * (h `div` 4)
    ∧ ∀ k, 0 <= k < JS.len dest →
        JS.get dest k
        = Some (Describe.pack_bits
                  (Describe.cell_bits src (16 * (k `mod` (w `div` 4)))
                     (4 * (k `div` (w `div` 4))) ch_offset 4 alpha_threshold w) 0 0).
Proof.
  intros Hw Hh Hw4 Hh4 Hsize Hlen.
  assert (Hwd : w = 4 * (w `div` 4)) by (pose proof (Z.div_mod w 4); lia).
  assert (Hhd : h = 4 * (h `div` 4)) by (pose proof (Z.div_mod h 4); lia).
  assert (Hwh : w < 2 ^ 29 ∧ h < 2 ^ 29) by nia.
  set (bw := Z.to_nat (w `div` 4)). set (bh := Z.to_nat (h `div` 4)).
  assert (Hbw : Z.of_nat bw = w `div` 4) by (unfold bw; lia).
  assert (Hbh : Z.of_nat bh = h `div` 4) by (unfold bh; lia).
  unfold BITS.GetBitmapFromRGBA8888Tile.
  rewrite shl_small by lia. change (2 ^ 2) with 4. rewrite Hlen, Z.eqb_refl.
  rewrite !shru_small by lia. change (2 ^ 2) with 4.
  unfold JS.for_lt at 1.
  assert (JS.trips 0 h 4 = bh) as ->.
  { rewrite Hhd at 1. rewrite <- Hbh. replace (4 * Z.of_nat bh) with (0 + Z.of_nat bh * 4) by lia.
    apply trips_exact. lia. }
  assert (Htr : JS.trips 0 (w * 4) 16 = bw).
  { rewrite Hwd at 1. rewrite <- Hbw.
    replace (4 * Z.of_nat bw * 4) with (0 + Z.of_nat bw * 16) by lia.
    apply trips_exact. lia. }
  rewrite <- Hbw.
  destruct (fill_grid
              (fun x y => BITS.GetBitmapCellFromPlanarTile_u16 src x y ch_offset 4
                            alpha_threshold w h (w * 4))
              (w * 4) bw bh (JS.zeros (Z.of_nat bw * (h `div` 4))) Htr)
    as (d & Hd & Hdl & Hget); [lia|].
  rewrite Hd. exists d. split; [reflexivity|].
  assert (Hld : JS.len d = Z.of_nat bw * (h `div` 4)).
  { unfold JS.len. rewrite Hdl. unfold JS.zeros. rewrite length_replicate. nia. }
  split; [exact Hld|].
  intros k Hk. rewrite Hget.
  assert (JS.len (JS.zeros (Z.of_nat bw * (h `div` 4))) = Z.of_nat bw * (h `div` 4)) as ->.
  { unfold JS.len, JS.zeros. rewrite length_replicate. nia. }
  destruct (Z.leb_spec 0 k); [|lia].
  destruct (Z.ltb_spec k (Z.of_nat bh * Z.of_nat bw)); [|nia].
  destruct (Z.ltb_spec k (Z.of_nat bw * (h `div` 4))); [|lia].
  cbn [andb]. rewrite GetBitmapCellFromPlanarTile_u16_pack by lia.
  unfold JS.int. cbn [default]. rewrite ToUint16_small by apply pack_bits_cell_range.
  reflexivity.
Qed.

Lemma cell_bits_lookup src x y offset stride threshold w (r c : Z) :
  0 <= r < 4 → 0 <= c < 4 →
  Describe.cell_bits src x y offset stride threshold w !! Z.to_nat (4 * r + c)
  = Some (JS.gt (JS.get src ((y + r) * w * stride + (x + c * stride) + offset))
                (Some (threshold - 1))).
Proof.
  intros Hr Hc.
  assert (r = 0 ∨ r = 1 ∨ r = 2 ∨ r = 3) as [-> | [-> | [-> | ->]]] by lia;
    assert (c = 0 ∨ c = 1 ∨ c = 2 ∨ c = 3) as [-> | [-> | [-> | ->]]] by lia;
    reflexivity.
Qed.

Lemma gt_pred_ge (v : JS.num) (t : Z) : JS.gt v (Some (t - 1)) = JS.ge v (Some t).
Proof.
  destruct v as [z|]; [|done]. unfold JS.gt, JS.lt, JS.ge, JS.le.
  destruct (Z.ltb_spec (t - 1) z), (Z.leb_spec t z); try done; lia.
Qed.

(** The bit read back for a pixel is the threshold test on its byte. *)
Lemma GetBit_after_build (src : list Z) (ch_offset alpha_threshold unshd_threshold w h x y : Z) :
  w `mod` 4 = 0 → h `mod` 4 = 0 → w * h < 2 ^ 29 →
  JS.len src = w * h * 4 →
  0 <= x < w → 0 <= y < h →
  ∃ dest,
    BITS.GetBitmapFromRGBA8888Tile (Some src) false false ch_offset alpha_threshold
      unshd_threshold w h = JS.Normal (Some dest)
    ∧ BITS.c_GetBit dest x y w h
      = JS.ge (JS.get src (4 * (y * w + x) + ch_offset)) (Some alpha_threshold).
Proof.
  intros Hw4 Hh4 Hsize Hlen Hx Hy.
  destruct (GetBitmapFromRGBA8888Tile_cells src ch_offset alpha_threshold unshd_threshold
              w h) as (dest & Hbuild & Hdl & Hget); try lia.
  exists dest. split; [exact Hbuild|].
  assert (Hwd : w = 4 * (w `div` 4)) by (pose proof (Z.div_mod w 4); lia).
  assert (Hhd : h = 4 * (h `div` 4)) by (pose proof (Z.div_mod h 4); lia).
  assert (Hwh : w < 2 ^ 29 ∧ h < 2 ^ 29) by nia.
  pose proof (Z.div_mod x 4 ltac:(lia)) as Hxd.
  pose proof (Z.div_mod y 4 ltac:(lia)) as Hyd.
  pose proof (Z.mod_pos_bound x 4 ltac:(lia)) as Hxm.
  pose proof (Z.mod_pos_bound y 4 ltac:(lia)) as Hym.
  assert (Hxq : 0 <= x `div` 4 < w `div` 4) by lia.
  assert (Hyq : 0 <= y `div` 4 < h `div` 4) by lia.
  set (k := y `div` 4 * (w `div` 4) + x `div` 4).
  assert (Hk : 0 <= k < JS.len dest) by (rewrite Hdl; unfold k; nia).
  destruct (div_mod_row k (y `div` 4) (w `div` 4)) as [Hkd Hkm]; [lia | unfold k; nia |].
  unfold BITS.c_GetBit, BITS.c_GetBitReusingIdx.
  rewrite !shru_small by lia. change (2 ^ 2) with 4. fold k.
  rewrite Hget by exact Hk. unfold JS.int. cbn [default]. unfold id.
  rewrite (shl_small (y `div` 4) 2), (shl_small (x `div` 4) 2) by lia.
  change (2 ^ 2) with 4. rewrite (shl_small _ 2) by lia. change (2 ^ 2) with 4.
  replace (y - y `div` 4 * 4) with (y `mod` 4) by lia.
  replace (x - x `div` 4 * 4) with (x `mod` 4) by lia.
  rewrite band_bit.
  2: { pose proof (pack_bits_cell_range src (16 * (k `mod` (w `div` 4)))
                     (4 * (k `div` (w `div` 4))) ch_offset 4 alpha_threshold w). lia. }
  2: lia.
  destruct (pack_bits_spec
              (Describe.cell_bits src (16 * (k `mod` (w `div` 4)))
                 (4 * (k `div` (w `div` 4))) ch_offset 4 alpha_threshold w) 0 0)
    as (_ & _ & Hbits); rewrite ?length_cell_bits; try lia.
  specialize (Hbits (Z.to_nat (4 * (y `mod` 4) + x `mod` 4)) _
                (cell_bits_lookup _ _ _ _ _ _ _ (y `mod` 4) (x `mod` 4) Hym Hxm)).
  replace (0 + Z.of_nat (Z.to_nat (4 * (y `mod` 4) + x `mod` 4)))
    with (y `mod` 4 * 4 + x `mod` 4) in Hbits by lia.
  rewrite Hbits, gt_pred_ge. do 2 f_equal. rewrite Hkd, Hkm. unfold k. lia.
Qed.

(** *** The sample rasters *)

Lemma flat_map4_lookup {A : Type} (f : A → list Z) (l : list A) : ∀ (i : nat) a (j : nat),
  (∀ a, length (f a) = 4%nat) → l !! i = Some a → (j < 4)%nat →
  flat_map f l !! (4 * i + j)%nat = f a !! j.
Proof.
  induction l as [|a0 l IH]; intros i a j Hf Hi Hj; [done|].
  simpl flat_map. destruct i as [|i].
  - injection Hi as ->. rewrite lookup_app_l by (rewrite Hf; lia). f_equal.
  - rewrite lookup_app_r by (rewrite Hf; lia). rewrite Hf.
    replace (4 * S i + j - 4)%nat with (4 * i + j)%nat by lia. by apply IH.
Qed.

Lemma length_flat_map4 {A : Type} (f : A → list Z) (l : list A) :
  (∀ a, length (f a) = 4%nat) → length (flat_map f l) = (4 * length l)%nat.
Proof.
  intros Hf. induction l as [|a l IH]; [done|].
  simpl flat_map. rewrite length_app, Hf, IH. simpl. lia.
Qed.

Lemma len_raster_of w h alpha : 0 <= w * h → JS.len (Sample.raster_of w h alpha) = w * h * 4.
Proof.
  intros. unfold JS.len, Sample.raster_of.
  rewrite length_flat_map4 by done. rewrite length_seqZ. lia.
Qed.

Lemma get_raster_of_alpha w h alpha i :
  0 <= i < w * h →
  JS.get (Sample.raster_of w h alpha) (4 * i + 3) = Some (alpha (i `mod` w) (i `div` w)).
Proof.
  intros Hi. unfold JS.get. destruct (Z.ltb_spec (4 * i + 3) 0); [lia|].
  replace (Z.to_nat (4 * i + 3)) with (4 * Z.to_nat i + 3)%nat by lia.
  unfold Sample.raster_of.
  rewrite (flat_map4_lookup _ _ (Z.to_nat i) i 3); [reflexivity | done | | lia].
  rewrite lookup_seqZ. split; [lia|]. lia.
Qed.

Lemma hot_raster_bit (k r c : Z) :
  0 <= k < 4096 → 0 <= r < 4 → 0 <= c < 4 →
  JS.gt (JS.get Sample.hot_raster
           ((4 * (k `div` 64) + r) * 256 * 4 + (16 * (k `mod` 64) + c * 4) + 3))
        (Some (1 - 1))
  = (k =? 130) && (r =? 2) && (c =? 2).
Proof.
  intros Hk Hr Hc.
  pose proof (Z.div_mod k 64 ltac:(lia)) as Hkd.
  pose proof (Z.mod_pos_bound k 64 ltac:(lia)) as Hkm.
  assert (0 <= k `div` 64 < 64) by lia.
  set (i := (4 * (k `div` 64) + r) * 256 + (4 * (k `mod` 64) + c)).
  replace ((4 * (k `div` 64) + r) * 256 * 4 + (16 * (k `mod` 64) + c * 4) + 3)
    with (4 * i + 3) by (unfold i; lia).
  unfold Sample.hot_raster. rewrite get_raster_of_alpha by (unfold i; lia).
  assert (i `div` 256 = 4 * (k `div` 64) + r) as ->.
  { symmetry. apply (Z.div_unique i 256 _ (4 * (k `mod` 64) + c)); unfold i; lia. }
  assert (i `mod` 256 = 4 * (k `mod` 64) + c) as ->.
  { symmetry. apply (Z.mod_unique i 256 (4 * (k `div` 64) + r)); unfold i; lia. }
  unfold JS.gt, JS.lt. change (1 - 1) with 0.
  destruct (Z.eqb_spec k 130) as [->|Hne].
  - change (130 `mod` 64) with 2. change (130 `div` 64) with 2.
    destruct (Z.eqb_spec r 2) as [->|], (Z.eqb_spec c 2) as [->|]; cbn [andb].
    + reflexivity.
    + destruct (Z.eqb_spec (4 * 2 + c) 10); [lia|]. reflexivity.
    + destruct (Z.eqb_spec (4 * 2 + r) 10); [lia|]. by rewrite andb_false_r.
    + destruct (Z.eqb_spec (4 * 2 + c) 10); [lia|]. reflexivity.
  - cbn [andb].
    destruct (Z.eqb_spec (4 * (k `mod` 64) + c) 10), (Z.eqb_spec (4 * (k `div` 64) + r) 10);
      cbn [andb]; try reflexivity. lia.
Qed.

(** The documented scenario: one word, index 130, value 1024. *)
Lemma hot_raster_bitmap :
  ∃ dest,
    BITS.GetBitmapFromRGBA8888Tile (Some Sample.hot_raster) false false 3 1 1 256 256
    = JS.Normal (Some dest)
    ∧ JS.len dest = 4096
    ∧ ∀ k, 0 <= k < 4096 → JS.get dest k = Some (if k =? 130 then 1024 else 0).
Proof.
  destruct (GetBitmapFromRGBA8888Tile_cells Sample.hot_raster 3 1 1 256 256)
    as (dest & Hbuild & Hdl & Hget);
    [lia | lia | reflexivity | reflexivity | lia
    | unfold Sample.hot_raster; rewrite len_raster_of; lia |].
  change (256 `div` 4) with 64 in *. change (64 * 64) with 4096 in Hdl.
  exists dest. split; [exact Hbuild|]. split; [exact Hdl|].
  intros k Hk. rewrite Hget by lia. f_equal.
  unfold Describe.cell_bits. cbn [flat_map map app].
  rewrite !hot_raster_bit by lia.
  destruct (Z.eqb_spec k 130) as [->|Hne]; vm_compute; reflexivity.
Qed.

(** C3, as the code has it: for a raster of length [w*h*4] whose width
    and height are multiples of 4 (the grid has [w/4] x [h/4] words) with
    [w*h < 2^29] (so that [(w*h) << 2] does not wrap), and with both
    recovery passes off, [GetBit(x, y)] on the bitmap built by
    [GetBitmapFromRGBA8888Tile] equals
    [src[4*(y*w+x)+ch_offset] >= alpha_threshold] for every pixel of the
    tile.  And the 256x256 raster with 200 in channel 3 at pixel (10,10)
    and 0 elsewhere gives, with threshold 1, the grid of 4096 words whose
    only nonzero word is word 130, with value 1024. *)
Theorem GetBitmapFromRGBA8888Tile_GetBit :
  (∀ (src : list Z) (ch_offset alpha_threshold unshd_threshold w h x y : Z),
     w `mod` 4 = 0 → h `mod` 4 = 0 → w * h < 2 ^ 29 →
     JS.len src = w * h * 4 →
     0 <= x < w → 0 <= y < h →
     ∃ dest,
       BITS.GetBitmapFromRGBA8888Tile (Some src) false false ch_offset alpha_threshold
         unshd_threshold w h = JS.Normal (Some dest)
       ∧ BITS.c_GetBit dest x y w h
         = JS.ge (JS.get src (4 * (y * w + x) + ch_offset)) (Some alpha_threshold))
  ∧ (∃ dest,
       BITS.GetBitmapFromRGBA8888Tile (Some Sample.hot_raster) false false 3 1 1 256 256
       = JS.Normal (Some dest)
       ∧ JS.len dest = 4096
       ∧ ∀ k, 0 <= k < 4096 → JS.get dest k = Some (if k =? 130 then 1024 else 0)).
Proof.
  split.
  - intros. by apply GetBit_after_build.
  - exact hot_raster_bitmap.
Qed.

Lemma GetBitmapFromRGBA8888Tile_GetBit_witness :
  ∃ dest,
    BITS.GetBitmapFromRGBA8888Tile (Some Sample.finer_raster) false false 3 1 1 8 8
    = JS.Normal (Some dest)
    ∧ BITS.c_GetBit dest 1 1 8 8
      = JS.ge (JS.get Sample.finer_raster (4 * (1 * 8 + 1) + 3)) (Some 1).
Proof.
  apply (proj1 GetBitmapFromRGBA8888Tile_GetBit Sample.finer_raster 3 1 1 8 8 1 1);
    first [reflexivity | lia].
Defined.

(** C3 as stated fails when the width is not a multiple of 4: a 2x2
    raster, opaque everywhere, has the right length, yet the grid has no
    word at all and [GetBit(0, 0)] is false. *)
Lemma GetBitmapFromRGBA8888Tile_GetBit_counterexample :
  JS.len Sample.opaque_2x2 = 2 * 2 * 4
  ∧ BITS.GetBitmapFromRGBA8888Tile (Some Sample.opaque_2x2) false false 3 1 1 2 2
    = JS.Normal (Some [])
  ∧ BITS.c_GetBit [] 0 0 2 2 = false
  ∧ JS.ge (JS.get Sample.opaque_2x2 (4 * (0 * 2 + 0) + 3)) (Some 1) = true.
Proof. vm_compute. repeat split; reflexivity. Qed.

(** ** Stroke recovery *)

(** The x pass never changes the raster: its indices are all [NaN]. *)
Lemma RecoverXStrokeInRGBA8888Tile_unchanged (dest src : list Z) (ch_offset alpha_threshold w h : Z) :
  BITS.RecoverXStrokeInRGBA8888Tile dest src ch_offset alpha_threshold w h = dest.
Proof.
  unfold BITS.RecoverXStrokeInRGBA8888Tile.
  apply (for_lt_inv (fun d => d = dest)); [done|].
  intros y d ->. apply (for_lt_inv (fun d => d = dest)); [done|].
  intros x d ->. reflexivity.
Qed.

(** C6, on the code: on the worked 2x2 fill example (data at (1,1), fill
    at (2,1), (1,2), (2,2)) the build with stroke recovery keeps the
    source pixel and clears the diagonal and the vertical bleed, but the
    horizontal bleed pixel (2,1) is still set: the word is 96, not 32. *)
Theorem stroke_example_keeps_horizontal_bleed :
  ∃ dest,
    BITS.GetBitmapFromRGBA8888Tile (Some Sample.stroke_raster) false true 3 1 1 8 4
    = JS.Normal (Some dest)
    ∧ dest = [96; 0]
    ∧ BITS.c_GetBit dest 1 1 8 4 = true
    ∧ BITS.c_GetBit dest 2 2 8 4 = false
    ∧ BITS.c_GetBit dest 1 2 8 4 = false
    ∧ BITS.c_GetBit dest 2 1 8 4 = true.
Proof. eexists. split; [vm_compute; reflexivity|]. vm_compute. repeat split; reflexivity. Qed.

(** ** Rasters of the wrong size *)


(** The png.js path compares the byte count with the tile size and drops
    the raster when they differ. *)
Lemma AddAsync_PNG_URL_libpng_rejects
    (AddAllDefaultBitstores : LBITS.obj.t → JS.result LBITS.obj.t)
    (this : LBITS.obj.t) (rgba : list Z) (x y z : Z) (shouldAutoload : bool) :
  JS.len rgba ≠ LBITS.obj.img_width this * LBITS.obj.img_height this * 4 →
  LBITS.AddAsync_PNG_URL_libpng_cubbyLlama AddAllDefaultBitstores this rgba x y z shouldAutoload
  = JS.Normal this.
Proof.
  intros Hne. unfold LBITS.AddAsync_PNG_URL_libpng_cubbyLlama.
  destruct (Z.eqb_spec (JS.len rgba)
              (LBITS.obj.img_width this * LBITS.obj.img_height this * 4)); [done | reflexivity].
Qed.

(** C9, on the code: the canvas path checks the width only.  An image of
    the right width and half the height, which the png.js path rejects,
    is added as a ready member without data, and the predicate then
    throws on a tile that this member can index. *)
Theorem canvas_short_image_breaks_predicate :
  JS.len (LBITS.rgba Sample.short_image) ≠ 8 * 8 * 4
  ∧ LBITS.AddAsync_PNG_URL_libpng_cubbyLlama JS.Normal Sample.layer8_master
      (LBITS.rgba Sample.short_image) 0 0 1 false = JS.Normal Sample.layer8_master
  ∧ ∃ this' master bad,
      LBITS.AddAsync_PNG_ImgURL_Canvas_onload JS.Normal Sample.layer8_master
        Sample.short_image 0 0 1 false = JS.Normal this'
      ∧ LBITS.obj.bitstores Sample.layer8_master = [master]
      ∧ LBITS.obj.bitstores this' = [master; bad]
      ∧ BITS.obj.isReady bad = true
      ∧ BITS.obj.data bad = None
      ∧ LBITS.ShouldLoadTile JS.Normal this' 2 0 0 4 None = JS.Throw JS.TypeError.
Proof.
  split; [vm_compute; discriminate|]. split; [vm_compute; reflexivity|].
  eexists _, _, _. split; [vm_compute; reflexivity|].
  split; [vm_compute; reflexivity|]. split; [vm_compute; reflexivity|].
  vm_compute. repeat split; reflexivity.
Qed.

(** ** Reading the bitmap *)

(** A loop invariant that follows the trip count. *)
Lemma iterate_ind {St : Type} (P : nat → St → Prop) n i step (body : Z → St → St) s :
  P 0%nat s →
  (∀ (k : nat) s', (k < n)%nat → P k s' → P (S k) (body (i + Z.of_nat k * step) s')) →
  P n (JS.iterate n i step body s).
Proof.
  revert P i s. induction n as [|n IH]; intros P i s H0 Hstep; simpl; [done|].
  apply (IH (fun k => P (S k))).
  - specialize (Hstep 0%nat s). replace (i + Z.of_nat 0 * step) with i in Hstep by lia.
    apply Hstep; [lia | done].
  - intros k s' Hk HP.
    replace (i + step + Z.of_nat k * step) with (i + Z.of_nat (S k) * step) by lia.
    apply Hstep; [lia | done].
Qed.

(** The same for a loop that counts up by one from [start] to [stop]. *)
Lemma for_lt_ind {St : Type} (P : Z → St → Prop) start stop (body : Z → St → St) s :
  start <= stop →
  P start s →
  (∀ k s', start <= k < stop → P k s' → P (k + 1) (body k s')) →
  P stop (JS.for_lt start stop 1 body s).
Proof.
  intros Hle H0 Hstep. unfold JS.for_lt. rewrite trips_one by lia.
  replace stop with (start + Z.of_nat (Z.to_nat (stop - start))) at 1 by lia.
  apply (iterate_ind (fun k => P (start + Z.of_nat k))).
  - by rewrite Z.add_0_r.
  - intros k s' Hk HP.
    replace (start + Z.of_nat (S k)) with (start + Z.of_nat k + 1) by lia.
    replace (start + Z.of_nat k * 1) with (start + Z.of_nat k) by lia.
    apply Hstep; [lia | done].
Qed.

Lemma for_lt_empty {St : Type} start stop (body : Z → St → St) s :
  stop <= start → JS.for_lt start stop 1 body s = s.
Proof. intros. unfold JS.for_lt. by rewrite trips_ge by lia. Qed.

(** A scan that stops at the first hit finds a hit exactly when there is one. *)
Lemma for_lt_any (f : Z → bool) start stop :
  JS.for_lt start stop 1 (fun i (r : bool) => if r then true else f i) false = true
  ↔ ∃ i, start <= i < stop ∧ f i = true.
Proof.
  destruct (Z.le_gt_cases start stop) as [Hle|Hgt].
  - apply (for_lt_ind
             (fun k (r : bool) => r = true ↔ ∃ i, start <= i < k ∧ f i = true)
             start stop _ false Hle).
    + split; [done | intros (i & ? & _); lia].
    + intros k r Hk [IH1 IH2]. destruct r.
      * split; [|done]. intros _. destruct IH1 as (i & ? & ?); [done|].
        exists i. split; [lia | done].
      * split.
        -- intros Hf. exists k. split; [lia | done].
        -- intros (i & Hi & Hf). destruct (Z.eq_dec i k) as [->|]; [done|].
           assert (false = true); [|done].
           apply IH2. exists i. split; [lia | done].
  - rewrite for_lt_empty by lia. split; [done | intros (i & ? & _); lia].
Qed.

(** The bit test inlined in the scans is the test of [c_GetBit]. *)
Lemma bit_test_c_GetBit (src_u16 : list Z) (x y w h : Z) :
  BITS.bit_test src_u16 (JS.shru y 2 * JS.shru w 2 + JS.shru x 2)
    (JS.shl (y - JS.shl (JS.shru y 2) 2) 2) x
  = BITS.c_GetBit src_u16 x y w h.
Proof.
  unfold BITS.bit_test, BITS.c_GetBit, BITS.c_GetBitReusingIdx.
  do 4 f_equal. lia.
Qed.

Lemma u16_get_range (l : list Z) i :
  JS.is_u16_array l = true → 0 <= JS.int (JS.get l i) < 2 ^ 16.
Proof.
  intros Hu. apply is_u16_array_Forall in Hu. unfold JS.get, JS.int.
  destruct (i <? 0); [simpl; lia|].
  destruct (l !! Z.to_nat i) as [v|] eqn:E; [|simpl; lia].
  simpl. by apply (Forall_lookup_1 _ _ _ _ Hu E).
Qed.

(** The bit of a pixel, as a bit of its word. *)
Lemma c_GetBit_word (src_u16 : list Z) (x y w h : Z) :
  JS.is_u16_array src_u16 = true →
  0 <= x < 2 ^ 31 → 0 <= y < 2 ^ 31 → 0 <= w < 2 ^ 32 →
  BITS.c_GetBit src_u16 x y w h
  = Z.testbit (JS.int (JS.get src_u16 (y `div` 4 * (w `div` 4) + x `div` 4)))
      (4 * (y `mod` 4) + x `mod` 4).
Proof.
  intros Hu Hx Hy Hw.
  pose proof (Z.div_mod x 4 ltac:(lia)) as Hxd.
  pose proof (Z.div_mod y 4 ltac:(lia)) as Hyd.
  pose proof (Z.mod_pos_bound x 4 ltac:(lia)) as Hxm.
  pose proof (Z.mod_pos_bound y 4 ltac:(lia)) as Hym.
  unfold BITS.c_GetBit, BITS.c_GetBitReusingIdx.
  rewrite !shru_small by lia. change (2 ^ 2) with 4.
  rewrite (shl_small (y `div` 4) 2), (shl_small (x `div` 4) 2) by lia.
  change (2 ^ 2) with 4. rewrite (shl_small _ 2) by lia. change (2 ^ 2) with 4.
  pose proof (u16_get_range src_u16 (y `div` 4 * (w `div` 4) + x `div` 4) Hu).
  rewrite band_bit by lia. f_equal. lia.
Qed.

(** X1: the bit of pixel (x, y) is bit [4 * (y mod 4) + x mod 4] of the
    word at [(y / 4) * (w / 4) + x / 4]; a pixel whose word lies outside
    the index reads as not set. *)
Theorem c_GetBit_testbit (src_u16 : list Z) (x y w h : Z) :
  JS.is_u16_array src_u16 = true →
  0 <= x < 2 ^ 31 → 0 <= y < 2 ^ 31 → 0 <= w < 2 ^ 32 →
  BITS.c_GetBit src_u16 x y w h
  = match JS.get src_u16 (y `div` 4 * (w `div` 4) + x `div` 4) with
    | Some v => Z.testbit v (4 * (y `mod` 4) + x `mod` 4)
    | None => false
    end.
Proof.
  intros Hu Hx Hy Hw. rewrite c_GetBit_word by done.
  destruct (JS.get src_u16 _) as [v|]; [reflexivity|]. apply Z.testbit_0_l.
Qed.

Lemma c_GetBit_testbit_witness :
  BITS.c_GetBit [0; 1024; 0; 7] 6 2 8 8
  = match JS.get [0; 1024; 0; 7] (2 `div` 4 * (8 `div` 4) + 6 `div` 4) with
    | Some v => Z.testbit v (4 * (2 `mod` 4) + 6 `mod` 4)
    | None => false
    end.
Proof.
  apply (c_GetBit_testbit [0; 1024; 0; 7] 6 2 8 8); [reflexivity | lia | lia | lia].
Defined.

(** X2: with an index in place, the scan answers true exactly when some
    pixel of the index under the tile has its bit set; it never throws. *)
Theorem DoesTileIntersectData_exists (this : BITS.obj.t) (data : list Z) (x y z : Z) :
  BITS.obj.data this = Some data →
  ∃ b,
    BITS.DoesTileIntersectData this x y z = JS.Normal b
    ∧ (b = true ↔
       ∃ bitX bitY,
         BITS.c_MercXZtoMercXZ (x * BITS.obj.img_width this) z (BITS.obj.z this)
           - BITS.obj.x this * BITS.obj.img_width this <= bitX
         ∧ bitX <= BITS.c_MercXZtoMercXZ
                     (x * BITS.obj.img_width this + BITS.obj.img_width this - 1) z
                     (BITS.obj.z this)
                   - BITS.obj.x this * BITS.obj.img_width this
         ∧ BITS.c_MercXZtoMercXZ (y * BITS.obj.img_height this) z (BITS.obj.z this)
             - BITS.obj.y this * BITS.obj.img_height this <= bitY
         ∧ bitY <= BITS.c_MercXZtoMercXZ
                     (y * BITS.obj.img_height this + BITS.obj.img_height this - 1) z
                     (BITS.obj.z this)
                   - BITS.obj.y this * BITS.obj.img_height this
         ∧ BITS.c_GetBit data bitX bitY (BITS.obj.img_width this)
             (BITS.obj.img_height this) = true).
Proof.
  intros Hdata. unfold BITS.DoesTileIntersectData. rewrite Hdata.
  eexists. split; [reflexivity|].
  rewrite for_lt_any. split.
  - intros (bitY & HY & Hrow). apply for_lt_any in Hrow as (bitX & HX & Hbit).
    rewrite (bit_test_c_GetBit data bitX bitY _ (BITS.obj.img_height this)) in Hbit.
    exists bitX, bitY. repeat split; try lia. exact Hbit.
  - intros (bitX & bitY & HX0 & HX1 & HY0 & HY1 & Hbit).
    exists bitY. split; [lia|]. apply for_lt_any.
    exists bitX. split; [lia|].
    rewrite (bit_test_c_GetBit data bitX bitY _ (BITS.obj.img_height this)). exact Hbit.
Qed.

Lemma DoesTileIntersectData_exists_witness :
  ∃ b,
    BITS.DoesTileIntersectData (BITS.new 2 0 0 0 8 8 (Some [0; 1024; 0; 7]) true) 1 0 1
    = JS.Normal b
    ∧ (b = true ↔
       ∃ bitX bitY,
         4 <= bitX ∧ bitX <= 7 ∧ 0 <= bitY ∧ bitY <= 3
         ∧ BITS.c_GetBit [0; 1024; 0; 7] bitX bitY 8 8 = true).
Proof.
  apply (DoesTileIntersectData_exists (BITS.new 2 0 0 0 8 8 (Some [0; 1024; 0; 7]) true)
           [0; 1024; 0; 7] 1 0 1).
  reflexivity.
Defined.

(** ** The pixel extent of an index *)

(** An invariant of a loop that counts up by one, whatever its bounds. *)
Lemma for_lt_range_inv {St : Type} (P : St → Prop) start stop (body : Z → St → St) s :
  P s → (∀ k s', start <= k < stop → P s' → P (body k s')) →
  P (JS.for_lt start stop 1 body s).
Proof.
  intros Hs Hstep. destruct (Z.le_gt_cases start stop).
  - apply (for_lt_ind (fun _ => P)); auto.
  - by rewrite for_lt_empty by lia.
Qed.

Lemma bounding_box_ext hit (seen seen' : Z → Z → Prop) st :
  (∀ x y, seen x y ↔ seen' x y) →
  Describe.bounding_box hit seen st → Describe.bounding_box hit seen' st.
Proof.
  intros Heq. destruct st as [[[minX minY] maxX] maxY]. simpl.
  intros [Hin Hex]. split.
  - intros x y Hs. apply Hin. by apply Heq.
  - destruct Hex as [?|((a & ? & ?) & (b & ? & ?) & (c & ? & ?) & (d & ? & ?))]; [by left|].
    right. repeat split; eexists; (split; [apply Heq|]); eassumption.
Qed.

(** One step of the scan keeps the bounding box. *)
Lemma bounding_box_step hit (seen : Z → Z → Prop) (x y : Z) (minX minY maxX maxY : Z) :
  -32768 <= x <= 32767 → -32768 <= y <= 32767 →
  Describe.bounding_box hit seen (minX, minY, maxX, maxY) →
  Describe.bounding_box hit (fun x' y' => seen x' y' ∨ (x' = x ∧ y' = y))
    (if hit x y then
       (if x <? minX then x else minX, if y <? minY then y else minY,
        if maxX <? x then x else maxX, if maxY <? y then y else maxY)
     else (minX, minY, maxX, maxY)).
Proof.
  intros Hx Hy [Hin Hex]. destruct (hit x y) eqn:Hhit.
  - set (minX' := if x <? minX then x else minX).
    set (minY' := if y <? minY then y else minY).
    set (maxX' := if maxX <? x then x else maxX).
    set (maxY' := if maxY <? y then y else maxY).
    assert (HminX : minX' = Z.min x minX) by (unfold minX'; destruct (Z.ltb_spec x minX); lia).
    assert (HminY : minY' = Z.min y minY) by (unfold minY'; destruct (Z.ltb_spec y minY); lia).
    assert (HmaxX : maxX' = Z.max x maxX) by (unfold maxX'; destruct (Z.ltb_spec maxX x); lia).
    assert (HmaxY : maxY' = Z.max y maxY) by (unfold maxY'; destruct (Z.ltb_spec maxY y); lia).
    clearbody minX' minY' maxX' maxY'. simpl. split.
    + intros x' y' [Hs | [-> ->]] Hh; [specialize (Hin x' y' Hs Hh)|]; lia.
    + right. repeat split.
      * destruct (Z.eq_dec minX' x) as [E|E].
        -- exists y. rewrite E. split; [by right | done].
        -- destruct Hex as [Hinit | ((a & ? & ?) & _)]; [injection Hinit; lia|].
           exists a. replace minX' with minX by lia. split; [by left | done].
      * destruct (Z.eq_dec minY' y) as [E|E].
        -- exists x. rewrite E. split; [by right | done].
        -- destruct Hex as [Hinit | (_ & (a & ? & ?) & _)]; [injection Hinit; lia|].
           exists a. replace minY' with minY by lia. split; [by left | done].
      * destruct (Z.eq_dec maxX' x) as [E|E].
        -- exists y. rewrite E. split; [by right | done].
        -- destruct Hex as [Hinit | (_ & _ & (a & ? & ?) & _)]; [injection Hinit; lia|].
           exists a. replace maxX' with maxX by lia. split; [by left | done].
      * destruct (Z.eq_dec maxY' y) as [E|E].
        -- exists x. rewrite E. split; [by right | done].
        -- destruct Hex as [Hinit | (_ & _ & _ & (a & ? & ?))]; [injection Hinit; lia|].
           exists a. replace maxY' with maxY by lia. split; [by left | done].
  - simpl. split.
    + intros x' y' [Hs | [-> ->]] Hh; [by apply Hin | congruence].
    + destruct Hex as [?|((a & ? & ?) & (b & ? & ?) & (c & ? & ?) & (d & ? & ?))];
        [by left|].
      right. repeat split; eexists; (split; [left|]); eassumption.
Qed.

Section PixelExtent.
Variables (src_u16 : list Z) (w h : Z).
Hypothesis Hw : 0 <= w <= 32768.
Hypothesis Hh : 0 <= h <= 32768.

(** The scan of [c_GetPixelExtentFromBitstore] computes the bounding box
    of the set pixels of the tile. *)
Lemma scan_bounding_box :
  Describe.bounding_box (fun x y => BITS.c_GetBit src_u16 x y w h)
    (fun x y => 0 <= x < w ∧ 0 <= y < h)
    (JS.for_lt 0 h 1 (fun y acc =>
       let yrsw := JS.shru y 2 * JS.shru w 2 in
       let yrem := JS.shl (y - JS.shl (JS.shru y 2) 2) 2 in
       JS.for_lt 0 w 1 (fun x '(minX, minY, maxX, maxY) =>
         let bitIdx := yrsw + JS.shru x 2 in
         if BITS.bit_test src_u16 bitIdx yrem x then
           let maxY := if maxY <? y then y else maxY in
           let minY := if y <? minY then y else minY in
           let maxX := if maxX <? x then x else maxX in
           let minX := if x <? minX then x else minX in
           (minX, minY, maxX, maxY)
         else (minX, minY, maxX, maxY)) acc) (32767, 32767, -32768, -32768)).
Proof.
  set (hit := fun x y => BITS.c_GetBit src_u16 x y w h).
  apply (bounding_box_ext hit (fun x y => 0 <= x < w ∧ 0 <= y < h)).
  { reflexivity. }
  apply (for_lt_ind (fun k st =>
           Describe.bounding_box hit (fun x y => 0 <= x < w ∧ 0 <= y < k) st)); [lia | |].
  { simpl. split; [lia | by left]. }
  intros y acc Hy Hacc. cbv zeta.
  apply (bounding_box_ext hit
           (fun x' y' => (0 <= x' < w ∧ 0 <= y' < y) ∨ (0 <= x' < w ∧ y' = y))).
  { intros x' y'. lia. }
  apply (for_lt_ind (fun j st =>
           Describe.bounding_box hit
             (fun x' y' => (0 <= x' < w ∧ 0 <= y' < y) ∨ (0 <= x' < j ∧ y' = y)) st));
    [lia | |].
  { revert Hacc. apply bounding_box_ext. intros x' y'. lia. }
  intros x [[[minX minY] maxX] maxY] Hx Hst.
  rewrite (bit_test_c_GetBit src_u16 x y w h).
  apply (bounding_box_ext hit
           (fun x' y' => ((0 <= x' < w ∧ 0 <= y' < y) ∨ (0 <= x' < x ∧ y' = y))
                         ∨ (x' = x ∧ y' = y))).
  { intros x' y'. lia. }
  apply (bounding_box_step hit _ x y minX minY maxX maxY); [lia | lia | exact Hst].
Qed.

End PixelExtent.

Lemma c_GetBitReusingIdx_zero (src_u16 : list Z) (idx x y : Z) :
  JS.int (JS.get src_u16 idx) = 0 → BITS.c_GetBitReusingIdx src_u16 idx x y = false.
Proof.
  intros H0. unfold BITS.c_GetBitReusingIdx. rewrite H0. unfold JS.band.
  change (JS.ToInt32 0) with 0. rewrite Z.land_0_l. reflexivity.
Qed.

Lemma get_zeros n i : JS.int (JS.get (JS.zeros n) i) = 0.
Proof.
  unfold JS.get, JS.zeros, JS.int. destruct (i <? 0); [done|].
  destruct (replicate (Z.to_nat n) 0 !! Z.to_nat i) as [v|] eqn:E; [|done].
  apply lookup_replicate in E as [-> _]. done.
Qed.

(** X3: an index without a set pixel in the tile, like a null index or
    one of the wrong length, has the whole tile as its pixel extent, with
    [w] and [h] themselves as the far edges. *)
Theorem c_GetPixelExtentFromBitstore_no_data (src_u16 : option (list Z)) (tx ty z w h : Z) :
  (∀ s x y, src_u16 = Some s → JS.len s = JS.shru w 2 * JS.shru h 2 →
            0 <= x < w → 0 <= y < h → BITS.c_GetBit s x y w h = false) →
  BITS.c_GetPixelExtentFromBitstore src_u16 tx ty z w h
  = [0; 0; JS.ToUint32 w; JS.ToUint32 h; JS.ToUint32 z; JS.ToUint32 z;
     JS.ToUint32 tx; JS.ToUint32 ty].
Proof.
  intros Hno. unfold BITS.c_GetPixelExtentFromBitstore.
  destruct src_u16 as [s|]; [|reflexivity].
  destruct (Z.eqb_spec (JS.len s) (JS.shru w 2 * JS.shru h 2)) as [Hlen|]; [|reflexivity].
  cbv zeta.
  match goal with
  | |- context [JS.for_lt 0 h 1 ?body ?init] =>
      assert (JS.for_lt 0 h 1 body init = init) as ->
  end; [|reflexivity].
  apply (for_lt_range_inv (fun st => st = (32767, 32767, -32768, -32768))); [done|].
  intros y st Hy ->.
  apply (for_lt_range_inv (fun st => st = (32767, 32767, -32768, -32768))); [done|].
  intros x st Hx ->.
  rewrite (bit_test_c_GetBit s x y w h), (Hno s x y) by (done || lia). done.
Qed.

Lemma c_GetPixelExtentFromBitstore_no_data_witness :
  BITS.c_GetPixelExtentFromBitstore (Some (JS.zeros 4)) 3 5 7 8 8
  = [0; 0; JS.ToUint32 8; JS.ToUint32 8; JS.ToUint32 7; JS.ToUint32 7;
     JS.ToUint32 3; JS.ToUint32 5].
Proof.
  apply (c_GetPixelExtentFromBitstore_no_data (Some (JS.zeros 4)) 3 5 7 8 8).
  intros s x y Hs _ _ _. injection Hs as <-.
  apply c_GetBitReusingIdx_zero, get_zeros.
Defined.

(** X4: when some pixel of the tile is set, the pixel extent is the
    bounding box of the set pixels: every set pixel of the tile lies
    inside it and each of its four edges passes through a set pixel. *)
Theorem c_GetPixelExtentFromBitstore_bounding_box (src_u16 : list Z) (tx ty z w h x0 y0 : Z) :
  JS.len src_u16 = JS.shru w 2 * JS.shru h 2 →
  0 <= w <= 32768 → 0 <= h <= 32768 →
  0 <= x0 < w → 0 <= y0 < h → BITS.c_GetBit src_u16 x0 y0 w h = true →
  ∃ minX minY maxX maxY,
    BITS.c_GetPixelExtentFromBitstore (Some src_u16) tx ty z w h
    = [minX; minY; maxX; maxY; JS.ToUint32 z; JS.ToUint32 z; JS.ToUint32 tx; JS.ToUint32 ty]
    ∧ (∀ x y, 0 <= x < w → 0 <= y < h → BITS.c_GetBit src_u16 x y w h = true →
              minX <= x <= maxX ∧ minY <= y <= maxY)
    ∧ (∃ y, 0 <= y < h ∧ BITS.c_GetBit src_u16 minX y w h = true)
    ∧ (∃ x, 0 <= x < w ∧ BITS.c_GetBit src_u16 x minY w h = true)
    ∧ (∃ y, 0 <= y < h ∧ BITS.c_GetBit src_u16 maxX y w h = true)
    ∧ (∃ x, 0 <= x < w ∧ BITS.c_GetBit src_u16 x maxY w h = true)
    ∧ 0 <= minX <= maxX ∧ maxX < w ∧ 0 <= minY <= maxY ∧ maxY < h.
Proof.
  intros Hlen Hw Hh Hx0 Hy0 Hhit.
  pose proof (scan_bounding_box src_u16 w h Hw Hh) as Hbox.
  unfold BITS.c_GetPixelExtentFromBitstore. rewrite Hlen, Z.eqb_refl.
  cbv zeta in Hbox |- *.
  destruct (JS.for_lt 0 h 1 _ _) as [[[minX minY] maxX] maxY].
  destruct Hbox as [Hin Hex].
  pose proof (Hin x0 y0 ltac:(lia) Hhit) as Hin0.
  destruct Hex as [Hinit | ((a & Ha & Hha) & (b & Hb & Hhb) & (c & Hc & Hhc) & (d & Hd & Hhd))].
  { injection Hinit as -> -> -> ->. lia. }
  assert ((minX =? 32767) && (minY =? 32767) && (maxX =? -32768) && (maxY =? -32768) = false)
    as ->.
  { destruct (Z.eqb_spec maxX (-32768)); [lia|]. by rewrite andb_false_r. }
  exists minX, minY, maxX, maxY. split.
  { unfold JS.set_u32, JS.put, JS.int. cbn -[JS.ToUint32].
    rewrite !(ToUint32_small minX), !(ToUint32_small minY), !(ToUint32_small maxX),
      !(ToUint32_small maxY) by lia. reflexivity. }
  split; [intros x y Hx Hy; apply Hin; lia|].
  repeat split; try lia.
  - exists a. split; [lia | done].
  - exists b. split; [lia | done].
  - exists c. split; [lia | done].
  - exists d. split; [lia | done].
Qed.

Lemma c_GetPixelExtentFromBitstore_bounding_box_witness :
  ∃ minX minY maxX maxY,
    BITS.c_GetPixelExtentFromBitstore (Some [0; 1024; 0; 7]) 3 5 7 8 8
    = [minX; minY; maxX; maxY; JS.ToUint32 7; JS.ToUint32 7; JS.ToUint32 3; JS.ToUint32 5]
    ∧ (∀ x y, 0 <= x < 8 → 0 <= y < 8 → BITS.c_GetBit [0; 1024; 0; 7] x y 8 8 = true →
              minX <= x <= maxX ∧ minY <= y <= maxY)
    ∧ (∃ y, 0 <= y < 8 ∧ BITS.c_GetBit [0; 1024; 0; 7] minX y 8 8 = true)
    ∧ (∃ x, 0 <= x < 8 ∧ BITS.c_GetBit [0; 1024; 0; 7] x minY 8 8 = true)
    ∧ (∃ y, 0 <= y < 8 ∧ BITS.c_GetBit [0; 1024; 0; 7] maxX y 8 8 = true)
    ∧ (∃ x, 0 <= x < 8 ∧ BITS.c_GetBit [0; 1024; 0; 7] x maxY 8 8 = true)
    ∧ 0 <= minX <= maxX ∧ maxX < 8 ∧ 0 <= minY <= maxY ∧ maxY < 8.
Proof.
  apply (c_GetPixelExtentFromBitstore_bounding_box [0; 1024; 0; 7] 3 5 7 8 8 6 2);
    [reflexivity | lia | lia | lia | lia | reflexivity].
Defined.

(** ** Raster loops as folds over the pixels *)

Lemma iterate_foldl {St : Type} (body : Z → St → St) (n : nat) : ∀ i s,
  JS.iterate n i 1 body s = foldl (fun s i => body i s) s (seqZ i (Z.of_nat n)).
Proof.
  induction n as [|n IH]; intros i s; [done|].
  rewrite seqZ_cons by lia. simpl JS.iterate. rewrite IH. simpl foldl.
  by replace (Z.pred (Z.of_nat (S n))) with (Z.of_nat n) by lia.
Qed.

Lemma for_lt_foldl {St : Type} (body : Z → St → St) (n : Z) (s : St) :
  JS.for_lt 0 n 1 body s = foldl (fun s i => body i s) s (seqZ 0 n).
Proof.
  unfold JS.for_lt, JS.trips. rewrite iterate_foldl.
  replace (n - 0 + 1 - 1) with n by lia. rewrite Z.div_1_r.
  unfold seqZ. by rewrite Nat2Z.id.
Qed.

Lemma foldl_ext_list {A St : Type} (f g : St → A → St) (l : list A) : ∀ s,
  (∀ s a, a ∈ l → f s a = g s a) → foldl f s l = foldl g s l.
Proof.
  induction l as [|a l IH]; intros s H; simpl; [done|].
  rewrite H by left. apply IH. intros s' a' Ha. apply H. by right.
Qed.

Lemma foldl_fmap_list {A B St : Type} (f : St → B → St) (g : A → B) (l : list A) : ∀ s,
  foldl f s (g <$> l) = foldl (fun s a => f s (g a)) s l.
Proof. induction l as [|a l IH]; intros s; simpl; [done | by rewrite IH]. Qed.

Lemma foldl_bind_list {A B St : Type} (f : St → B → St) (g : A → list B) (l : list A) : ∀ s,
  foldl f s (l ≫= g) = foldl (fun s a => foldl f s (g a)) s l.
Proof.
  induction l as [|a l IH]; intros s; [done|].
  rewrite bind_cons, foldl_app. simpl. by rewrite IH.
Qed.

(** The two nested loops over the rows and columns of a tile visit the
    pixels in the order of [Describe.pixels]. *)
Lemma raster_foldl {St : Type} (body : Z → Z → St → St) (w h : Z) (s : St) :
  JS.for_lt 0 h 1 (fun y s => JS.for_lt 0 w 1 (fun x s => body x y s) s) s
  = foldl (fun s p => body p.1 p.2 s) s (Describe.pixels w h).
Proof.
  rewrite for_lt_foldl. unfold Describe.pixels. rewrite foldl_bind_list.
  apply foldl_ext_list. intros s' y _. rewrite for_lt_foldl, foldl_fmap_list. done.
Qed.

Lemma elem_of_pixels (w h x y : Z) :
  (x, y) ∈ Describe.pixels w h ↔ 0 <= x < w ∧ 0 <= y < h.
Proof.
  unfold Describe.pixels. rewrite list_elem_of_bind. split.
  - intros (y' & Hx & Hy). apply list_elem_of_fmap in Hx as (x' & Heq & Hx).
    injection Heq as -> ->. apply elem_of_seqZ in Hx, Hy. lia.
  - intros [Hx Hy]. exists y. split.
    + apply list_elem_of_fmap. exists x. split; [done|]. apply elem_of_seqZ. lia.
    + apply elem_of_seqZ. lia.
Qed.

Lemma NoDup_pixels (w h : Z) : NoDup (Describe.pixels w h).
Proof.
  unfold Describe.pixels. apply NoDup_bind.
  - intros y1 y2 [x y] _ _ H1 H2.
    apply list_elem_of_fmap in H1 as (? & Heq1 & _), H2 as (? & Heq2 & _). congruence.
  - intros y _. apply NoDup_fmap_2; [|apply NoDup_seqZ]. intros x1 x2. congruence.
  - apply NoDup_seqZ.
Qed.

(** ** The planar raster of an index *)

Lemma pixel_index_inj (w x y x' y' : Z) :
  0 <= x < w → 0 <= x' < w → y * w + x = y' * w + x' → x = x' ∧ y = y'.
Proof.
  intros Hx Hx' Heq. assert (y = y'); [|lia]. nia.
Qed.

Lemma memset_loop (wrap : Z → Z) (v : JS.num) (l : list Z) :
  ∀ k, JS.get (JS.for_lt 0 (JS.len l) 1 (fun i d => JS.put wrap d i v) l) k
       = if (0 <=? k) && (k <? JS.len l) then Some (wrap (JS.int v)) else None.
Proof.
  assert (Hinv : JS.len (JS.for_lt 0 (JS.len l) 1 (fun i d => JS.put wrap d i v) l) = JS.len l
                 ∧ ∀ k, 0 <= k < JS.len l →
                     JS.get (JS.for_lt 0 (JS.len l) 1 (fun i d => JS.put wrap d i v) l) k
                     = Some (wrap (JS.int v))).
  { assert (0 <= JS.len l) by (unfold JS.len; lia).
    pose proof (for_lt_ind
      (fun j d => JS.len d = JS.len l
                  ∧ ∀ k, 0 <= k < j → JS.get d k = Some (wrap (JS.int v)))
      0 (JS.len l) (fun i d => JS.put wrap d i v) l) as Hind.
    destruct Hind as [Hlen Hget]; [lia | split; [done | lia] | | ].
    - intros j d Hj [Hlen Hget]. split.
      + unfold JS.len in *. by rewrite length_put.
      + intros k Hk. rewrite get_put. rewrite Hlen.
        destruct (Z.eqb_spec k j) as [->|]; simpl.
        * destruct (Z.leb_spec 0 j), (Z.ltb_spec j (JS.len l)); try lia. done.
        * apply Hget. lia.
    - split; [done|]. intros k Hk. apply Hget. lia. }
  destruct Hinv as [Hlen Hget]. intros k.
  destruct (Z.leb_spec 0 k), (Z.ltb_spec k (JS.len l)); simpl.
  - apply Hget. lia.
  - apply get_ge. lia.
  - apply get_neg. lia.
  - apply get_neg. lia.
Qed.

(** Painting the hit pixels of a list leaves the other bytes alone. *)
Lemma paint_foldl (hit : Z → Z → bool) (wrap : Z → Z) (v : JS.num) (w h : Z) (l : list (Z * Z)) :
  ∀ dest, JS.len dest = w * h →
    (∀ p, p ∈ l → 0 <= p.1 < w ∧ 0 <= p.2 < h) →
    let dest' := foldl (fun d p => if hit p.1 p.2 then JS.put wrap d (p.2 * w + p.1) v else d)
                       dest l in
    JS.len dest' = w * h
    ∧ ∀ x y, 0 <= x < w → 0 <= y < h →
        JS.get dest' (y * w + x)
        = if hit x y && bool_decide ((x, y) ∈ l) then Some (wrap (JS.int v))
          else JS.get dest (y * w + x).
Proof.
  induction l as [|[px py] l IH]; intros dest Hlen Hin; cbv zeta; cbn [foldl fst snd].
  - split; [done|]. intros x y _ _. rewrite bool_decide_eq_false_2 by apply not_elem_of_nil.
    by rewrite andb_false_r.
  - set (d1 := if hit px py then JS.put wrap dest (py * w + px) v else dest).
    assert (Hlen1 : JS.len d1 = w * h).
    { unfold d1. destruct (hit px py); [|done]. unfold JS.len in *. by rewrite length_put. }
    destruct (IH d1 Hlen1) as [IHlen IHget].
    { intros p Hp. apply Hin. by right. }
    split; [exact IHlen|]. intros x y Hx Hy. rewrite IHget by done.
    destruct (Hin (px, py)) as [Hpx Hpy]; [left|]. simpl in Hpx, Hpy.
    assert (Hidx : 0 <= y * w + x < w * h) by nia.
    destruct (decide ((x, y) = (px, py))) as [Heq|Hne].
    + injection Heq as -> ->.
      rewrite (bool_decide_eq_true_2 ((px, py) ∈ (px, py) :: l)) by left.
      rewrite andb_true_r. destruct (hit px py) eqn:Hhit; simpl.
      * destruct (bool_decide _); [done|]. unfold d1. rewrite ?Hhit, get_put, Hlen.
        rewrite Z.eqb_refl. destruct (Z.leb_spec 0 (py * w + px)),
          (Z.ltb_spec (py * w + px) (w * h)); try lia. done.
      * unfold d1. by rewrite ?Hhit.
    + assert (JS.get d1 (y * w + x) = JS.get dest (y * w + x)) as ->.
      { unfold d1. destruct (hit px py); [|done]. apply get_put_ne.
        intros Hi. destruct (pixel_index_inj w px py x y); try done; congruence. }
      destruct (bool_decide ((x, y) ∈ l)) eqn:Hl.
      * apply bool_decide_eq_true in Hl.
        rewrite (bool_decide_eq_true_2 ((x, y) ∈ (px, py) :: l)) by (by right). done.
      * apply bool_decide_eq_false in Hl.
        rewrite (bool_decide_eq_false_2 ((x, y) ∈ (px, py) :: l)); [done|].
        intros [?|?]%elem_of_cons; done.
Qed.

(** X5: the planar raster of an index has [w * h] bytes, and the byte of
    pixel (x, y) is [data_u08] when the bit of the pixel is set and
    [NODATA_u08] when it is not, both as bytes. *)
Theorem c_GetNewPlanar8FromBitmap_pixels (src_u16 : list Z) (data_u08 NODATA_u08 w h : Z) :
  0 <= w → 0 <= h →
  ∃ dest_u08,
    BITS.c_GetNewPlanar8FromBitmap (Some src_u16) data_u08 NODATA_u08 w h = Some dest_u08
    ∧ JS.len dest_u08 = w * h
    ∧ ∀ x y, 0 <= x < w → 0 <= y < h →
        JS.get dest_u08 (y * w + x)
        = Some (JS.ToUint8 (if BITS.c_GetBit src_u16 x y w h then data_u08 else NODATA_u08)).
Proof.
  intros Hw Hh. unfold BITS.c_GetNewPlanar8FromBitmap. eexists. split; [reflexivity|].
  cbv zeta.
  set (d0 := if negb (NODATA_u08 =? 0) then _ else _).
  assert (Hlz : JS.len (JS.zeros (w * h)) = w * h).
  { unfold JS.len, JS.zeros. rewrite length_replicate. nia. }
  assert (Hd0 : JS.len d0 = w * h
                ∧ ∀ k, 0 <= k < w * h → JS.get d0 k = Some (JS.ToUint8 NODATA_u08)).
  { unfold d0. destruct (Z.eqb_spec NODATA_u08 0) as [->|Hne]; simpl.
    - split; [done|]. intros k Hk. unfold JS.get, JS.zeros.
      destruct (Z.ltb_spec k 0); [lia|]. rewrite lookup_replicate_2 by lia. done.
    - split.
      + apply (for_lt_range_inv (fun d => JS.len d = w * h)); [done|].
        intros k d _ Hd. unfold JS.len, JS.set_u8 in *. by rewrite length_put.
      + intros k Hk. unfold JS.set_u8. rewrite memset_loop, Hlz.
        destruct (Z.leb_spec 0 k), (Z.ltb_spec k (w * h)); try lia. done. }
  destruct Hd0 as [Hd0len Hd0get]. clearbody d0.
  change (JS.for_lt 0 h 1 _ d0)
    with (JS.for_lt 0 h 1 (fun y s => JS.for_lt 0 w 1 (fun x s =>
            (fun x y (d : list Z) =>
               if BITS.bit_test src_u16 (JS.shru y 2 * JS.shru w 2 + JS.shru x 2)
                    (JS.shl (y - JS.shl (JS.shru y 2) 2) 2) x
               then JS.set_u8 d (y * w + x) (Some data_u08) else d) x y s) s) d0).
  rewrite raster_foldl.
  destruct (paint_foldl (fun x y => BITS.c_GetBit src_u16 x y w h) JS.ToUint8 (Some data_u08)
              w h (Describe.pixels w h) d0 Hd0len) as [Hlen Hget].
  { intros [x y] Hp. by apply elem_of_pixels in Hp. }
  erewrite foldl_ext_list; [split; [exact Hlen|]|].
  - intros x y Hx Hy. rewrite Hget by done.
    rewrite (bool_decide_eq_true_2 ((x, y) ∈ Describe.pixels w h))
      by (apply elem_of_pixels; lia).
    rewrite andb_true_r. destruct (BITS.c_GetBit src_u16 x y w h); [done|].
    apply Hd0get. nia.
  - intros d [x y] _. cbn [fst snd]. by rewrite (bit_test_c_GetBit src_u16 x y w h).
Qed.

Lemma c_GetNewPlanar8FromBitmap_pixels_witness :
  ∃ dest_u08,
    BITS.c_GetNewPlanar8FromBitmap (Some [0; 1024; 0; 7]) 255 9 8 8 = Some dest_u08
    ∧ JS.len dest_u08 = 8 * 8
    ∧ ∀ x y, 0 <= x < 8 → 0 <= y < 8 →
        JS.get dest_u08 (y * 8 + x)
        = Some (JS.ToUint8 (if BITS.c_GetBit [0; 1024; 0; 7] x y 8 8 then 255 else 9)).
Proof.
  apply (c_GetNewPlanar8FromBitmap_pixels [0; 1024; 0; 7] 255 9 8 8); lia.
Defined.

(** ** Counting and listing the set pixels *)

Lemma filter_ext_elem {A : Type} (P Q : A → Prop) `{∀ x, Decision (P x)} `{∀ x, Decision (Q x)} (l : list A) :
  (∀ x, x ∈ l → P x ↔ Q x) → filter P l = filter Q l.
Proof.
  induction l as [|a l IH]; intros Heq; [done|].
  rewrite !filter_cons. rewrite IH by (intros x Hx; apply Heq; by right).
  destruct (decide (P a)) as [HP|HP], (decide (Q a)) as [HQ|HQ]; try done.
  - destruct HQ. apply Heq; [left | done].
  - destruct HP. apply Heq; [left | done].
Qed.

Lemma filter_fmap_list {A B : Type} (P : B → Prop) `{∀ x, Decision (P x)} (f : A → B) (l : list A) :
  filter P (f <$> l) = f <$> filter (fun a => P (f a)) l.
Proof.
  induction l as [|a l IH]; [done|].
  rewrite fmap_cons, !filter_cons, IH. by destruct (decide (P (f a))).
Qed.

Lemma filter_bind_list {A B : Type} (P : B → Prop) `{∀ x, Decision (P x)} (f : A → list B) (l : list A) :
  filter P (l ≫= f) = l ≫= (fun a => filter P (f a)).
Proof.
  induction l as [|a l IH]; [done|].
  by rewrite !bind_cons, filter_app, IH.
Qed.

Lemma filter_none {A : Type} (P : A → Prop) `{∀ x, Decision (P x)} (l : list A) :
  (∀ x, x ∈ l → ¬ P x) → filter P l = [].
Proof.
  induction l as [|a l IH]; intros Hno; [done|].
  rewrite filter_cons. destruct (decide (P a)) as [HP|_].
  - destruct (Hno a); [left | done].
  - apply IH. intros x Hx. apply Hno. by right.
Qed.

(** The set bits of [v] above bit 0 are the set bits of [v / 2]. *)
Lemma count_bits_shift v n :
  length (filter (fun j => Z.testbit v j) (seqZ 1 n))
  = length (filter (fun j => Z.testbit (v `div` 2) j) (seqZ 0 n)).
Proof.
  replace (seqZ 1 n) with (Z.add 1 <$> seqZ 0 n) by (by rewrite fmap_add_seqZ).
  rewrite filter_fmap_list, length_fmap. f_equal.
  apply filter_ext_elem. intros j Hj. apply elem_of_seqZ in Hj.
  rewrite Z.div2_bits by lia. by replace (1 + j) with (Z.succ j) by lia.
Qed.

(** The inner loop of [c_GetDataCount] adds the number of set bits. *)
Lemma c_GetDataCount_bits_count (n : nat) : ∀ (k : nat) v dc,
  (k ≤ n)%nat → (k ≤ 31)%nat → 0 <= v < 2 ^ Z.of_nat k →
  BITS.c_GetDataCount_bits n (Some v) dc
  = dc + JS.len (filter (fun j => Z.testbit v j) (seqZ 0 (Z.of_nat k))).
Proof.
  induction n as [|n IH]; intros k v dc Hkn Hk Hv.
  - assert (k = 0%nat) as -> by lia. simpl. unfold JS.len. simpl. lia.
  - cbn [BITS.c_GetDataCount_bits]. unfold JS.gt, JS.lt.
    destruct (Z.ltb_spec 0 v) as [Hpos|Hz].
    + destruct k as [|k]; [simpl in Hv; lia|].
      assert (v < 2 ^ 31).
      { assert (2 ^ Z.of_nat (S k) <= 2 ^ 31) by (apply Z.pow_le_mono_r; lia). lia. }
      assert (v `div` 2 < 2 ^ Z.of_nat k).
      { apply Z.div_lt_upper_bound; [lia|].
        replace (Z.of_nat (S k)) with (Z.succ (Z.of_nat k)) in Hv by lia.
        rewrite Z.pow_succ_r in Hv by lia. lia. }
      assert (0 <= v `div` 2) by (apply Z.div_pos; lia).
      unfold JS.int. cbn [default]. unfold id.
      rewrite shru_small by lia. change (2 ^ 1) with 2.
      rewrite (IH k) by lia.
      pose proof (band_bit v 0 ltac:(lia) ltac:(lia)) as Hb.
      assert (E : JS.shl 1 0 = 1) by (vm_compute; reflexivity). rewrite E in Hb. rewrite Hb.
      rewrite (seqZ_cons 0 (Z.of_nat (S k))) by lia.
      replace (Z.pred (Z.of_nat (S k))) with (Z.of_nat k) by lia.
      change (Z.succ 0) with 1. rewrite filter_cons.
      unfold JS.len. rewrite <- count_bits_shift.
      destruct (decide (Z.testbit v 0)) as [Ht|Ht].
      * rewrite (Is_true_eq_true _ Ht), length_cons. lia.
      * apply Is_true_false_1 in Ht. rewrite Ht. lia.
    + assert (v = 0) as -> by lia. rewrite filter_none.
      * unfold JS.len. simpl. lia.
      * intros j _. rewrite Z.testbit_0_l. intros [].
Qed.

Lemma c_GetDataCount_bits_word (src_u16 : list Z) (i dc : Z) :
  JS.is_u16_array src_u16 = true →
  BITS.c_GetDataCount_bits 33 (JS.get src_u16 i) dc
  = dc + JS.len (Describe.set_bits (JS.int (JS.get src_u16 i))).
Proof.
  intros Hu. pose proof (u16_get_range src_u16 i Hu) as Hr.
  destruct (JS.get src_u16 i) as [v|].
  - apply (c_GetDataCount_bits_count 33 16 v dc); [lia | lia | exact Hr].
  - change (BITS.c_GetDataCount_bits 33 None dc) with dc.
    unfold Describe.set_bits, JS.int. cbn [default]. rewrite filter_none.
    + unfold JS.len. simpl. lia.
    + intros j _. rewrite Z.testbit_0_l. intros [].
Qed.

(** The blocks of the words tile the pixels. *)
Lemma blocks_pixels (bw bh : Z) :
  (Describe.pixels bw bh ≫= (fun p => Describe.block p.1 p.2))
  ≡ₚ Describe.pixels (4 * bw) (4 * bh).
Proof.
  apply NoDup_Permutation.
  - apply NoDup_bind.
    + intros [X1 Y1] [X2 Y2] [x y] _ _ H1 H2. unfold Describe.block in *.
      apply list_elem_of_fmap in H1 as (j1 & Heq1 & Hj1), H2 as (j2 & Heq2 & Hj2).
      apply elem_of_seqZ in Hj1, Hj2. simpl in *.
      injection Heq1 as -> ->. injection Heq2 as Hx Hy.
      f_equal; Z.div_mod_to_equations; lia.
    + intros [X Y] _. unfold Describe.block. apply NoDup_fmap_2_strong; [|apply NoDup_seqZ].
      intros j1 j2 Hj1 Hj2 Heq. apply elem_of_seqZ in Hj1, Hj2.
      injection Heq as Hx Hy. Z.div_mod_to_equations. lia.
    + apply NoDup_pixels.
  - apply NoDup_pixels.
  - intros [x y]. rewrite list_elem_of_bind, elem_of_pixels. split.
    + intros ([X Y] & Hb & Hp). apply elem_of_pixels in Hp. unfold Describe.block in Hb.
      apply list_elem_of_fmap in Hb as (j & Heq & Hj). apply elem_of_seqZ in Hj.
      simpl in Heq. injection Heq as -> ->. Z.div_mod_to_equations. lia.
    + intros [Hx Hy]. exists (x `div` 4, y `div` 4). split.
      * unfold Describe.block. apply list_elem_of_fmap.
        exists (4 * (y `mod` 4) + x `mod` 4). split.
        -- simpl. f_equal; Z.div_mod_to_equations; lia.
        -- apply elem_of_seqZ. Z.div_mod_to_equations. lia.
      * apply elem_of_pixels. Z.div_mod_to_equations. lia.
Qed.

(** The set pixels of a block are the set bits of its word. *)
Lemma block_set_pixels (src_u16 : list Z) (w h X Y : Z) :
  JS.is_u16_array src_u16 = true →
  0 <= w < 2 ^ 31 → 0 <= h < 2 ^ 31 → w `mod` 4 = 0 →
  0 <= X < w `div` 4 → 0 <= Y < h `div` 4 →
  length (filter (fun p => BITS.c_GetBit src_u16 p.1 p.2 w h = true) (Describe.block X Y))
  = length (Describe.set_bits (JS.int (JS.get src_u16 (Y * (w `div` 4) + X)))).
Proof.
  intros Hu Hw Hh Hw4 HX HY. unfold Describe.block, Describe.set_bits.
  rewrite filter_fmap_list, length_fmap. f_equal.
  apply filter_ext_elem. intros j Hj. apply elem_of_seqZ in Hj. cbn [fst snd].
  rewrite c_GetBit_word by (try done; Z.div_mod_to_equations; lia).
  replace ((4 * Y + j `div` 4) `div` 4) with Y by (Z.div_mod_to_equations; lia).
  replace ((4 * X + j `mod` 4) `div` 4) with X by (Z.div_mod_to_equations; lia).
  replace (4 * ((4 * Y + j `div` 4) `mod` 4) + (4 * X + j `mod` 4) `mod` 4) with j
    by (Z.div_mod_to_equations; lia).
  split; [by intros -> | apply Is_true_eq_true].
Qed.

Lemma foldl_count {A B : Type} (step : Z → A → Z) (f : A → list B) (l : list A) : ∀ a,
  (∀ a p, p ∈ l → step a p = a + JS.len (f p)) →
  foldl step a l = a + JS.len (l ≫= f).
Proof.
  induction l as [|p l IH]; intros a Hstep.
  - unfold JS.len. simpl. lia.
  - cbn [foldl]. rewrite IH by (intros a' p' Hp'; apply Hstep; by right).
    rewrite Hstep by left. rewrite bind_cons. unfold JS.len. rewrite length_app. lia.
Qed.

(** The Hamming weight of the index is the number of set pixels. *)
Lemma c_GetDataCount_count (src_u16 : list Z) (w h : Z) :
  JS.is_u16_array src_u16 = true →
  JS.len src_u16 = JS.shru w 2 * JS.shru h 2 →
  0 <= w < 2 ^ 31 → 0 <= h < 2 ^ 31 → w `mod` 4 = 0 → h `mod` 4 = 0 →
  BITS.c_GetDataCount (Some src_u16) w h = JS.len (Describe.set_pixels src_u16 w h).
Proof.
  intros Hu Hlen Hw Hh Hw4 Hh4. unfold BITS.c_GetDataCount. rewrite Hlen, Z.eqb_refl.
  cbv zeta. rewrite !shru_small by lia. change (2 ^ 2) with 4.
  change (JS.for_lt 0 (h `div` 4) 1 _ 0)
    with (JS.for_lt 0 (h `div` 4) 1 (fun y s => JS.for_lt 0 (w `div` 4) 1 (fun x s =>
            (fun x y dc =>
               BITS.c_GetDataCount_bits 33 (JS.get src_u16 (y * (w `div` 4) + x)) dc) x y s) s) 0).
  rewrite raster_foldl.
  rewrite (foldl_count _
             (fun p => filter (fun q => BITS.c_GetBit src_u16 q.1 q.2 w h = true)
                         (Describe.block p.1 p.2))).
  - rewrite <- filter_bind_list. unfold Describe.set_pixels, JS.len. rewrite Z.add_0_l.
    f_equal. apply Permutation_length, filter_Permutation.
    rewrite blocks_pixels.
    replace (4 * (w `div` 4)) with w by (Z.div_mod_to_equations; lia).
    replace (4 * (h `div` 4)) with h by (Z.div_mod_to_equations; lia). done.
  - intros a [X Y] Hp. apply elem_of_pixels in Hp. cbn [fst snd].
    rewrite c_GetDataCount_bits_word by done. unfold JS.len.
    rewrite block_set_pixels by (done || lia). done.
Qed.

Lemma store_from_app (vs : list Z) : ∀ (pre : list Z) (n : nat),
  Forall (fun v => 0 <= v < 2 ^ 32) vs →
  Describe.store_from (pre ++ replicate (length vs + n) 0) (JS.len pre) vs
  = pre ++ vs ++ replicate n 0.
Proof.
  induction vs as [|v vs IH]; intros pre n Hvs; [done|].
  apply Forall_cons in Hvs as [Hv Hvs]. cbn [Describe.store_from length Nat.add replicate].
  unfold JS.set_u32, JS.put, JS.len. destruct (Z.ltb_spec (Z.of_nat (length pre)) 0); [lia|].
  rewrite Nat2Z.id, insert_app_r_alt, Nat.sub_diag by lia. cbn [insert list_insert].
  unfold JS.int. cbn [default]. unfold id. rewrite ToUint32_small by lia.
  specialize (IH (pre ++ [v]) n Hvs). rewrite <- !app_assoc in IH. cbn [app] in IH.
  unfold JS.len in IH. rewrite length_app in IH. cbn [length] in IH.
  replace (Z.of_nat (length pre) + 1) with (Z.of_nat (length pre + 1)) by lia.
  exact IH.
Qed.

(** The listing loop stores the hit pixels one after the other. *)
Lemma foldl_store (hit : Z → Z → bool) (l : list (Z * Z)) : ∀ dx dy i,
  foldl (fun '(dest_x_u32, dest_y_u32, dest_i) p =>
           if hit p.1 p.2 then
             (JS.set_u32 dest_x_u32 dest_i (Some p.1),
              JS.set_u32 dest_y_u32 dest_i (Some p.2), dest_i + 1)
           else (dest_x_u32, dest_y_u32, dest_i)) (dx, dy, i) l
  = (Describe.store_from dx i (filter (fun p => hit p.1 p.2 = true) l).*1,
     Describe.store_from dy i (filter (fun p => hit p.1 p.2 = true) l).*2,
     i + JS.len (filter (fun p => hit p.1 p.2 = true) l)).
Proof.
  induction l as [|[x y] l IH]; intros dx dy i.
  - unfold JS.len. simpl. by rewrite Z.add_0_r.
  - cbn [foldl fst snd]. rewrite filter_cons. cbn [fst snd].
    destruct (hit x y) eqn:Hhit.
    + rewrite decide_True by done. rewrite IH. cbn [fmap list_fmap Describe.store_from fst snd].
      unfold JS.len. rewrite length_cons. f_equal. lia.
    + rewrite decide_False by done. apply IH.
Qed.

(** X6: for a tile whose sides are multiples of 4, the data count of a
    bitstore is the number of pixels of the tile whose bit is set. *)
Theorem GetDataCount_set_pixels (this : BITS.obj.t) (data : list Z) :
  BITS.obj.data this = Some data →
  JS.is_u16_array data = true →
  JS.len data = JS.shru (BITS.obj.img_width this) 2 * JS.shru (BITS.obj.img_height this) 2 →
  0 <= BITS.obj.img_width this < 2 ^ 31 → 0 <= BITS.obj.img_height this < 2 ^ 31 →
  BITS.obj.img_width this `mod` 4 = 0 → BITS.obj.img_height this `mod` 4 = 0 →
  BITS.GetDataCount this
  = JS.len (Describe.set_pixels data (BITS.obj.img_width this) (BITS.obj.img_height this)).
Proof.
  intros Hdata Hu Hlen Hw Hh Hw4 Hh4. unfold BITS.GetDataCount. rewrite Hdata.
  by apply c_GetDataCount_count.
Qed.

Lemma GetDataCount_set_pixels_witness :
  BITS.GetDataCount (BITS.new 2 0 0 0 8 8 (Some [0; 1024; 0; 7]) true)
  = JS.len (Describe.set_pixels [0; 1024; 0; 7] 8 8).
Proof.
  apply (GetDataCount_set_pixels (BITS.new 2 0 0 0 8 8 (Some [0; 1024; 0; 7]) true)
           [0; 1024; 0; 7]); try reflexivity; simpl; lia.
Defined.

(** X7: for a tile whose sides are multiples of 4, [c_DecomposeIndexIntoXY]
    returns the x and the y coordinates of the set pixels, row by row, in
    two arrays that they fill exactly. *)
Theorem c_DecomposeIndexIntoXY_set_pixels (src_u16 : list Z) (w h : Z) :
  JS.is_u16_array src_u16 = true →
  JS.len src_u16 = JS.shru w 2 * JS.shru h 2 →
  0 <= w < 2 ^ 31 → 0 <= h < 2 ^ 31 → w `mod` 4 = 0 → h `mod` 4 = 0 →
  BITS.c_DecomposeIndexIntoXY (Some src_u16) w h
  = JS.Normal (Some (Describe.set_pixels src_u16 w h).*1,
               Some (Describe.set_pixels src_u16 w h).*2).
Proof.
  intros Hu Hlen Hw Hh Hw4 Hh4. unfold BITS.c_DecomposeIndexIntoXY.
  rewrite Hlen, Z.eqb_refl, c_GetDataCount_count by done. cbv zeta.
  change (JS.for_lt 0 h 1 _ ?s0)
    with (JS.for_lt 0 h 1 (fun y st => JS.for_lt 0 w 1 (fun x st =>
            (fun x y '(dest_x_u32, dest_y_u32, dest_i) =>
               if BITS.bit_test src_u16 (JS.shru y 2 * JS.shru w 2 + JS.shru x 2)
                    (JS.shl (y - JS.shl (JS.shru y 2) 2) 2) x
               then (JS.set_u32 dest_x_u32 dest_i (Some x),
                     JS.set_u32 dest_y_u32 dest_i (Some y), dest_i + 1)
               else (dest_x_u32, dest_y_u32, dest_i)) x y st) st) s0).
  rewrite raster_foldl.
  rewrite (foldl_ext_list _
             (fun '(dest_x_u32, dest_y_u32, dest_i) p =>
                if BITS.c_GetBit src_u16 p.1 p.2 w h then
                  (JS.set_u32 dest_x_u32 dest_i (Some p.1),
                   JS.set_u32 dest_y_u32 dest_i (Some p.2), dest_i + 1)
                else (dest_x_u32, dest_y_u32, dest_i))).
  2: { intros [[dx dy] i] [x y] _. cbn [fst snd].
       rewrite (bit_test_c_GetBit src_u16 x y w h). reflexivity. }
  rewrite (foldl_store (fun x y => BITS.c_GetBit src_u16 x y w h)).
  fold (Describe.set_pixels src_u16 w h).
  assert (Hin : ∀ p, p ∈ Describe.set_pixels src_u16 w h → 0 <= p.1 < 2 ^ 32 ∧ 0 <= p.2 < 2 ^ 32).
  { intros [x y] Hp. apply list_elem_of_filter in Hp as [_ Hp].
    apply elem_of_pixels in Hp. simpl. lia. }
  pose proof (store_from_app ((Describe.set_pixels src_u16 w h).*1) [] 0) as Hx.
  pose proof (store_from_app ((Describe.set_pixels src_u16 w h).*2) [] 0) as Hy.
  rewrite Nat.add_0_r, length_fmap, app_nil_r in Hx, Hy. cbn [app] in Hx, Hy.
  unfold JS.zeros, JS.len at 1 2. rewrite Nat2Z.id.
  change (JS.len []) with 0 in Hx, Hy.
  rewrite Hx, Hy; [done | |].
  - apply Forall_fmap, Forall_forall. intros p Hp. by apply Hin.
  - apply Forall_fmap, Forall_forall. intros p Hp. by apply Hin.
Qed.

Lemma c_DecomposeIndexIntoXY_set_pixels_witness :
  BITS.c_DecomposeIndexIntoXY (Some [0; 1024; 0; 7]) 8 8
  = JS.Normal (Some (Describe.set_pixels [0; 1024; 0; 7] 8 8).*1,
               Some (Describe.set_pixels [0; 1024; 0; 7] 8 8).*2).
Proof.
  apply (c_DecomposeIndexIntoXY_set_pixels [0; 1024; 0; 7] 8 8); try reflexivity; lia.
Defined.

(** ** The shape of the bitmap and the recovery passes *)


Lemma is_u16_array_put l i v :
  JS.is_u16_array l = true → JS.is_u16_array (JS.set_u16 l i v) = true.
Proof.
  rewrite !is_u16_array_Forall. unfold JS.set_u16, JS.put. intros Hl.
  destruct (i <? 0); [done|]. apply Forall_insert; [done|].
  unfold JS.ToUint16. apply Z.mod_pos_bound. lia.
Qed.




Lemma cleared_refl src : Describe.cleared src src.
Proof. split; [done | by left]. Qed.

Lemma cleared_trans a b c :
  Describe.cleared a b → Describe.cleared b c → Describe.cleared a c.
Proof.
  intros [Hl1 H1] [Hl2 H2]. split; [congruence|]. intros k.
  destruct (H2 k) as [-> | ->]; [apply H1 | by right].
Qed.

Lemma cleared_put src d i :
  Describe.cleared src d → Describe.cleared src (JS.set_u8 d i (Some 0)).
Proof.
  intros [Hl H]. split; [unfold JS.set_u8; by rewrite length_put|].
  intros k. unfold JS.set_u8. rewrite get_put.
  destruct ((k =? i) && (0 <=? k) && (k <? JS.len d)); [by right | apply H].
Qed.

Lemma RecoverShadowAlpha_cleared (src : list Z) (ch_offset alpha_threshold unshd_threshold w h : Z) :
  Describe.cleared src
    (BITS.RecoverShadowAlphaInRGBA8888Tile src ch_offset alpha_threshold unshd_threshold w h).
Proof.
  unfold BITS.RecoverShadowAlphaInRGBA8888Tile. cbv zeta.
  apply (for_lt_inv (Describe.cleared src)); [apply cleared_refl|].
  intros y d Hd. apply (for_lt_inv (Describe.cleared src)); [exact Hd|].
  intros x d' Hd'. destruct (_ && _); [by apply cleared_put | done].
Qed.

Lemma RecoverYStroke_cleared (dest src : list Z) (ch_offset alpha_threshold w h : Z) :
  Describe.cleared dest
    (BITS.RecoverYStrokeInRGBA8888Tile dest src ch_offset alpha_threshold w h).
Proof.
  unfold BITS.RecoverYStrokeInRGBA8888Tile. cbv zeta.
  apply (for_lt_inv (Describe.cleared dest)); [apply cleared_refl|].
  intros y d Hd. apply (for_lt_inv (Describe.cleared dest)); [exact Hd|].
  intros x d' Hd'. destruct (_ && _); [by apply cleared_put | done].
Qed.

Lemma RecoverDStroke_cleared (dest src : list Z) (ch_offset alpha_threshold w h : Z) :
  Describe.cleared dest
    (BITS.RecoverDStrokeInRGBA8888Tile dest src ch_offset alpha_threshold w h).
Proof.
  unfold BITS.RecoverDStrokeInRGBA8888Tile. cbv zeta.
  apply (for_lt_inv (Describe.cleared dest)); [apply cleared_refl|].
  intros y d Hd. apply (for_lt_inv (Describe.cleared dest)); [exact Hd|].
  intros x d' Hd'. destruct (_ && _); [by apply cleared_put | done].
Qed.

Lemma unstroke_passes_cleared (src : list Z) (ch_offset alpha_threshold w h : Z) :
  Describe.cleared src (BITS.unstroke_passes src ch_offset alpha_threshold w h).
Proof.
  unfold BITS.unstroke_passes. cbv zeta.
  rewrite RecoverXStrokeInRGBA8888Tile_unchanged.
  eapply cleared_trans; [apply RecoverDStroke_cleared | apply RecoverYStroke_cleared].
Qed.

(** X9: of the three stroke passes only two act: the pass in the x
    direction returns its destination as it got it, so the three passes
    amount to the diagonal pass followed by the pass in the y direction,
    both reading the copy taken before the first. *)
Theorem unstroke_passes_without_x (src : list Z) (ch_offset alpha_threshold w h : Z) :
  (∀ dest backup, BITS.RecoverXStrokeInRGBA8888Tile dest backup ch_offset alpha_threshold w h
                  = dest)
  ∧ BITS.unstroke_passes src ch_offset alpha_threshold w h
    = BITS.RecoverYStrokeInRGBA8888Tile
        (BITS.RecoverDStrokeInRGBA8888Tile src (map JS.ToUint8 src) ch_offset
           alpha_threshold w h)
        (map JS.ToUint8 src) ch_offset alpha_threshold w h.
Proof.
  split.
  - intros dest backup. apply RecoverXStrokeInRGBA8888Tile_unchanged.
  - unfold BITS.unstroke_passes. cbv zeta.
    by rewrite RecoverXStrokeInRGBA8888Tile_unchanged.
Qed.

(** With the length test passed, the recovery options amount to building
    the bitmap from the recovered raster. *)
Lemma GetBitmapFromRGBA8888Tile_recovered (src : list Z) (unshadow unstroke : bool) (ch_offset alpha_threshold unshd_threshold w h : Z) :
  JS.len src = JS.shl (w * h) 2 →
  ∃ src',
    Describe.cleared src src'
    ∧ BITS.GetBitmapFromRGBA8888Tile (Some src) unshadow unstroke ch_offset alpha_threshold
        unshd_threshold w h
      = BITS.GetBitmapFromRGBA8888Tile (Some src') false false ch_offset alpha_threshold
          unshd_threshold w h.
Proof.
  intros Hlen.
  set (src1 := if unshadow
               then BITS.RecoverShadowAlphaInRGBA8888Tile src ch_offset alpha_threshold
                      unshd_threshold w h
               else src).
  set (src2 := if unstroke
               then BITS.unstroke_passes src1 ch_offset alpha_threshold w h else src1).
  assert (H1 : Describe.cleared src src1).
  { unfold src1. destruct unshadow; [apply RecoverShadowAlpha_cleared | apply cleared_refl]. }
  assert (H2 : Describe.cleared src src2).
  { unfold src2. destruct unstroke; [|done].
    eapply cleared_trans; [exact H1 | apply unstroke_passes_cleared]. }
  exists src2. split; [exact H2|].
  unfold BITS.GetBitmapFromRGBA8888Tile.
  assert (JS.len src2 = JS.len src) as -> by (unfold JS.len; by rewrite (proj1 H2)).
  rewrite Hlen, Z.eqb_refl. reflexivity.
Qed.

(** X10: the recovery passes never add data.  For a raster of bytes, a
    pixel that is set in the bitmap built with any of the recovery
    options is set in the bitmap built without them. *)
Theorem recovery_never_adds_data (src : list Z) (unshadow unstroke : bool) (ch_offset alpha_threshold unshd_threshold w h x y : Z) :
  Forall (fun v => 0 <= v < 256) src →
  w `mod` 4 = 0 → h `mod` 4 = 0 → w * h < 2 ^ 29 →
  JS.len src = w * h * 4 →
  0 <= x < w → 0 <= y < h →
  ∃ plain recovered,
    BITS.GetBitmapFromRGBA8888Tile (Some src) false false ch_offset alpha_threshold
      unshd_threshold w h = JS.Normal (Some plain)
    ∧ BITS.GetBitmapFromRGBA8888Tile (Some src) unshadow unstroke ch_offset alpha_threshold
        unshd_threshold w h = JS.Normal (Some recovered)
    ∧ (BITS.c_GetBit recovered x y w h = true → BITS.c_GetBit plain x y w h = true).
Proof.
  intros Hbytes Hw4 Hh4 Hsize Hlen Hx Hy.
  assert (Hshl : JS.shl (w * h) 2 = w * h * 4).
  { rewrite shl_small by nia. reflexivity. }
  destruct (GetBitmapFromRGBA8888Tile_recovered src unshadow unstroke ch_offset
              alpha_threshold unshd_threshold w h) as (src' & [Hl Hc] & ->); [lia|].
  destruct (GetBit_after_build src ch_offset alpha_threshold unshd_threshold w h x y)
    as (plain & Hplain & Hbit); try done.
  destruct (GetBit_after_build src' ch_offset alpha_threshold unshd_threshold w h x y)
    as (recovered & Hrec & Hbit'); try done.
  { unfold JS.len in *. by rewrite Hl. }
  exists plain, recovered. split; [exact Hplain|]. split; [exact Hrec|].
  rewrite Hbit, Hbit'.
  set (k := 4 * (y * w + x) + ch_offset).
  destruct (Hc k) as [-> | Hz]; [done|]. rewrite Hz.
  unfold JS.ge, JS.le. intros Hat%Z.leb_le.
  destruct (JS.get src k) as [v|] eqn:Hv.
  - apply Z.leb_le. unfold JS.get in Hv. destruct (_ <? 0); [done|].
    pose proof (Forall_lookup_1 _ _ _ _ Hbytes Hv) as Hr. simpl in Hr. lia.
  - exfalso. unfold JS.get in Hv, Hz. destruct (k <? 0); [done|].
    apply lookup_ge_None in Hv. rewrite <- Hl in Hv. apply lookup_ge_None in Hv.
    congruence.
Qed.

Lemma recovery_never_adds_data_witness :
  ∃ plain recovered,
    BITS.GetBitmapFromRGBA8888Tile (Some Sample.stroke_raster) false false 3 1 1 8 4
    = JS.Normal (Some plain)
    ∧ BITS.GetBitmapFromRGBA8888Tile (Some Sample.stroke_raster) true true 3 1 1 8 4
      = JS.Normal (Some recovered)
    ∧ (BITS.c_GetBit recovered 1 1 8 4 = true → BITS.c_GetBit plain 1 1 8 4 = true).
Proof.
  apply (recovery_never_adds_data Sample.stroke_raster true true 3 1 1 8 4 1 1);
    [ apply (bool_decide_unpack _); vm_compute; reflexivity
    | reflexivity | reflexivity | lia | reflexivity | lia | lia ].
Defined.

(** ** The local cache *)

(** Decoding the two strings of a grid gives the grid back. *)
Lemma decode_nonzero (grid : list Z) (w h : Z) :
  JS.is_u16_array grid = true →
  JS.len grid = JS.shru w 2 * JS.shru h 2 →
  JS.len grid <= 65536 →
  LBITS.DecodeBitmapIndexFromBinaryString
    (map (fun p => JS.ToUint16 p.1) (Describe.nonzero_from 0 grid)
     ++ map (fun p => JS.ToUint16 p.2) (Describe.nonzero_from 0 grid)) w h
  = grid.
Proof.
  intros Hu Hwh Hlen.
  pose proof (length_nonzero_from grid 0) as Hnz.
  rewrite DecodeBitmapIndexFromBinaryString_fold.
  - rewrite <- Hwh, zeros_len.
    apply (scatter_nonzero grid [] 0 Hu). unfold JS.len in *. simpl. lia.
  - by rewrite !length_map.
  - apply (is_u16_array_map_ToUint16 fst).
  - apply (is_u16_array_map_ToUint16 snd).
  - unfold JS.len in *. rewrite length_map. lia.
Qed.

Lemma nonzero_from_nonempty (l : list Z) : ∀ off,
  Exists (fun v => v ≠ 0) l → (1 ≤ length (Describe.nonzero_from off l))%nat.
Proof.
  induction l as [|v l IH]; intros off Hex; [by apply Exists_nil in Hex|].
  simpl. destruct (Z.eqb_spec v 0) as [->|Hne].
  - apply Exists_cons in Hex as [?|Hex]; [done|]. by apply IH.
  - simpl. lia.
Qed.

Lemma nonzero_from_all_zero (l : list Z) : ∀ off,
  Forall (fun v => v = 0) l → Describe.nonzero_from off l = [].
Proof.
  induction l as [|v l IH]; intros off Hall; [done|].
  apply Forall_cons in Hall as [-> Hall]. simpl. by apply IH.
Qed.

(** What the cache holds for a bitstore after it has been added. *)
Lemma AddBitstoreToLocalCache_lookup (this : LBITS.obj.t) (bs : BITS.obj.t) (grid : list Z) :
  LBITS.obj.net_cache_enable this = true →
  BITS.obj.data bs = Some grid →
  LBITS.StorageGet (LBITS.AddBitstoreToLocalCache this bs)
    (LBITS.GetStorageKey this (BITS.obj.x bs) (BITS.obj.y bs) (BITS.obj.z bs))
  = LBITS.StorageStreamDescriptorGetAndDecodeIfVerified
      (Some (LBITS.StorageStreamDescriptorCreate (LBITS.obj.img_width this)
               (LBITS.obj.img_height this)
             ++ map (fun p => JS.ToUint16 p.1) (Describe.nonzero_from 0 grid)
             ++ map (fun p => JS.ToUint16 p.2) (Describe.nonzero_from 0 grid)))
      (LBITS.obj.img_width this) (LBITS.obj.img_height this).
Proof.
  intros Hcache Hdata.
  unfold LBITS.AddBitstoreToLocalCache, BITS.DecomposeIndexIntoIV.
  rewrite Hcache, Hdata, c_DecomposeIndexIntoIV_nonzero.
  unfold LBITS.StorageSet, LBITS.StorageGet. rewrite Hcache.
  cbn [negb LBITS.obj.net_cache_enable LBITS.obj.localStorage LBITS.obj.img_width
       LBITS.obj.img_height LBITS.obj.with_localStorage].
  rewrite Hcache. cbn [negb]. by rewrite lookup_insert_eq.
Qed.

(** A string made by [StorageSet] for a grid with a nonzero word is
    verified and decoded to the grid. *)
Lemma StorageStreamDescriptor_roundtrip (grid : list Z) (w h : Z) :
  JS.is_u16_array grid = true →
  JS.len grid = JS.shru w 2 * JS.shru h 2 →
  JS.len grid <= 65536 →
  0 <= w < 65536 → 0 <= h < 65536 →
  Exists (fun v => v ≠ 0) grid →
  LBITS.StorageStreamDescriptorGetAndDecodeIfVerified
    (Some (LBITS.StorageStreamDescriptorCreate w h
           ++ map (fun p => JS.ToUint16 p.1) (Describe.nonzero_from 0 grid)
           ++ map (fun p => JS.ToUint16 p.2) (Describe.nonzero_from 0 grid))) w h
  = Some grid.
Proof.
  intros Hu Hwh Hlen Hw Hh Hex.
  pose proof (nonzero_from_nonempty grid 0 Hex) as Hnz.
  set (di := map (fun p => JS.ToUint16 p.1) (Describe.nonzero_from 0 grid)) in *.
  set (dv := map (fun p => JS.ToUint16 p.2) (Describe.nonzero_from 0 grid)) in *.
  assert (Hdi : (1 ≤ length di)%nat) by (unfold di; by rewrite length_map).
  assert (Hdv : (1 ≤ length dv)%nat) by (unfold dv; by rewrite length_map).
  unfold LBITS.StorageStreamDescriptorGetAndDecodeIfVerified,
    LBITS.StorageStreamDescriptorVerify, LBITS.StorageStreamDescriptorRemove,
    LBITS.StorageStreamDescriptorCreate.
  rewrite !(ToUint16_small w), !(ToUint16_small h) by lia.
  assert (Hl : JS.len ([66; 83; 86; 51; w; h; 0; 0] ++ di ++ dv)
               = 8 + JS.len di + JS.len dv).
  { unfold JS.len. rewrite !length_app. simpl. lia. }
  assert (Hd : LBITS.has_descriptor ([66; 83; 86; 51; w; h; 0; 0] ++ di ++ dv) = true).
  { unfold LBITS.has_descriptor. rewrite Hl.
    destruct (Z.leb_spec 10 (8 + JS.len di + JS.len dv)); [|unfold JS.len in *; lia].
    reflexivity. }
  rewrite Hd, Hl. destruct (Z.eqb_spec (8 + JS.len di + JS.len dv) 0);
    [unfold JS.len in *; lia|].
  change (JS.get ([66; 83; 86; 51; w; h; 0; 0] ++ di ++ dv) 4) with (Some w).
  change (JS.get ([66; 83; 86; 51; w; h; 0; 0] ++ di ++ dv) 5) with (Some h).
  unfold JS.eq_num. rewrite !Z.eqb_refl. cbn [andb drop app].
  f_equal. by apply decode_nonzero.
Qed.

(** X11: the cache gives back what was put into it.  With the cache
    enabled, for a bitstore whose index has the size of the layer's tiles,
    at most 65536 words and at least one nonzero word, and for tiles
    narrower and lower than 65536 pixels, [StorageGet] at the key of the
    bitstore returns, after [AddBitstoreToLocalCache], the index of the
    bitstore word for word. *)
Theorem StorageGet_after_AddBitstoreToLocalCache (this : LBITS.obj.t) (bs : BITS.obj.t) (grid : list Z) :
  LBITS.obj.net_cache_enable this = true →
  BITS.obj.data bs = Some grid →
  JS.is_u16_array grid = true →
  JS.len grid
  = JS.shru (LBITS.obj.img_width this) 2 * JS.shru (LBITS.obj.img_height this) 2 →
  JS.len grid <= 65536 →
  0 <= LBITS.obj.img_width this < 65536 →
  0 <= LBITS.obj.img_height this < 65536 →
  Exists (fun v => v ≠ 0) grid →
  LBITS.StorageGet (LBITS.AddBitstoreToLocalCache this bs)
    (LBITS.GetStorageKey this (BITS.obj.x bs) (BITS.obj.y bs) (BITS.obj.z bs))
  = Some grid.
Proof.
  intros Hcache Hdata Hu Hwh Hlen Hw Hh Hex.
  rewrite (AddBitstoreToLocalCache_lookup this bs grid Hcache Hdata).
  by apply StorageStreamDescriptor_roundtrip.
Qed.

Lemma StorageGet_after_AddBitstoreToLocalCache_witness :
  LBITS.StorageGet
    (LBITS.AddBitstoreToLocalCache Sample.layer8
       (BITS.new 2 3 5 4 8 8 (Some [0; 1024; 0; 7]) true))
    (LBITS.GetStorageKey Sample.layer8 3 5 4)
  = Some [0; 1024; 0; 7].
Proof.
  apply (StorageGet_after_AddBitstoreToLocalCache Sample.layer8
           (BITS.new 2 3 5 4 8 8 (Some [0; 1024; 0; 7]) true) [0; 1024; 0; 7]);
    [ reflexivity | reflexivity | reflexivity | reflexivity
    | vm_compute; discriminate
    | change (0 <= 8 < 65536); lia
    | change (0 <= 8 < 65536); lia
    | apply Exists_cons_tl, Exists_cons_hd; lia ].
Defined.

(** X12: an index without any nonzero word does not survive the cache.
    Its cached string is the descriptor alone, eight code units, too short
    to be taken for one: for tiles of 256x256 it is read as a headerless
    string and decodes to a grid with the words 66 and 83 set to 256, and
    for tiles of any other size the cache answers null. *)
Theorem StorageGet_after_caching_empty_index (this : LBITS.obj.t) (bs : BITS.obj.t) (grid : list Z) :
  LBITS.obj.net_cache_enable this = true →
  BITS.obj.data bs = Some grid →
  Forall (fun v => v = 0) grid →
  LBITS.StorageGet (LBITS.AddBitstoreToLocalCache this bs)
    (LBITS.GetStorageKey this (BITS.obj.x bs) (BITS.obj.y bs) (BITS.obj.z bs))
  = if (LBITS.obj.img_width this =? 256) && (LBITS.obj.img_height this =? 256)
    then Some (<[66%nat := 256]> (<[83%nat := 256]> (replicate 4096 0)))
    else None.
Proof.
  intros Hcache Hdata Hzero.
  rewrite (AddBitstoreToLocalCache_lookup this bs grid Hcache Hdata).
  rewrite (nonzero_from_all_zero grid 0 Hzero). cbn [map app].
  unfold LBITS.StorageStreamDescriptorGetAndDecodeIfVerified,
    LBITS.StorageStreamDescriptorVerify, LBITS.StorageStreamDescriptorRemove,
    LBITS.StorageStreamDescriptorCreate.
  rewrite app_nil_r.
  set (w := LBITS.obj.img_width this). set (h := LBITS.obj.img_height this).
  change (JS.len [66; 83; 86; 51; JS.ToUint16 w; JS.ToUint16 h; 0; 0]) with 8.
  change (LBITS.has_descriptor [66; 83; 86; 51; JS.ToUint16 w; JS.ToUint16 h; 0; 0])
    with false.
  change (8 =? 0) with false. cbv iota.
  clearbody w h.
  destruct (Z.eqb_spec w 256) as [-> | Hw]; [|reflexivity].
  destruct (Z.eqb_spec h 256) as [-> | Hh]; [|reflexivity].
  vm_compute. reflexivity.
Qed.

Lemma StorageGet_after_caching_empty_index_witness :
  LBITS.StorageGet
    (LBITS.AddBitstoreToLocalCache Sample.layer
       (BITS.new 2 0 0 0 256 256 (Some (JS.zeros 4096)) true))
    (LBITS.GetStorageKey Sample.layer 0 0 0)
  = if (LBITS.obj.img_width Sample.layer =? 256) && (LBITS.obj.img_height Sample.layer =? 256)
    then Some (<[66%nat := 256]> (<[83%nat := 256]> (replicate 4096 0)))
    else None.
Proof.
  apply (StorageGet_after_caching_empty_index Sample.layer
           (BITS.new 2 0 0 0 256 256 (Some (JS.zeros 4096)) true) (JS.zeros 4096));
    [reflexivity | reflexivity | apply Forall_replicate; reflexivity].
Defined.

(** X13: a string cached for tiles of one size is not decoded by a layer
    with tiles of another size. *)
Theorem StorageStreamDescriptor_other_size (w h w' h' : Z) (payload : list Z) :
  0 <= w' < 65536 → 0 <= h' < 65536 → 2 <= JS.len payload →
  (w, h) ≠ (w', h') →
  LBITS.StorageStreamDescriptorGetAndDecodeIfVerified
    (Some (LBITS.StorageStreamDescriptorCreate w' h' ++ payload)) w h
  = None.
Proof.
  intros Hw' Hh' Hp Hne.
  unfold LBITS.StorageStreamDescriptorGetAndDecodeIfVerified,
    LBITS.StorageStreamDescriptorVerify, LBITS.StorageStreamDescriptorCreate.
  rewrite !ToUint16_small by lia.
  assert (Hl : JS.len ([66; 83; 86; 51; w'; h'; 0; 0] ++ payload) = 8 + JS.len payload).
  { unfold JS.len. rewrite length_app. simpl. lia. }
  assert (Hd : LBITS.has_descriptor ([66; 83; 86; 51; w'; h'; 0; 0] ++ payload) = true).
  { unfold LBITS.has_descriptor. rewrite Hl.
    destruct (Z.leb_spec 10 (8 + JS.len payload)); [|lia]. reflexivity. }
  rewrite Hd, Hl. destruct (Z.eqb_spec (8 + JS.len payload) 0); [lia|].
  change (JS.get ([66; 83; 86; 51; w'; h'; 0; 0] ++ payload) 4) with (Some w').
  change (JS.get ([66; 83; 86; 51; w'; h'; 0; 0] ++ payload) 5) with (Some h').
  unfold JS.eq_num.
  destruct (Z.eqb_spec w w') as [->|]; [|reflexivity].
  destruct (Z.eqb_spec h h') as [->|]; [done | reflexivity].
Qed.

Lemma StorageStreamDescriptor_other_size_witness :
  LBITS.StorageStreamDescriptorGetAndDecodeIfVerified
    (Some (LBITS.StorageStreamDescriptorCreate 512 512 ++ [1; 1024])) 256 256
  = None.
Proof.
  apply (StorageStreamDescriptor_other_size 256 256 512 512 [1; 1024]);
    [lia | lia | vm_compute; discriminate | discriminate].
Defined.

(** ** Finding and consulting the members *)

Lemma FindBitstoreWithXYZ_from_spec (x y z : Z) (l : list BITS.obj.t) : ∀ (i : nat),
  match LBITS.FindBitstoreWithXYZ_from l i x y z with
  | Some k =>
      ∃ bs, (i ≤ k)%nat ∧ l !! (k - i)%nat = Some bs
        ∧ (x = -1 ∨ BITS.obj.x bs = x) ∧ (y = -1 ∨ BITS.obj.y bs = y) ∧ BITS.obj.z bs = z
        ∧ ∀ (j : nat) bs', (j < k - i)%nat → l !! j = Some bs' →
            ¬ ((x = -1 ∨ BITS.obj.x bs' = x) ∧ (y = -1 ∨ BITS.obj.y bs' = y)
               ∧ BITS.obj.z bs' = z)
  | None =>
      ∀ bs, bs ∈ l →
        ¬ ((x = -1 ∨ BITS.obj.x bs = x) ∧ (y = -1 ∨ BITS.obj.y bs = y) ∧ BITS.obj.z bs = z)
  end.
Proof.
  induction l as [|b l IH]; intros i; simpl.
  - intros bs Hbs. by apply elem_of_nil in Hbs.
  - destruct (((x =? -1) || (BITS.obj.x b =? x)) && ((y =? -1) || (BITS.obj.y b =? y))
              && (BITS.obj.z b =? z)) eqn:Hm.
    + apply andb_prop in Hm as [Hm Hz]. apply andb_prop in Hm as [Hx Hy].
      exists b. rewrite Nat.sub_diag. split; [lia|]. split; [done|].
      split; [apply orb_prop in Hx as [?|?]; [left | right]; lia|].
      split; [apply orb_prop in Hy as [?|?]; [left | right]; lia|].
      split; [lia|]. intros j bs' Hj. lia.
    + assert (Hb : ¬ ((x = -1 ∨ BITS.obj.x b = x) ∧ (y = -1 ∨ BITS.obj.y b = y)
                      ∧ BITS.obj.z b = z)).
      { intros (Hx & Hy & Hz). rewrite <- not_true_iff_false in Hm. apply Hm.
        repeat (apply andb_true_intro; split).
        - apply orb_true_intro. destruct Hx; [left | right]; lia.
        - apply orb_true_intro. destruct Hy; [left | right]; lia.
        - lia. }
      specialize (IH (S i)).
      destruct (LBITS.FindBitstoreWithXYZ_from l (S i) x y z) as [k|].
      * destruct IH as (bs & Hk & Hbs & Hx & Hy & Hz & Hfirst).
        exists bs. split; [lia|].
        replace (k - i)%nat with (S (k - S i)) by lia. repeat split; try done.
        intros j bs' Hj Hbs'. destruct j as [|j].
        -- simpl in Hbs'. by injection Hbs' as <-.
        -- simpl in Hbs'. apply (Hfirst j bs'); [lia | done].
      * intros bs [->|Hbs]%elem_of_cons; [done | by apply IH].
Qed.

(** X14: [FindBitstoreWithXYZ] returns the first member whose coordinates
    match, where -1 for x or y matches every value, and null when no
    member matches. *)
Theorem FindBitstoreWithXYZ_first_match (this : LBITS.obj.t) (x y z : Z) :
  match LBITS.FindBitstoreWithXYZ this x y z with
  | Some k =>
      ∃ bs, LBITS.obj.bitstores this !! k = Some bs
        ∧ (x = -1 ∨ BITS.obj.x bs = x) ∧ (y = -1 ∨ BITS.obj.y bs = y) ∧ BITS.obj.z bs = z
        ∧ ∀ (j : nat) bs', (j < k)%nat → LBITS.obj.bitstores this !! j = Some bs' →
            ¬ ((x = -1 ∨ BITS.obj.x bs' = x) ∧ (y = -1 ∨ BITS.obj.y bs' = y)
               ∧ BITS.obj.z bs' = z)
  | None =>
      ∀ bs, bs ∈ LBITS.obj.bitstores this →
        ¬ ((x = -1 ∨ BITS.obj.x bs = x) ∧ (y = -1 ∨ BITS.obj.y bs = y) ∧ BITS.obj.z bs = z)
  end.
Proof.
  unfold LBITS.FindBitstoreWithXYZ.
  pose proof (FindBitstoreWithXYZ_from_spec x y z (LBITS.obj.bitstores this) 0) as H.
  destruct (LBITS.FindBitstoreWithXYZ_from (LBITS.obj.bitstores this) 0 x y z) as [k|];
    [|exact H].
  destruct H as (bs & _ & Hbs & Hx & Hy & Hz & Hfirst).
  rewrite Nat.sub_0_r in Hbs, Hfirst. exists bs. repeat split; try done.
Qed.

(** Symbolic evaluation of the stores and reads of a short typed array. *)
Ltac eval_array :=
  cbv beta iota zeta delta
    [JS.set_u32 JS.put JS.get JS.zeros JS.mul JS.add JS.int default from_option id
     insert list_insert lookup list_lookup replicate Z.to_nat Pos.to_nat Pos.iter_op
     Init.Nat.add Z.ltb Z.compare].

(** The extent vector of a call that leaves out the tile size. *)
Lemma c_GetNewPxExtentVector_u32_no_size (x y z dest_z : Z) :
  BITS.c_GetNewPxExtentVector_u32 x y z dest_z None None
  = [0; 0; 4294967295; 4294967295; JS.ToUint32 dest_z; JS.ToUint32 z].
Proof.
  unfold BITS.c_GetNewPxExtentVector_u32, BITS.c_SetPxExtentVector_u32.
  assert (Hm : ∀ a b, BITS.c_MercXZtoMercXZ 0 a b = 0).
  { intros a b. unfold BITS.c_MercXZtoMercXZ. destruct (a <? b).
    - unfold JS.shl. change (JS.ToInt32 0) with 0. by rewrite Z.shiftl_0_l.
    - unfold JS.shru. change (JS.ToUint32 0) with 0. by rewrite Z.shiftr_0_l. }
  eval_array. rewrite !Hm. reflexivity.
Qed.

(** X15: when the caller passes no extent, [CanIndexTile] builds one
    without the tile size, which comes out as the whole 32-bit range: the
    check then does not depend on the tile, and passes exactly when the
    far edges of the member's extent are not 0. *)
Theorem CanIndexTile_without_extent (this : BITS.obj.t) (x y z : Z) :
  JS.is_u32_array (BITS.obj.extent this) = true →
  BITS.CanIndexTile this x y z None
  = negb (JS.le (JS.get (BITS.obj.extent this) 2) (Some 0)
          || JS.le (JS.get (BITS.obj.extent this) 3) (Some 0)).
Proof.
  intros Hu. unfold BITS.CanIndexTile. rewrite c_GetNewPxExtentVector_u32_no_size.
  change (JS.get [0; 0; 4294967295; 4294967295; _; _] 0) with (Some 0).
  change (JS.get [0; 0; 4294967295; 4294967295; _; _] 1) with (Some 0).
  change (JS.get [0; 0; 4294967295; 4294967295; _; _] 2) with (Some 4294967295).
  change (JS.get [0; 0; 4294967295; 4294967295; _; _] 3) with (Some 4294967295).
  assert (Hlt : ∀ k, JS.lt (Some 4294967295) (JS.get (BITS.obj.extent this) k) = false).
  { intros k. destruct (JS.get (BITS.obj.extent this) k) as [v|] eqn:Hv; [|done].
    pose proof (is_u32_array_get _ _ _ Hu Hv). unfold JS.lt.
    destruct (Z.ltb_spec 4294967295 v); [lia | done]. }
  rewrite !Hlt. unfold JS.ge. by rewrite !orb_false_l, orb_false_r.
Qed.

Lemma CanIndexTile_without_extent_witness :
  BITS.CanIndexTile (BITS.new 2 0 0 0 8 8 None true) 5 7 3 None
  = negb (JS.le (JS.get (BITS.obj.extent (BITS.new 2 0 0 0 8 8 None true)) 2) (Some 0)
          || JS.le (JS.get (BITS.obj.extent (BITS.new 2 0 0 0 8 8 None true)) 3) (Some 0)).
Proof.
  apply (CanIndexTile_without_extent (BITS.new 2 0 0 0 8 8 None true) 5 7 3).
  vm_compute. reflexivity.
Defined.

(** X16: in the full lazy load mode the predicate throws as soon as its
    loop comes to a husk: the guard reads [bs[i].getting] on the member
    itself.  Here the layer holds its master, which answers true, and one
    husk added after it. *)
Theorem ShouldLoadTile_full_lazy_husk_throws
    (AddAllDefaultBitstores : LBITS.obj.t → JS.result LBITS.obj.t)
    (this : LBITS.obj.t) (master master' : BITS.obj.t) (hx hy hz layerId x y z : Z)
    (extent_u32 : option (list Z)) :
  LBITS.obj.layerId this = layerId →
  LBITS.obj.isReady this = true →
  LBITS.obj._didLazyLoad this = true →
  LBITS.obj.idx_lazyload_detail this = true →
  LBITS.obj.idx_lazyload_dim this = false →
  LBITS.obj.bitstores this = [master] →
  BITS.obj.needGet master = false →
  BITS.ShouldLoadTile master layerId x y z extent_u32 = JS.Normal (true, master') →
  BITS.obj.needProc master = BITS.obj.needProc master' →
  LBITS.obj.minZ this <= z <= LBITS.obj.maxZ this →
  0 <= x < JS.shl 1 z → 0 <= y < JS.shl 1 z →
  LBITS.IsTileInExtent this x y z extent_u32 = true →
  LBITS.ShouldLoadTile AddAllDefaultBitstores (LBITS.AddBitstoreHusk this hx hy hz)
    layerId x y z extent_u32
  = JS.Throw JS.TypeError.
Proof.
  intros Hid Hready Hdid Hdetail Hdim Hbs Hget Hmaster Hproc Hz Hx Hy Hext.
  unfold LBITS.ShouldLoadTile, LBITS.AddBitstoreHusk. cbv zeta.
  cbn [LBITS.obj.layerId LBITS.obj.isReady LBITS.obj.idx_lazyload_detail
       LBITS.obj._didLazyLoad LBITS.obj.with_bitstores LBITS.obj.minZ LBITS.obj.maxZ
       LBITS.obj.bitstores].
  rewrite Hid, Z.eqb_refl, Hready, Hdetail, Hdid, Hbs. cbn [andb negb JS.bind app].
  cbn [LBITS.obj.minZ LBITS.obj.maxZ LBITS.obj.bitstores LBITS.obj.with_bitstores].
  assert (LBITS.IsTileInExtent
            (LBITS.obj.with_bitstores
               [master;
                BITS.obj.with_img_fx (LBITS.obj.img_fx_unshadow this)
                  (LBITS.obj.img_fx_unstroke this) (LBITS.obj.img_ch_offset this)
                  (LBITS.obj.img_alpha_threshold this) (LBITS.obj.img_unshd_threshold this)
                  (BITS.obj.with_getting false
                     (BITS.obj.with_needGet true
                        (BITS.new layerId hx hy hz (LBITS.obj.img_width this)
                           (LBITS.obj.img_height this) None false)))] this)
            x y z extent_u32 = true) as ->.
  { exact Hext. }
  assert ((LBITS.obj.minZ this <=? z) && (z <=? LBITS.obj.maxZ this) && (0 <=? x)
          && (0 <=? y) && (x <? JS.shl 1 z) && (y <? JS.shl 1 z) && true = true) as ->.
  { repeat (apply andb_true_iff; split); try done; lia. }
  cbn [LBITS.ShouldLoadTile_loop LBITS.obj.idx_lazyload_detail LBITS.obj.idx_lazyload_dim
       LBITS.obj.with_bitstores].
  rewrite Hdetail, Hdim, Hget, Hmaster. cbn [andb negb JS.bind fst snd].
  rewrite Hproc, andb_negb_r. cbn [JS.bind negb].
  cbn [LBITS.obj.idx_lazyload_detail LBITS.obj.idx_lazyload_dim LBITS.obj.with_bitstores].
  rewrite Hdetail, Hdim. reflexivity.
Qed.

Lemma ShouldLoadTile_full_lazy_husk_throws_witness :
  LBITS.ShouldLoadTile JS.Normal (LBITS.AddBitstoreHusk Sample.layer_full_lazy 1 1 1)
    2 0 0 0 None
  = JS.Throw JS.TypeError.
Proof.
  apply (ShouldLoadTile_full_lazy_husk_throws JS.Normal Sample.layer_full_lazy
           Sample.master8 Sample.master8 1 1 1 2 0 0 0 None);
    [ reflexivity | reflexivity | reflexivity | reflexivity | reflexivity | reflexivity
    | reflexivity | vm_compute; reflexivity | reflexivity
    | split; vm_compute; discriminate
    | split; [vm_compute; discriminate | vm_compute; reflexivity]
    | split; [vm_compute; discriminate | vm_compute; reflexivity]
    | reflexivity ].
Defined.

(** X17: outside the full lazy load mode and with no lazy initialisation
    pending, a ready layer answers false for a tile outside its zoom range
    or outside the world of its zoom level without consulting a member,
    and stays as it is. *)
Theorem ShouldLoadTile_outside_world
    (AddAllDefaultBitstores : LBITS.obj.t → JS.result LBITS.obj.t)
    (this : LBITS.obj.t) (layerId x y z : Z) (extent_u32 : option (list Z)) :
  LBITS.obj.layerId this = layerId →
  LBITS.obj.isReady this = true →
  LBITS.obj.idx_lazyload_detail this && negb (LBITS.obj._didLazyLoad this) = false →
  LBITS.obj.idx_lazyload_detail this && negb (LBITS.obj.idx_lazyload_dim this) = false →
  ¬ (LBITS.obj.minZ this <= z <= LBITS.obj.maxZ this
     ∧ 0 <= x < JS.shl 1 z ∧ 0 <= y < JS.shl 1 z) →
  LBITS.ShouldLoadTile AddAllDefaultBitstores this layerId x y z extent_u32
  = JS.Normal (false, this).
Proof.
  intros Hid Hready Hinit Hmode Hout. unfold LBITS.ShouldLoadTile.
  rewrite Hid, Z.eqb_refl, Hready, Hinit. cbn [andb JS.bind].
  assert ((LBITS.obj.minZ this <=? z) && (z <=? LBITS.obj.maxZ this) && (0 <=? x)
          && (0 <=? y) && (x <? JS.shl 1 z) && (y <? JS.shl 1 z)
          && LBITS.IsTileInExtent this x y z extent_u32 = false) as ->.
  { apply not_true_iff_false. intros H. apply Hout.
    repeat (apply andb_prop in H as [H ?]). lia. }
  destruct this as [lid mn mx bss ext lm rdy dll wfl dez nce ild idm ifs ift ico iat iut iw ih ls].
  destruct bss as [|bs rest]; [reflexivity|].
  cbn [LBITS.ShouldLoadTile_loop LBITS.obj.idx_lazyload_detail LBITS.obj.idx_lazyload_dim
       LBITS.obj.bitstores].
  simpl in Hmode. rewrite Hmode. reflexivity.
Qed.

Lemma ShouldLoadTile_outside_world_witness :
  LBITS.ShouldLoadTile JS.Normal (LBITS.obj.with_didLazyLoad true Sample.layer8_both)
    2 16 0 4 None
  = JS.Normal (false, LBITS.obj.with_didLazyLoad true Sample.layer8_both).
Proof.
  apply (ShouldLoadTile_outside_world JS.Normal
           (LBITS.obj.with_didLazyLoad true Sample.layer8_both) 2 16 0 4 None);
    [ reflexivity | reflexivity | reflexivity | reflexivity | ].
  intros (_ & [_ H] & _). vm_compute in H. discriminate.
Defined.

(** ** Zoom levels *)

(** X18: zooming out in two steps is zooming out at once. *)
Theorem c_MercXZtoMercXZ_zoom_out_twice (x z z1 z2 : Z) :
  0 <= x < 2 ^ 32 → z2 <= z1 <= z → z - z2 <= 31 →
  BITS.c_MercXZtoMercXZ (BITS.c_MercXZtoMercXZ x z z1) z1 z2
  = BITS.c_MercXZtoMercXZ x z z2.
Proof.
  intros Hx Hz Hd. unfold BITS.c_MercXZtoMercXZ.
  destruct (Z.ltb_spec z z1); [lia|]. destruct (Z.ltb_spec z1 z2); [lia|].
  destruct (Z.ltb_spec z z2); [lia|].
  rewrite (shru_small x (z - z1)), (shru_small x (z - z2)) by lia.
  assert (0 < 2 ^ (z - z1)) by (apply Z.pow_pos_nonneg; lia).
  assert (0 <= x `div` 2 ^ (z - z1) < 2 ^ 32).
  { split; [apply Z.div_pos; lia|]. apply Z.div_lt_upper_bound; nia. }
  rewrite shru_small by lia.
  rewrite Z.div_div by (try apply Z.pow_pos_nonneg; lia).
  rewrite <- Z.pow_add_r by lia. do 2 f_equal. lia.
Qed.

Lemma c_MercXZtoMercXZ_zoom_out_twice_witness :
  BITS.c_MercXZtoMercXZ (BITS.c_MercXZtoMercXZ 1000 21 13) 13 8
  = BITS.c_MercXZtoMercXZ 1000 21 8.
Proof.
  apply (c_MercXZtoMercXZ_zoom_out_twice 1000 21 13 8); lia.
Defined.

Lemma GetMaxZoomLevelSingleIndexForTilePx_loop_spec (tile_px : Z) (n : nat) : ∀ z,
  1 <= tile_px → z = Z.of_nat n - 1 → z <= 21 →
  let r := LBITS.GetMaxZoomLevelSingleIndexForTilePx_loop n z tile_px 0 in
  0 <= r ∧ r <= Z.max z 0 ∧ 2 ^ r <= tile_px ∧ (r < z → tile_px < 2 ^ (r + 1)).
Proof.
  induction n as [|n IH]; intros z Hpx Hz Hz21; cbv zeta.
  - simpl. lia.
  - cbn [LBITS.GetMaxZoomLevelSingleIndexForTilePx_loop].
    destruct (Z.leb_spec 0 z); [|lia].
    unfold LBITS.GetWorldSizeTiles. rewrite shl_1 by lia.
    destruct (Z.leb_spec (2 ^ z) tile_px) as [Hle|Hgt].
    + lia.
    + destruct (IH (z - 1)) as (H0 & H1 & H2 & H3); [lia | lia | lia |].
      repeat split; try lia. intros Hr.
      destruct (Z.eq_dec (LBITS.GetMaxZoomLevelSingleIndexForTilePx_loop n (z - 1) tile_px 0)
                  (z - 1)) as [E|E].
      * rewrite E. by replace (z - 1 + 1) with z by lia.
      * apply H3. lia.
Qed.

(** X19: for a tile of at least one pixel, the zoom level that one index
    covers is the largest [z] in 0..21 with [2^z <= tile_px]. *)
Theorem GetMaxZoomLevelSingleIndexForTilePx_largest (tile_px : Z) :
  1 <= tile_px →
  0 <= LBITS.GetMaxZoomLevelSingleIndexForTilePx tile_px <= 21
  ∧ 2 ^ LBITS.GetMaxZoomLevelSingleIndexForTilePx tile_px <= tile_px
  ∧ (LBITS.GetMaxZoomLevelSingleIndexForTilePx tile_px < 21 →
     tile_px < 2 ^ (LBITS.GetMaxZoomLevelSingleIndexForTilePx tile_px + 1)).
Proof.
  intros Hpx. unfold LBITS.GetMaxZoomLevelSingleIndexForTilePx.
  destruct (GetMaxZoomLevelSingleIndexForTilePx_loop_spec tile_px 22 21)
    as (H0 & H1 & H2 & H3); [lia | lia | lia |].
  repeat split; try done; lia.
Qed.

Lemma GetMaxZoomLevelSingleIndexForTilePx_largest_witness :
  0 <= LBITS.GetMaxZoomLevelSingleIndexForTilePx 300 <= 21
  ∧ 2 ^ LBITS.GetMaxZoomLevelSingleIndexForTilePx 300 <= 300
  ∧ (LBITS.GetMaxZoomLevelSingleIndexForTilePx 300 < 21 →
     300 < 2 ^ (LBITS.GetMaxZoomLevelSingleIndexForTilePx 300 + 1)).
Proof.
  apply (GetMaxZoomLevelSingleIndexForTilePx_largest 300). lia.
Defined.

(** ** Scattering into a typed array *)

Lemma put_num_frame (wrap : Z → Z) (d : list Z) (i v : JS.num) (k : Z) :
  i ≠ Some k → JS.get (JS.put_num wrap d i v) k = JS.get d k.
Proof.
  intros Hne. destruct i as [j|]; [|done]. simpl. apply get_put_ne. congruence.
Qed.

Lemma length_put_num (wrap : Z → Z) (d : list Z) (i v : JS.num) :
  length (JS.put_num wrap d i v) = length d.
Proof. destruct i; [apply length_put | done]. Qed.

Lemma is_u16_array_put_num (d : list Z) (i v : JS.num) :
  JS.is_u16_array d = true → JS.is_u16_array (JS.put_num JS.ToUint16 d i v) = true.
Proof. destruct i; [apply is_u16_array_put | done]. Qed.

(** The scatter keeps the length of its destination, stores 16-bit words
    and touches the listed positions only. *)
Lemma ivtovec_u16_frame (dest_u16 srci_u16 srcv_u16 : list Z) :
  length (LBITS.ivtovec_u16 dest_u16 srci_u16 srcv_u16) = length dest_u16
  ∧ (JS.is_u16_array dest_u16 = true →
     JS.is_u16_array (LBITS.ivtovec_u16 dest_u16 srci_u16 srcv_u16) = true)
  ∧ ∀ k, k ∉ srci_u16 →
      JS.get (LBITS.ivtovec_u16 dest_u16 srci_u16 srcv_u16) k = JS.get dest_u16 k.
Proof.
  rewrite ivtovec_u16_as_sequential. unfold LBITS.ivtovec_u16_sequential. cbv zeta.
  apply (for_lt_inv (fun d =>
           length d = length dest_u16
           ∧ (JS.is_u16_array dest_u16 = true → JS.is_u16_array d = true)
           ∧ ∀ k, k ∉ srci_u16 → JS.get d k = JS.get dest_u16 k)).
  - done.
  - intros i d (Hl & Hu & Hf). split; [by rewrite length_put_num|]. split.
    + intros H. by apply is_u16_array_put_num, Hu.
    + intros k Hk. rewrite put_num_frame; [by apply Hf|].
      intros Hi. apply Hk. unfold JS.get in Hi. destruct (i <? 0); [done|].
      by apply list_elem_of_lookup_2 in Hi.
Qed.

(** X20: whatever the two vectors hold, the scatter neither grows nor
    shrinks its destination, and it leaves a position alone unless the
    position is among the indices. *)
Theorem ivtovec_u16_touches_indices_only (dest_u16 srci_u16 srcv_u16 : list Z) (k : Z) :
  k ∉ srci_u16 →
  JS.len (LBITS.ivtovec_u16 dest_u16 srci_u16 srcv_u16) = JS.len dest_u16
  ∧ JS.get (LBITS.ivtovec_u16 dest_u16 srci_u16 srcv_u16) k = JS.get dest_u16 k.
Proof.
  intros Hk. destruct (ivtovec_u16_frame dest_u16 srci_u16 srcv_u16) as (Hl & _ & Hf).
  split; [unfold JS.len; by rewrite Hl | by apply Hf].
Qed.

Lemma ivtovec_u16_touches_indices_only_witness :
  JS.len (LBITS.ivtovec_u16 [5; 6; 7; 8] [1; 9; 3] [40; 50; 60]) = JS.len [5; 6; 7; 8]
  ∧ JS.get (LBITS.ivtovec_u16 [5; 6; 7; 8] [1; 9; 3] [40; 50; 60]) 2 = JS.get [5; 6; 7; 8] 2.
Proof.
  apply (ivtovec_u16_touches_indices_only [5; 6; 7; 8] [1; 9; 3] [40; 50; 60] 2).
  intros H. repeat (apply elem_of_cons in H as [H|H]; [discriminate|]).
  by apply elem_of_nil in H.
Defined.


(** ** Extent vectors *)

(** Reprojection to a deeper or the same zoom level, without overflow. *)
Lemma c_MercXZtoMercXZ_zoom_in (a z dest_z : Z) :
  z <= dest_z → dest_z - z <= 30 → 0 <= a → a * 2 ^ (dest_z - z) < 2 ^ 31 →
  BITS.c_MercXZtoMercXZ a z dest_z = a * 2 ^ (dest_z - z).
Proof.
  intros Hz Hd Ha Hlt. unfold BITS.c_MercXZtoMercXZ.
  destruct (Z.ltb_spec z dest_z).
  - apply shl_small; lia.
  - replace (dest_z - z) with 0 in * by lia. replace (z - dest_z) with 0 by lia.
    rewrite shru_0, ToUint32_small; lia.
Qed.

(** X22: the extent vector of tile (x, y) of zoom [z], in the pixels of
    a deeper zoom [dest_z]: the origin is the tile's origin scaled up, and
    both far edges lie one scaled tile width minus one pixel beyond it;
    the tile height [h] enters the origin only. *)
Theorem c_GetNewPxExtentVector_u32_tile (x y z dest_z w h : Z) :
  0 <= z <= dest_z → dest_z - z <= 30 → dest_z < 2 ^ 32 →
  0 <= x → 0 <= y → 1 <= w → 0 <= h →
  (x + 1) * w * 2 ^ (dest_z - z) < 2 ^ 31 →
  y * h * 2 ^ (dest_z - z) + w * 2 ^ (dest_z - z) < 2 ^ 31 →
  BITS.c_GetNewPxExtentVector_u32 x y z dest_z (Some w) (Some h)
  = [x * w * 2 ^ (dest_z - z);
     y * h * 2 ^ (dest_z - z);
     x * w * 2 ^ (dest_z - z) + (w * 2 ^ (dest_z - z) - 1);
     y * h * 2 ^ (dest_z - z) + (w * 2 ^ (dest_z - z) - 1);
     dest_z; z].
Proof.
  intros Hz Hd Hdz Hx Hy Hw Hh Hbx Hby.
  remember (2 ^ (dest_z - z)) as s eqn:Hs'.
  assert (Hs : 1 <= s) by (pose proof (Z.pow_pos_nonneg 2 (dest_z - z)); lia).
  assert (0 <= x * w) by nia. assert (0 <= y * h) by nia.
  assert (x * w <= x * w * s) by nia. assert (y * h <= y * h * s) by nia.
  assert (w <= w * s) by nia.
  unfold BITS.c_GetNewPxExtentVector_u32, BITS.c_SetPxExtentVector_u32.
  eval_array.
  rewrite !(ToUint32_small dest_z), !(ToUint32_small z), !(ToUint32_small w),
    !(ToUint32_small (x * w)), !(ToUint32_small (y * h)) by lia.
  rewrite (c_MercXZtoMercXZ_zoom_in w z dest_z) by (rewrite <- ?Hs'; lia).
  rewrite (c_MercXZtoMercXZ_zoom_in (x * w) z dest_z) by (rewrite <- ?Hs'; lia).
  rewrite (c_MercXZtoMercXZ_zoom_in (y * h) z dest_z) by (rewrite <- ?Hs'; lia).
  rewrite <- Hs'.
  rewrite !(ToUint32_small (w * s - 1)), !(ToUint32_small (x * w * s)),
    !(ToUint32_small (y * h * s)) by lia.
  rewrite (ToUint32_small (w * s - 1 + x * w * s)),
    (ToUint32_small (w * s - 1 + y * h * s)) by lia.
  repeat (apply (f_equal2 cons); [lia|]). reflexivity.
Qed.

Lemma c_GetNewPxExtentVector_u32_tile_witness :
  BITS.c_GetNewPxExtentVector_u32 3 5 4 21 (Some 256) (Some 256)
  = [3 * 256 * 2 ^ (21 - 4);
     5 * 256 * 2 ^ (21 - 4);
     3 * 256 * 2 ^ (21 - 4) + (256 * 2 ^ (21 - 4) - 1);
     5 * 256 * 2 ^ (21 - 4) + (256 * 2 ^ (21 - 4) - 1);
     21; 4].
Proof.
  apply (c_GetNewPxExtentVector_u32_tile 3 5 4 21 256 256); lia.
Defined.

(** ** The shadow pass, pixel by pixel *)

Lemma iterate_scale {St : Type} (body : Z → St → St) (step : Z) (n : nat) : ∀ j s,
  JS.iterate n (j * step) step body s = JS.iterate n j 1 (fun k => body (k * step)) s.
Proof.
  induction n as [|n IH]; intros j s; [done|]. simpl.
  replace (j * step + step) with ((j + 1) * step) by lia. apply IH.
Qed.

(** A loop that counts up by [step] is a loop over the multiples. *)
Lemma for_lt_scale {St : Type} (body : Z → St → St) (n step : Z) (s : St) :
  0 < step → 0 <= n →
  JS.for_lt 0 (n * step) step body s = JS.for_lt 0 n 1 (fun k => body (k * step)) s.
Proof.
  intros Hstep Hn. unfold JS.for_lt.
  assert (JS.trips 0 (n * step) step = Z.to_nat n) as ->.
  { replace (n * step) with (0 + Z.of_nat (Z.to_nat n) * step) by lia.
    apply trips_exact. lia. }
  assert (JS.trips 0 n 1 = Z.to_nat n) as ->.
  { rewrite trips_one by lia. f_equal. lia. }
  apply (iterate_scale body step (Z.to_nat n) 0 s).
Qed.

Lemma for_lt_ext {St : Type} start stop step (body body' : Z → St → St) s :
  (∀ k s', body k s' = body' k s') →
  JS.for_lt start stop step body s = JS.for_lt start stop step body' s.
Proof. intros H. apply iterate_ext. intros k s' _. apply H. Qed.

(** The three colour channels that go with an alpha channel. *)
Lemma GetRGBAOffsetsForAlphaOffset_channels (ch_offset : Z) :
  0 <= ch_offset <= 3 →
  JS.get (BITS.GetRGBAOffsetsForAlphaOffset ch_offset) 0 = Some ((ch_offset + 1) `mod` 4)
  ∧ JS.get (BITS.GetRGBAOffsetsForAlphaOffset ch_offset) 1 = Some ((ch_offset + 2) `mod` 4)
  ∧ JS.get (BITS.GetRGBAOffsetsForAlphaOffset ch_offset) 2 = Some ((ch_offset + 3) `mod` 4).
Proof.
  intros H.
  assert (ch_offset = 0 ∨ ch_offset = 1 ∨ ch_offset = 2 ∨ ch_offset = 3)
    as [-> | [-> | [-> | ->]]] by lia; repeat split.
Qed.

Section Shadow.
Variables (ch_offset alpha_threshold unshd_threshold w h : Z).
Hypothesis Hch : 0 <= ch_offset <= 3.

(** One step of the shadow pass, on the pixel (x, y). *)
Let step (d : list Z) (p : Z * Z) : list Z :=
  if Describe.is_shadow d (4 * (p.2 * w + p.1)) ch_offset alpha_threshold unshd_threshold
  then JS.set_u8 d (4 * (p.2 * w + p.1) + ch_offset) (Some 0)
  else d.

Lemma shadow_step_length d p : JS.len (step d p) = JS.len d.
Proof.
  unfold step. destruct (Describe.is_shadow _ _ _ _ _); [|done].
  unfold JS.len, JS.set_u8. by rewrite length_put.
Qed.

(** A step leaves the bytes of the other pixels alone. *)
Lemma shadow_step_other d (p q : Z * Z) c :
  0 <= p.1 < w → 0 <= q.1 < w → p ≠ q → 0 <= c <= 3 →
  JS.get (step d p) (4 * (q.2 * w + q.1) + c) = JS.get d (4 * (q.2 * w + q.1) + c).
Proof.
  intros Hp Hq Hne Hc. unfold step. destruct (Describe.is_shadow _ _ _ _ _); [|done].
  unfold JS.set_u8. apply get_put_ne. intros Heq.
  assert (q.2 * w + q.1 = p.2 * w + p.1) as Hi by lia.
  destruct (pixel_index_inj w q.1 q.2 p.1 p.2 Hq Hp Hi) as [H1 H2].
  apply Hne. destruct p, q. simpl in *. congruence.
Qed.

Lemma shadow_step_other_test d (p q : Z * Z) :
  0 <= p.1 < w → 0 <= q.1 < w → p ≠ q →
  Describe.is_shadow (step d p) (4 * (q.2 * w + q.1)) ch_offset alpha_threshold
    unshd_threshold
  = Describe.is_shadow d (4 * (q.2 * w + q.1)) ch_offset alpha_threshold unshd_threshold.
Proof.
  intros Hp Hq Hne. unfold Describe.is_shadow.
  rewrite !(shadow_step_other d p q) by (done || (Z.div_mod_to_equations; lia)). done.
Qed.

(** The pass over a list of distinct pixels clears the alpha of those that
    pass the test on the bytes they had at the start. *)
Lemma shadow_foldl (l : list (Z * Z)) : ∀ d,
  JS.len d = w * h * 4 → NoDup l → (∀ p, p ∈ l → 0 <= p.1 < w ∧ 0 <= p.2 < h) →
  ∀ x y c, 0 <= x < w → 0 <= y < h → 0 <= c <= 3 →
    JS.get (foldl step d l) (4 * (y * w + x) + c)
    = if (c =? ch_offset) && bool_decide ((x, y) ∈ l)
         && Describe.is_shadow d (4 * (y * w + x)) ch_offset alpha_threshold unshd_threshold
      then Some 0
      else JS.get d (4 * (y * w + x) + c).
Proof.
  induction l as [|p l IH]; intros d Hlen Hnd Hin x y c Hx Hy Hc.
  - cbn [foldl]. rewrite bool_decide_eq_false_2 by apply not_elem_of_nil.
    by rewrite andb_false_r.
  - cbn [foldl]. apply NoDup_cons in Hnd as [Hp Hnd].
    destruct (Hin p) as [Hp1 Hp2]; [left|].
    rewrite IH; try done.
    2: { by rewrite shadow_step_length. }
    2: { intros q Hq. apply Hin. by right. }
    destruct (decide (p = (x, y))) as [->|Hne].
    + rewrite (bool_decide_eq_false_2 ((x, y) ∈ l)) by done.
      rewrite (bool_decide_eq_true_2 ((x, y) ∈ (x, y) :: l)) by left.
      rewrite andb_false_r, andb_true_r. cbn [andb].
      unfold step. cbn [fst snd].
      destruct (Describe.is_shadow d _ _ _ _); [|by rewrite andb_false_r].
      rewrite andb_true_r. unfold JS.set_u8. rewrite get_put, Hlen.
      destruct (Z.eqb_spec c ch_offset) as [->|Hcne].
      * rewrite Z.eqb_refl.
        destruct (Z.leb_spec 0 (4 * (y * w + x) + ch_offset)),
          (Z.ltb_spec (4 * (y * w + x) + ch_offset) (w * h * 4)); try lia; try nia. done.
      * destruct (Z.eqb_spec (4 * (y * w + x) + c) (4 * (y * w + x) + ch_offset)); [lia|].
        done.
    + pose proof (shadow_step_other_test d p (x, y) Hp1 Hx Hne) as Et.
      pose proof (shadow_step_other d p (x, y) c Hp1 Hx Hne Hc) as Eg.
      cbn [fst snd] in Et, Eg. rewrite Et, Eg.
      destruct (bool_decide ((x, y) ∈ l)) eqn:Hl.
      * apply bool_decide_eq_true in Hl.
        by rewrite (bool_decide_eq_true_2 ((x, y) ∈ p :: l)) by (by right).
      * apply bool_decide_eq_false in Hl.
        rewrite (bool_decide_eq_false_2 ((x, y) ∈ p :: l)); [done|].
        intros [?|?]%elem_of_cons; done.
Qed.

(** The pass is the fold of the step over the pixels of the tile. *)
Lemma RecoverShadowAlpha_foldl (src : list Z) :
  0 <= w →
  BITS.RecoverShadowAlphaInRGBA8888Tile src ch_offset alpha_threshold unshd_threshold w h
  = foldl step src (Describe.pixels w h).
Proof.
  intros Hw. unfold BITS.RecoverShadowAlphaInRGBA8888Tile. cbv zeta.
  destruct (GetRGBAOffsetsForAlphaOffset_channels ch_offset Hch) as (-> & -> & ->).
  rewrite (for_lt_ext 0 h 1 _
             (fun y s => JS.for_lt 0 w 1
                (fun x s =>
                   (fun x y (src : list Z) =>
                      if JS.gt (JS.get src (y * (w * 4) + x * 4 + ch_offset))
                           (Some (alpha_threshold - 1))
                         && JS.le (JS.get_num src (JS.add (Some (y * (w * 4) + x * 4))
                                     (Some ((ch_offset + 1) `mod` 4)))) (Some unshd_threshold)
                         && JS.le (JS.get_num src (JS.add (Some (y * (w * 4) + x * 4))
                                     (Some ((ch_offset + 2) `mod` 4)))) (Some unshd_threshold)
                         && JS.le (JS.get_num src (JS.add (Some (y * (w * 4) + x * 4))
                                     (Some ((ch_offset + 3) `mod` 4)))) (Some unshd_threshold)
                      then JS.set_u8 src (y * (w * 4) + x * 4 + ch_offset) (Some 0)
                      else src) x y s) s)).
  2: { intros y s. rewrite (for_lt_scale _ w 4) by lia. reflexivity. }
  rewrite raster_foldl. apply foldl_ext_list. intros d [x y] _. cbn [fst snd].
  unfold step, Describe.is_shadow. cbn [fst snd JS.add JS.get_num].
  replace (y * (w * 4) + x * 4) with (4 * (y * w + x)) by lia.
  by rewrite gt_pred_ge.
Qed.

End Shadow.

(** X23: the shadow pass, pixel by pixel.  For a raster of [w * h * 4]
    bytes and an alpha channel in 0..3, the pass sets the alpha of a pixel
    to 0 exactly when that alpha is at least the threshold and the three
    other channels of the pixel are all at most [unshd_threshold]; it
    leaves every other byte as it was. *)
Theorem RecoverShadowAlpha_pixel (src : list Z) (ch_offset alpha_threshold unshd_threshold w h x y c : Z) :
  0 <= ch_offset <= 3 → JS.len src = w * h * 4 →
  0 <= x < w → 0 <= y < h → 0 <= c <= 3 →
  JS.get (BITS.RecoverShadowAlphaInRGBA8888Tile src ch_offset alpha_threshold
            unshd_threshold w h) (4 * (y * w + x) + c)
  = if (c =? ch_offset)
       && Describe.is_shadow src (4 * (y * w + x)) ch_offset alpha_threshold unshd_threshold
    then Some 0
    else JS.get src (4 * (y * w + x) + c).
Proof.
  intros Hch Hlen Hx Hy Hc.
  rewrite RecoverShadowAlpha_foldl by lia.
  rewrite (shadow_foldl ch_offset alpha_threshold unshd_threshold w h Hch
             (Describe.pixels w h) src Hlen (NoDup_pixels w h)); try done.
  - rewrite (bool_decide_eq_true_2 ((x, y) ∈ Describe.pixels w h))
      by (apply elem_of_pixels; lia).
    by rewrite andb_true_r.
  - intros [px py] Hp. by apply elem_of_pixels in Hp.
Qed.

Lemma RecoverShadowAlpha_pixel_witness :
  JS.get (BITS.RecoverShadowAlphaInRGBA8888Tile Sample.stroke_raster 3 1 1 8 4)
    (4 * (1 * 8 + 1) + 3)
  = if (3 =? 3) && Describe.is_shadow Sample.stroke_raster (4 * (1 * 8 + 1)) 3 1 1
    then Some 0
    else JS.get Sample.stroke_raster (4 * (1 * 8 + 1) + 3).
Proof.
  apply (RecoverShadowAlpha_pixel Sample.stroke_raster 3 1 1 8 4 1 1 3);
    [lia | reflexivity | lia | lia | lia].
Defined.

(** ** From the raster to the answer *)

(** X24: a bitstore built from a raster answers for its own tile.  With
    the recovery passes off, for a tile whose sides are multiples of 4, the
    scan of the tile (x, y, z) on the bitstore of that same tile finds data
    exactly when some pixel of the raster has its byte at [ch_offset] at
    least [alpha_threshold]. *)
Theorem DoesTileIntersectData_own_tile (src : list Z) (layerId x y z w h ch_offset alpha_threshold unshd_threshold : Z) :
  w `mod` 4 = 0 → h `mod` 4 = 0 → 0 < w → 0 < h → w * h < 2 ^ 29 →
  JS.len src = w * h * 4 →
  0 <= x → 0 <= y → x * w + w <= 2 ^ 32 → y * h + h <= 2 ^ 32 →
  ∃ bs b,
    BITS.SetBitmapFromRGBA8888Tile (BITS.new layerId x y z w h None true) (Some src)
      false false ch_offset alpha_threshold unshd_threshold = JS.Normal bs
    ∧ BITS.DoesTileIntersectData bs x y z = JS.Normal b
    ∧ (b = true ↔
       ∃ px py, 0 <= px < w ∧ 0 <= py < h
         ∧ JS.ge (JS.get src (4 * (py * w + px) + ch_offset)) (Some alpha_threshold) = true).
Proof.
  intros Hw4 Hh4 Hw Hh Hsize Hlen Hx Hy Hxw Hyh.
  destruct (GetBit_after_build src ch_offset alpha_threshold unshd_threshold w h 0 0)
    as (dest & Hbuild & _); try done; try lia.
  assert (Hbit : ∀ px py, 0 <= px < w → 0 <= py < h →
            BITS.c_GetBit dest px py w h
            = JS.ge (JS.get src (4 * (py * w + px) + ch_offset)) (Some alpha_threshold)).
  { intros px py Hpx Hpy.
    destruct (GetBit_after_build src ch_offset alpha_threshold unshd_threshold w h px py)
      as (dest' & Hbuild' & Hb); try done.
    rewrite Hbuild in Hbuild'. by injection Hbuild' as <-. }
  unfold BITS.SetBitmapFromRGBA8888Tile.
  change (BITS.obj.img_width (BITS.new layerId x y z w h None true)) with w.
  change (BITS.obj.img_height (BITS.new layerId x y z w h None true)) with h.
  rewrite Hbuild. cbn [JS.bind]. eexists _, _. split; [reflexivity|].
  unfold BITS.DoesTileIntersectData.
  cbn [BITS.obj.data BITS.obj.with_data BITS.obj.img_width BITS.obj.img_height BITS.obj.x
       BITS.obj.y BITS.obj.z BITS.new].
  assert (Hsame : ∀ a, 0 <= a < 2 ^ 32 → BITS.c_MercXZtoMercXZ a z z = a).
  { intros a Ha. unfold BITS.c_MercXZtoMercXZ. rewrite Z.ltb_irrefl, Z.sub_diag, shru_0.
    by apply ToUint32_small. }
  rewrite !Hsame by nia.
  split; [reflexivity|].
  replace (x * w - x * w) with 0 by lia. replace (y * h - y * h) with 0 by lia.
  replace (x * w + w - 1 - x * w + 1) with w by lia.
  replace (y * h + h - 1 - y * h + 1) with h by lia.
  rewrite for_lt_any. split.
  - intros (py & Hpy & Hrow). apply for_lt_any in Hrow as (px & Hpx & Hb).
    rewrite (bit_test_c_GetBit dest px py w h), Hbit in Hb by done.
    exists px, py. done.
  - intros (px & py & Hpx & Hpy & Hb). exists py. split; [done|].
    apply for_lt_any. exists px. split; [done|].
    by rewrite (bit_test_c_GetBit dest px py w h), Hbit.
Qed.

Lemma DoesTileIntersectData_own_tile_witness :
  ∃ bs b,
    BITS.SetBitmapFromRGBA8888Tile (BITS.new 2 1 1 1 8 8 None true)
      (Some Sample.finer_raster) false false 3 1 1 = JS.Normal bs
    ∧ BITS.DoesTileIntersectData bs 1 1 1 = JS.Normal b
    ∧ (b = true ↔
       ∃ px py, 0 <= px < 8 ∧ 0 <= py < 8
         ∧ JS.ge (JS.get Sample.finer_raster (4 * (py * 8 + px) + 3)) (Some 1) = true).
Proof.
  apply (DoesTileIntersectData_own_tile Sample.finer_raster 2 1 1 1 8 8 3 1 1);
    [reflexivity | reflexivity | lia | lia | lia | reflexivity | lia | lia | lia | lia].
Defined.

(** X25: the conversion of a pixel extent to a map extent.  For the
    pixel extent of a tile (tx, ty) of zoom [z] at most 21, every corner is
    offset by the origin of the tile, [tx * w] or [ty * h] pixels, and
    scaled to zoom 21; the zoom, tx and ty stay in their places. *)
Theorem c_vPixelExtentToMercExtent_u32_corners (minX minY maxX maxY z tx ty w h : Z) :
  0 <= z <= 21 →
  0 <= minX → 0 <= minY → 0 <= maxX → 0 <= maxY → 0 <= tx → 0 <= ty → 0 <= w → 0 <= h →
  (Z.max minX maxX + tx * w) * 2 ^ (21 - z) < 2 ^ 31 →
  (Z.max minY maxY + ty * h) * 2 ^ (21 - z) < 2 ^ 31 →
  tx < 2 ^ 32 → ty < 2 ^ 32 →
  BITS.c_vPixelExtentToMercExtent_u32 [minX; minY; maxX; maxY; z; z; tx; ty] w h
  = [(minX + tx * w) * 2 ^ (21 - z);
     (minY + ty * h) * 2 ^ (21 - z);
     (maxX + tx * w) * 2 ^ (21 - z);
     (maxY + ty * h) * 2 ^ (21 - z);
     21; z; tx; ty].
Proof.
  intros Hz HminX HminY HmaxX HmaxY Htx Hty Hw Hh Hbx Hby Htx' Hty'.
  remember (2 ^ (21 - z)) as s eqn:Hs'.
  assert (Hs : 1 <= s) by (pose proof (Z.pow_pos_nonneg 2 (21 - z)); lia).
  assert (0 <= tx * w) by nia. assert (0 <= ty * h) by nia.
  assert (∀ a, 0 <= a → a <= a * s) by (intros; nia).
  assert (Hup : ∀ a, 0 <= a → a * s < 2 ^ 31 → BITS.c_MercXZtoMercXZ a z 21 = a * s).
  { intros a Ha Has. rewrite Hs'. apply c_MercXZtoMercXZ_zoom_in; rewrite <- ?Hs'; lia. }
  unfold BITS.c_MercXZtoMercXZ in Hup.
  unfold BITS.c_vPixelExtentToMercExtent_u32.
  change (JS.len [minX; minY; maxX; maxY; z; z; tx; ty] <? 7) with false. cbv iota.
  unfold BITS.c_vMercXYZtoMercXYZ_u32, BITS.c_GetDefaultExtentZoomLevel.
  eval_array.
  match goal with |- (if ?c then _ else _) = _ => change c with (z <? 21) end.
  rewrite !(ToUint32_small 21), !(ToUint32_small (minX + tx * w)),
    !(ToUint32_small (minY + ty * h)), !(ToUint32_small (maxX + tx * w)),
    !(ToUint32_small (maxY + ty * h)) by nia.
  pose proof (Hup (minX + tx * w) ltac:(lia) ltac:(nia)) as E0.
  pose proof (Hup (minY + ty * h) ltac:(lia) ltac:(nia)) as E1.
  pose proof (Hup (maxX + tx * w) ltac:(lia) ltac:(nia)) as E2.
  pose proof (Hup (maxY + ty * h) ltac:(lia) ltac:(nia)) as E3.
  destruct (z <? 21); rewrite E0, E1, E2, E3;
    rewrite !(ToUint32_small (_ * s)) by nia; reflexivity.
Qed.

Lemma c_vPixelExtentToMercExtent_u32_corners_witness :
  BITS.c_vPixelExtentToMercExtent_u32 [200; 200; 201; 201; 1; 1; 0; 0] 256 256
  = [(200 + 0 * 256) * 2 ^ (21 - 1);
     (200 + 0 * 256) * 2 ^ (21 - 1);
     (201 + 0 * 256) * 2 ^ (21 - 1);
     (201 + 0 * 256) * 2 ^ (21 - 1);
     21; 1; 0; 0].
Proof.
  apply (c_vPixelExtentToMercExtent_u32_corners 200 200 201 201 1 0 0 256 256); lia.
Defined.

(** ** A raster arrives *)





(** ** The stroke passes, pixel by pixel *)

Lemma for_lt_foldl_from {St : Type} (body : Z → St → St) (start stop : Z) (s : St) :
  JS.for_lt start stop 1 body s = foldl (fun s i => body i s) s (seqZ start (stop - start)).
Proof.
  unfold JS.for_lt, JS.trips. rewrite iterate_foldl.
  replace (stop - start + 1 - 1) with (stop - start) by lia. rewrite Z.div_1_r.
  unfold seqZ. by rewrite Nat2Z.id.
Qed.

Lemma rect_foldl {St : Type} (body : Z → Z → St → St) (x0 x1 y0 y1 : Z) (s : St) :
  JS.for_lt y0 y1 1 (fun y s => JS.for_lt x0 x1 1 (fun x s => body x y s) s) s
  = foldl (fun s p => body p.1 p.2 s) s (Describe.rect x0 (x1 - x0) y0 (y1 - y0)).
Proof.
  rewrite for_lt_foldl_from. unfold Describe.rect. rewrite foldl_bind_list.
  apply foldl_ext_list. intros s' y _. rewrite for_lt_foldl_from, foldl_fmap_list. done.
Qed.

Lemma elem_of_rect (x0 nx y0 ny x y : Z) :
  (x, y) ∈ Describe.rect x0 nx y0 ny ↔ x0 <= x < x0 + nx ∧ y0 <= y < y0 + ny.
Proof.
  unfold Describe.rect. rewrite list_elem_of_bind. split.
  - intros (y' & Hx & Hy). apply list_elem_of_fmap in Hx as (x' & Heq & Hx).
    injection Heq as -> ->. apply elem_of_seqZ in Hx, Hy. lia.
  - intros [Hx Hy]. exists y. split.
    + apply list_elem_of_fmap. exists x. split; [done|]. apply elem_of_seqZ. lia.
    + apply elem_of_seqZ. lia.
Qed.

(** A loop that counts up by [step] between two multiples of [step]. *)
Lemma for_lt_scale_from {St : Type} (body : Z → St → St) (a b step : Z) (s : St) :
  0 < step →
  JS.for_lt (a * step) (b * step) step body s
  = JS.for_lt a b 1 (fun k => body (k * step)) s.
Proof.
  intros Hstep. unfold JS.for_lt. destruct (Z.le_gt_cases a b).
  - assert (JS.trips (a * step) (b * step) step = Z.to_nat (b - a)) as ->.
    { replace (b * step) with (a * step + Z.of_nat (Z.to_nat (b - a)) * step) by nia.
      apply trips_exact. lia. }
    rewrite trips_one by lia. apply iterate_scale.
  - rewrite !trips_ge by nia. reflexivity.
Qed.

(** Clearing the hit positions of a list, in any order. *)
Lemma clear_foldl (hit : Z * Z → bool) (idx : Z * Z → Z) (l : list (Z * Z)) : ∀ d k,
  JS.get (foldl (fun d p => if hit p then JS.set_u8 d (idx p) (Some 0) else d) d l) k
  = if existsb (fun p => hit p && (idx p =? k)) l && (0 <=? k) && (k <? JS.len d)
    then Some 0 else JS.get d k.
Proof.
  induction l as [|p l IH]; intros d k; [done|].
  cbn [foldl existsb]. rewrite IH.
  assert (JS.len (if hit p then JS.set_u8 d (idx p) (Some 0) else d) = JS.len d) as ->.
  { destruct (hit p); [|done]. unfold JS.len, JS.set_u8. by rewrite length_put. }
  destruct (hit p); cbn [andb orb]; [|done].
  unfold JS.set_u8. rewrite get_put. rewrite (Z.eqb_sym k (idx p)).
  destruct (idx p =? k); cbn [andb orb]; [|done].
  destruct (existsb _ l); cbn [andb]; [|done].
  by destruct ((0 <=? k) && (k <? JS.len d)).
Qed.

Section Strokes.
Variables (dest src : list Z) (ch_offset alpha_threshold w h : Z).
Hypothesis Hch : 0 <= ch_offset <= 3.
Hypothesis Hlen : JS.len dest = w * h * 4.

(** Among pixels of the tile, only the pixel itself has its alpha byte. *)
Lemma existsb_pixel (hit : Z * Z → bool) (l : list (Z * Z)) (x y c : Z) :
  (∀ p, p ∈ l → 0 <= p.1 < w) → 0 <= x < w → 0 <= c <= 3 →
  existsb (fun p => hit p && (4 * (p.2 * w + p.1) + ch_offset =? 4 * (y * w + x) + c)) l
  = (c =? ch_offset) && bool_decide ((x, y) ∈ l) && hit (x, y).
Proof.
  intros Hl Hx Hc. apply eq_true_iff_eq. rewrite existsb_exists, !andb_true_iff.
  rewrite bool_decide_eq_true. split.
  - intros ([px py] & Hin & [Hhit Heq]%andb_true_iff).
    apply list_elem_of_In in Hin. specialize (Hl _ Hin). cbn [fst snd] in *.
    assert (c = ch_offset) as -> by lia.
    assert (py * w + px = y * w + x) as Hi by lia.
    destruct (pixel_index_inj w px py x y Hl Hx Hi) as [-> ->].
    rewrite Z.eqb_refl. done.
  - intros [[Hc' Hin] Hhit]. exists (x, y). split; [by apply list_elem_of_In|].
    cbn [fst snd]. rewrite Hhit. apply Z.eqb_eq in Hc'. subst c. by rewrite Z.eqb_refl.
Qed.

(** Clearing the alpha of the hit pixels of a rectangle of the tile. *)
Lemma clear_rect_get (hit : Z * Z → bool) (x0 nx y0 ny x y c : Z) :
  0 <= x0 → x0 + nx <= w → 0 <= x < w → 0 <= y < h → 0 <= c <= 3 →
  JS.get (foldl (fun d p =>
                   if hit p then JS.set_u8 d (4 * (p.2 * w + p.1) + ch_offset) (Some 0)
                   else d) dest (Describe.rect x0 nx y0 ny)) (4 * (y * w + x) + c)
  = if (c =? ch_offset) && (x0 <=? x) && (x <? x0 + nx) && (y0 <=? y) && (y <? y0 + ny)
       && hit (x, y)
    then Some 0
    else JS.get dest (4 * (y * w + x) + c).
Proof.
  intros Hx0 Hx1 Hx Hy Hc.
  rewrite (clear_foldl hit (fun p => 4 * (p.2 * w + p.1) + ch_offset)).
  rewrite existsb_pixel; [| |lia|lia].
  2: { intros [px py] Hp. apply elem_of_rect in Hp. simpl. lia. }
  rewrite Hlen.
  destruct (Z.leb_spec 0 (4 * (y * w + x) + c)); [|nia].
  destruct (Z.ltb_spec (4 * (y * w + x) + c) (w * h * 4)); [|nia].
  rewrite !andb_true_r.
  destruct (decide ((x, y) ∈ Describe.rect x0 nx y0 ny)) as [Hin|Hout].
  - rewrite (bool_decide_eq_true_2 _ Hin). apply elem_of_rect in Hin.
    destruct (Z.leb_spec x0 x), (Z.ltb_spec x (x0 + nx)), (Z.leb_spec y0 y),
      (Z.ltb_spec y (y0 + ny)); try lia.
    by rewrite !andb_true_r.
  - rewrite (bool_decide_eq_false_2 _ Hout). rewrite elem_of_rect in Hout.
    rewrite andb_false_r. cbn [andb].
    destruct (Z.leb_spec x0 x), (Z.ltb_spec x (x0 + nx)), (Z.leb_spec y0 y),
      (Z.ltb_spec y (y0 + ny)); try lia; by rewrite ?andb_false_r.
Qed.

(** The pass in the y direction is a fold over the inner rows. *)
Lemma RecoverYStroke_foldl :
  0 <= w →
  BITS.RecoverYStrokeInRGBA8888Tile dest src ch_offset alpha_threshold w h
  = foldl (fun d p =>
             if Describe.is_y_stroke src w ch_offset alpha_threshold p.1 p.2
             then JS.set_u8 d (4 * (p.2 * w + p.1) + ch_offset) (Some 0) else d)
      dest (Describe.rect 0 w 1 (h - 1 - 1)).
Proof.
  intros Hw. unfold BITS.RecoverYStrokeInRGBA8888Tile. cbv zeta.
  rewrite (for_lt_ext 1 (h - 1) 1 _
             (fun y s => JS.for_lt 0 w 1
                (fun x s =>
                   (fun x y (d : list Z) =>
                      if JS.gt (JS.get src (y * (w * 4) + x * 4 + ch_offset))
                           (Some (alpha_threshold - 1))
                         && JS.gt (JS.get src ((y - 1) * (w * 4) + x * 4 + ch_offset))
                              (Some (alpha_threshold - 1))
                         && JS.le (JS.get src ((y + 1) * (w * 4) + x * 4 + ch_offset))
                              (Some (alpha_threshold - 1))
                      then JS.set_u8 d (y * (w * 4) + x * 4 + ch_offset) (Some 0)
                      else d) x y s) s)).
  2: { intros y s. rewrite (for_lt_scale _ w 4) by lia. reflexivity. }
  rewrite rect_foldl. rewrite Z.sub_0_r. apply foldl_ext_list. intros d [x y] _.
  cbn [fst snd]. unfold Describe.is_y_stroke. rewrite !gt_pred_ge.
  replace (y * (w * 4) + x * 4 + ch_offset) with (4 * (y * w + x) + ch_offset) by lia.
  replace ((y - 1) * (w * 4) + x * 4 + ch_offset)
    with (4 * ((y - 1) * w + x) + ch_offset) by lia.
  replace ((y + 1) * (w * 4) + x * 4 + ch_offset)
    with (4 * ((y + 1) * w + x) + ch_offset) by lia.
  reflexivity.
Qed.

(** The diagonal pass is a fold over the inner rows and columns. *)
Lemma RecoverDStroke_foldl :
  BITS.RecoverDStrokeInRGBA8888Tile dest src ch_offset alpha_threshold w h
  = foldl (fun d p =>
             if Describe.is_d_stroke src w ch_offset alpha_threshold p.1 p.2
             then JS.set_u8 d (4 * (p.2 * w + p.1) + ch_offset) (Some 0) else d)
      dest (Describe.rect 1 (w - 1 - 1) 1 (h - 1 - 1)).
Proof.
  unfold BITS.RecoverDStrokeInRGBA8888Tile. cbv zeta.
  rewrite (for_lt_ext 1 (h - 1) 1 _
             (fun y s => JS.for_lt 1 (w - 1) 1
                (fun x s =>
                   (fun x y (d : list Z) =>
                      if JS.gt (JS.get src (y * (w * 4) + x * 4 + ch_offset))
                           (Some (alpha_threshold - 1))
                         && JS.gt (JS.get src ((y - 1) * (w * 4) + x * 4 - 4 + ch_offset))
                              (Some (alpha_threshold - 1))
                         && JS.le (JS.get src ((y + 1) * (w * 4) + x * 4 + 4 + ch_offset))
                              (Some (alpha_threshold - 1))
                      then JS.set_u8 d (y * (w * 4) + x * 4 + ch_offset) (Some 0)
                      else d) x y s) s)).
  2: { intros y s.
       replace (w * 4 - 4) with ((w - 1) * 4) by lia. change 4 with (1 * 4) at 1.
       rewrite (for_lt_scale_from _ 1 (w - 1) 4) by lia. reflexivity. }
  rewrite rect_foldl. apply foldl_ext_list. intros d [x y] _.
  cbn [fst snd]. unfold Describe.is_d_stroke. rewrite !gt_pred_ge.
  replace (y * (w * 4) + x * 4 + ch_offset) with (4 * (y * w + x) + ch_offset) by lia.
  replace ((y - 1) * (w * 4) + x * 4 - 4 + ch_offset)
    with (4 * ((y - 1) * w + (x - 1)) + ch_offset) by lia.
  replace ((y + 1) * (w * 4) + x * 4 + 4 + ch_offset)
    with (4 * ((y + 1) * w + (x + 1)) + ch_offset) by lia.
  reflexivity.
Qed.

End Strokes.

(** The alpha bytes after the pass in the y direction. *)
Lemma RecoverYStroke_get (dest src : list Z) (ch_offset alpha_threshold w h x y c : Z) :
  0 <= ch_offset <= 3 → JS.len dest = w * h * 4 →
  0 <= x < w → 0 <= y < h → 0 <= c <= 3 →
  JS.get (BITS.RecoverYStrokeInRGBA8888Tile dest src ch_offset alpha_threshold w h)
    (4 * (y * w + x) + c)
  = if (c =? ch_offset) && (0 <=? x) && (x <? 0 + w) && (1 <=? y) && (y <? 1 + (h - 1 - 1))
       && Describe.is_y_stroke src w ch_offset alpha_threshold x y
    then Some 0
    else JS.get dest (4 * (y * w + x) + c).
Proof.
  intros Hch Hlen Hx Hy Hc. rewrite RecoverYStroke_foldl by lia.
  by rewrite (clear_rect_get dest ch_offset w h Hch Hlen
                (fun p => Describe.is_y_stroke src w ch_offset alpha_threshold p.1 p.2))
    by lia.
Qed.

(** The alpha bytes after the diagonal pass. *)
Lemma RecoverDStroke_get (dest src : list Z) (ch_offset alpha_threshold w h x y c : Z) :
  0 <= ch_offset <= 3 → JS.len dest = w * h * 4 →
  0 <= x < w → 0 <= y < h → 0 <= c <= 3 →
  JS.get (BITS.RecoverDStrokeInRGBA8888Tile dest src ch_offset alpha_threshold w h)
    (4 * (y * w + x) + c)
  = if (c =? ch_offset) && (1 <=? x) && (x <? 1 + (w - 1 - 1)) && (1 <=? y)
       && (y <? 1 + (h - 1 - 1))
       && Describe.is_d_stroke src w ch_offset alpha_threshold x y
    then Some 0
    else JS.get dest (4 * (y * w + x) + c).
Proof.
  intros Hch Hlen Hx Hy Hc. rewrite RecoverDStroke_foldl.
  destruct (Z.le_gt_cases 2 w).
  - by rewrite (clear_rect_get dest ch_offset w h Hch Hlen
                  (fun p => Describe.is_d_stroke src w ch_offset alpha_threshold p.1 p.2))
      by lia.
  - unfold Describe.rect.
    assert (seqZ 1 (w - 1 - 1) = []) as -> by (unfold seqZ; by replace (Z.to_nat (w - 1 - 1)) with 0%nat by lia).
    assert (∀ l : list Z, (l ≫= (fun y0 : Z => (fun x1 : Z => (x1, y0)) <$> @nil Z))
                          = @nil (Z * Z)) as ->.
    { intros l. induction l as [|a l IH]; [done|]. by rewrite bind_cons, IH. }
    cbn [foldl].
    destruct (Z.leb_spec 1 x), (Z.ltb_spec x (1 + (w - 1 - 1))); try lia;
      by rewrite ?andb_false_r.
Qed.

(** X27: the stroke pass in the y direction, pixel by pixel.  For a
    destination of [w * h * 4] bytes and an alpha channel in 0..3, the
    pass sets the alpha of a pixel to 0 exactly when the pixel lies in
    neither the first nor the last row and, in the raster it reads, the
    pixel and the one above it have data while the one below has none; it
    leaves every other byte of the destination as it was. *)
Theorem RecoverYStroke_pixel (dest src : list Z) (ch_offset alpha_threshold w h x y c : Z) :
  0 <= ch_offset <= 3 → JS.len dest = w * h * 4 →
  0 <= x < w → 0 <= y < h → 0 <= c <= 3 →
  JS.get (BITS.RecoverYStrokeInRGBA8888Tile dest src ch_offset alpha_threshold w h)
    (4 * (y * w + x) + c)
  = if (c =? ch_offset) && (1 <=? y) && (y <? h - 1)
       && Describe.is_y_stroke src w ch_offset alpha_threshold x y
    then Some 0
    else JS.get dest (4 * (y * w + x) + c).
Proof.
  intros Hch Hlen Hx Hy Hc. rewrite RecoverYStroke_get by done.
  destruct (Z.leb_spec 0 x), (Z.ltb_spec x (0 + w)); try lia.
  replace (1 + (h - 1 - 1)) with (h - 1) by lia. by rewrite !andb_true_r.
Qed.

Lemma RecoverYStroke_pixel_witness :
  JS.get (BITS.RecoverYStrokeInRGBA8888Tile Sample.stroke_raster Sample.stroke_raster
            3 1 8 4) (4 * (2 * 8 + 1) + 3)
  = if (3 =? 3) && (1 <=? 2) && (2 <? 4 - 1)
       && Describe.is_y_stroke Sample.stroke_raster 8 3 1 1 2
    then Some 0
    else JS.get Sample.stroke_raster (4 * (2 * 8 + 1) + 3).
Proof.
  apply (RecoverYStroke_pixel Sample.stroke_raster Sample.stroke_raster 3 1 8 4 1 2 3);
    [lia | reflexivity | lia | lia | lia].
Defined.

(** X28: the diagonal stroke pass, pixel by pixel.  It sets the alpha of
    a pixel to 0 exactly when the pixel lies in none of the outer rows and
    columns and, in the raster it reads, the pixel and its upper left
    neighbour have data while its lower right neighbour has none. *)
Theorem RecoverDStroke_pixel (dest src : list Z) (ch_offset alpha_threshold w h x y c : Z) :
  0 <= ch_offset <= 3 → JS.len dest = w * h * 4 →
  0 <= x < w → 0 <= y < h → 0 <= c <= 3 →
  JS.get (BITS.RecoverDStrokeInRGBA8888Tile dest src ch_offset alpha_threshold w h)
    (4 * (y * w + x) + c)
  = if (c =? ch_offset) && (1 <=? x) && (x <? w - 1) && (1 <=? y) && (y <? h - 1)
       && Describe.is_d_stroke src w ch_offset alpha_threshold x y
    then Some 0
    else JS.get dest (4 * (y * w + x) + c).
Proof.
  intros Hch Hlen Hx Hy Hc. rewrite RecoverDStroke_get by done.
  replace (1 + (w - 1 - 1)) with (w - 1) by lia.
  by replace (1 + (h - 1 - 1)) with (h - 1) by lia.
Qed.

Lemma RecoverDStroke_pixel_witness :
  JS.get (BITS.RecoverDStrokeInRGBA8888Tile Sample.stroke_raster Sample.stroke_raster
            3 1 8 4) (4 * (2 * 8 + 2) + 3)
  = if (3 =? 3) && (1 <=? 2) && (2 <? 8 - 1) && (1 <=? 2) && (2 <? 4 - 1)
       && Describe.is_d_stroke Sample.stroke_raster 8 3 1 2 2
    then Some 0
    else JS.get Sample.stroke_raster (4 * (2 * 8 + 2) + 3).
Proof.
  apply (RecoverDStroke_pixel Sample.stroke_raster Sample.stroke_raster 3 1 8 4 2 2 3);
    [lia | reflexivity | lia | lia | lia].
Defined.

(** ** The recovery options, bit by bit *)

Lemma map_ToUint8_bytes (src : list Z) :
  Forall (fun v => 0 <= v < 256) src → map JS.ToUint8 src = src.
Proof.
  induction 1 as [|v l Hv _ IH]; [done|]. cbn [map]. rewrite IH. f_equal.
  unfold JS.ToUint8. apply Z.mod_small. lia.
Qed.

(** A cleared alpha is below every threshold of at least 1. *)
Lemma ge_zero_threshold (t : Z) : 1 <= t → JS.ge (Some 0) (Some t) = false.
Proof. intros Ht. unfold JS.ge, JS.le. apply Z.leb_gt. lia. Qed.

(** With the length test passed, each option builds the bitmap from the
    raster its passes leave. *)
Lemma GetBitmapFromRGBA8888Tile_passes (src : list Z) (unshadow unstroke : bool) (ch_offset alpha_threshold unshd_threshold w h : Z) :
  JS.len src = JS.shl (w * h) 2 →
  BITS.GetBitmapFromRGBA8888Tile (Some src) unshadow unstroke ch_offset alpha_threshold
    unshd_threshold w h
  = BITS.GetBitmapFromRGBA8888Tile
      (Some (let src1 := if unshadow
                         then BITS.RecoverShadowAlphaInRGBA8888Tile src ch_offset
                                alpha_threshold unshd_threshold w h
                         else src in
             if unstroke then BITS.unstroke_passes src1 ch_offset alpha_threshold w h
             else src1))
      false false ch_offset alpha_threshold unshd_threshold w h.
Proof.
  intros Hlen. cbv zeta.
  set (src1 := if unshadow
               then BITS.RecoverShadowAlphaInRGBA8888Tile src ch_offset alpha_threshold
                      unshd_threshold w h
               else src).
  set (src2 := if unstroke
               then BITS.unstroke_passes src1 ch_offset alpha_threshold w h else src1).
  assert (H1 : Describe.cleared src src1).
  { unfold src1. destruct unshadow; [apply RecoverShadowAlpha_cleared | apply cleared_refl]. }
  assert (H2 : Describe.cleared src src2).
  { unfold src2. destruct unstroke; [|done].
    eapply cleared_trans; [exact H1 | apply unstroke_passes_cleared]. }
  unfold BITS.GetBitmapFromRGBA8888Tile.
  assert (JS.len src2 = JS.len src) as -> by (unfold JS.len; by rewrite (proj1 H2)).
  rewrite Hlen, Z.eqb_refl. reflexivity.
Qed.

(** X29: what the unstroke option does to a bit.  For a raster of bytes,
    an alpha channel in 0..3 and a threshold of at least 1, in the bitmap
    built with the stroke recovery alone the bit of pixel (x, y) is set
    exactly when the alpha of the pixel reaches the threshold and the
    pixel is cleared neither by the pass in the y direction (off the first
    and last rows: the pixel above has data, the one below has none) nor
    by the diagonal pass (off the outer rows and columns: the upper left
    neighbour has data, the lower right one has none), both tests being
    made on the raster as it was given. *)
Theorem unstroke_bit (src : list Z) (ch_offset alpha_threshold unshd_threshold w h x y : Z) :
  Forall (fun v => 0 <= v < 256) src →
  0 <= ch_offset <= 3 → 1 <= alpha_threshold →
  w `mod` 4 = 0 → h `mod` 4 = 0 → w * h < 2 ^ 29 →
  JS.len src = w * h * 4 →
  0 <= x < w → 0 <= y < h →
  ∃ dest,
    BITS.GetBitmapFromRGBA8888Tile (Some src) false true ch_offset alpha_threshold
      unshd_threshold w h = JS.Normal (Some dest)
    ∧ BITS.c_GetBit dest x y w h
      = JS.ge (JS.get src (4 * (y * w + x) + ch_offset)) (Some alpha_threshold)
        && negb ((1 <=? y) && (y <? h - 1)
                 && Describe.is_y_stroke src w ch_offset alpha_threshold x y)
        && negb ((1 <=? x) && (x <? w - 1) && (1 <=? y) && (y <? h - 1)
                 && Describe.is_d_stroke src w ch_offset alpha_threshold x y).
Proof.
  intros Hbytes Hch Hat Hw4 Hh4 Hsize Hlen Hx Hy.
  assert (Hshl : JS.shl (w * h) 2 = w * h * 4).
  { rewrite shl_small by nia. reflexivity. }
  rewrite GetBitmapFromRGBA8888Tile_passes by lia. cbv zeta iota.
  pose proof (unstroke_passes_cleared src ch_offset alpha_threshold w h) as [Hl _].
  destruct (GetBit_after_build (BITS.unstroke_passes src ch_offset alpha_threshold w h)
              ch_offset alpha_threshold unshd_threshold w h x y)
    as (dest & Hbuild & Hbit); try done.
  { unfold JS.len in *. by rewrite Hl. }
  exists dest. split; [exact Hbuild|]. rewrite Hbit.
  unfold BITS.unstroke_passes. cbv zeta.
  rewrite RecoverXStrokeInRGBA8888Tile_unchanged, (map_ToUint8_bytes src Hbytes).
  rewrite RecoverYStroke_get; [|lia| |lia|lia|lia].
  2: { pose proof (RecoverDStroke_cleared src src ch_offset alpha_threshold w h) as [Hd _].
       unfold JS.len in *. by rewrite Hd. }
  rewrite RecoverDStroke_get by (done || lia).
  rewrite Z.eqb_refl. cbn [andb].
  destruct (Z.leb_spec 0 x), (Z.ltb_spec x (0 + w)); try lia. cbn [andb].
  replace (1 + (h - 1 - 1)) with (h - 1) by lia.
  replace (1 + (w - 1 - 1)) with (w - 1) by lia.
  destruct ((1 <=? y) && (y <? h - 1)
            && Describe.is_y_stroke src w ch_offset alpha_threshold x y).
  - rewrite ge_zero_threshold by done. cbn [negb]. by rewrite andb_false_r.
  - cbn [negb]. rewrite andb_true_r.
    destruct ((1 <=? x) && (x <? w - 1) && (1 <=? y) && (y <? h - 1)
              && Describe.is_d_stroke src w ch_offset alpha_threshold x y).
    + rewrite ge_zero_threshold by done. by rewrite andb_false_r.
    + by rewrite andb_true_r.
Qed.

Lemma unstroke_bit_witness :
  ∃ dest,
    BITS.GetBitmapFromRGBA8888Tile (Some Sample.stroke_raster) false true 3 1 1 8 4
    = JS.Normal (Some dest)
    ∧ BITS.c_GetBit dest 2 2 8 4
      = JS.ge (JS.get Sample.stroke_raster (4 * (2 * 8 + 2) + 3)) (Some 1)
        && negb ((1 <=? 2) && (2 <? 4 - 1)
                 && Describe.is_y_stroke Sample.stroke_raster 8 3 1 2 2)
        && negb ((1 <=? 2) && (2 <? 8 - 1) && (1 <=? 2) && (2 <? 4 - 1)
                 && Describe.is_d_stroke Sample.stroke_raster 8 3 1 2 2).
Proof.
  apply (unstroke_bit Sample.stroke_raster 3 1 1 8 4 2 2);
    [ apply (bool_decide_unpack _); vm_compute; reflexivity
    | lia | lia | reflexivity | reflexivity | lia | reflexivity | lia | lia ].
Defined.

(** X30: what the unshadow option does to a bit.  For an alpha channel in
    0..3 and a threshold of at least 1, in the bitmap built with the
    shadow recovery alone the bit of pixel (x, y) is set exactly when the
    alpha of the pixel reaches the threshold and one of its three other
    channels is above [unshd_threshold]. *)
Theorem unshadow_bit (src : list Z) (ch_offset alpha_threshold unshd_threshold w h x y : Z) :
  0 <= ch_offset <= 3 → 1 <= alpha_threshold →
  w `mod` 4 = 0 → h `mod` 4 = 0 → w * h < 2 ^ 29 →
  JS.len src = w * h * 4 →
  0 <= x < w → 0 <= y < h →
  ∃ dest,
    BITS.GetBitmapFromRGBA8888Tile (Some src) true false ch_offset alpha_threshold
      unshd_threshold w h = JS.Normal (Some dest)
    ∧ BITS.c_GetBit dest x y w h
      = JS.ge (JS.get src (4 * (y * w + x) + ch_offset)) (Some alpha_threshold)
        && negb (JS.le (JS.get src (4 * (y * w + x) + (ch_offset + 1) `mod` 4))
                   (Some unshd_threshold)
                 && JS.le (JS.get src (4 * (y * w + x) + (ch_offset + 2) `mod` 4))
                      (Some unshd_threshold)
                 && JS.le (JS.get src (4 * (y * w + x) + (ch_offset + 3) `mod` 4))
                      (Some unshd_threshold)).
Proof.
  intros Hch Hat Hw4 Hh4 Hsize Hlen Hx Hy.
  assert (Hshl : JS.shl (w * h) 2 = w * h * 4).
  { rewrite shl_small by nia. reflexivity. }
  rewrite GetBitmapFromRGBA8888Tile_passes by lia. cbv zeta iota.
  pose proof (RecoverShadowAlpha_cleared src ch_offset alpha_threshold unshd_threshold w h)
    as [Hl _].
  destruct (GetBit_after_build
              (BITS.RecoverShadowAlphaInRGBA8888Tile src ch_offset alpha_threshold
                 unshd_threshold w h)
              ch_offset alpha_threshold unshd_threshold w h x y)
    as (dest & Hbuild & Hbit); try done.
  { unfold JS.len in *. by rewrite Hl. }
  exists dest. split; [exact Hbuild|]. rewrite Hbit.
  rewrite RecoverShadowAlpha_foldl by lia.
  rewrite (shadow_foldl ch_offset alpha_threshold unshd_threshold w h Hch
             (Describe.pixels w h) src Hlen (NoDup_pixels w h)); try done; try lia.
  2: { intros [px py] Hp. by apply elem_of_pixels in Hp. }
  rewrite (bool_decide_eq_true_2 ((x, y) ∈ Describe.pixels w h))
    by (apply elem_of_pixels; lia).
  rewrite Z.eqb_refl. cbn [andb]. unfold Describe.is_shadow.
  destruct (JS.ge (JS.get src (4 * (y * w + x) + ch_offset)) (Some alpha_threshold)) eqn:Ha;
    cbn [andb].
  - destruct (_ && _ && _); cbn [negb]; [by apply ge_zero_threshold | exact Ha].
  - exact Ha.
Qed.

Lemma unshadow_bit_witness :
  ∃ dest,
    BITS.GetBitmapFromRGBA8888Tile (Some Sample.stroke_raster) true false 3 1 1 8 4
    = JS.Normal (Some dest)
    ∧ BITS.c_GetBit dest 1 1 8 4
      = JS.ge (JS.get Sample.stroke_raster (4 * (1 * 8 + 1) + 3)) (Some 1)
        && negb (JS.le (JS.get Sample.stroke_raster (4 * (1 * 8 + 1) + (3 + 1) `mod` 4))
                   (Some 1)
                 && JS.le (JS.get Sample.stroke_raster (4 * (1 * 8 + 1) + (3 + 2) `mod` 4))
                      (Some 1)
                 && JS.le (JS.get Sample.stroke_raster (4 * (1 * 8 + 1) + (3 + 3) `mod` 4))
                      (Some 1)).
Proof.
  apply (unshadow_bit Sample.stroke_raster 3 1 1 8 4 1 1);
    [ lia | lia | reflexivity | reflexivity | lia | reflexivity | lia | lia ].
Defined.
